(** * Math-Expression-Formatter: the regex pipeline of [mathProcessor.ts]
      and of the application component, and what it guarantees.

    JavaScript strings are sequences of UTF-16 code units; a regular
    expression without the [u] flag works on code units too.  Strings are
    therefore modelled as [list N], every element one code unit. *)

From Stdlib Require Import String Ascii List NArith Bool Arith Lia.
Import ListNotations.

(** ** JavaScript strings *)

Module JsString.

Definition jsstring := list N.

(** Source text of this file is UTF-8; [utf8] turns the bytes of a string
    literal into the UTF-16 code units JavaScript sees. *)
Fixpoint utf8 (bs : list N) : jsstring :=
  match bs with
  | [] => []
  | b0 :: r0 =>
    if (b0 <? 0x80)%N then b0 :: utf8 r0
    else if (b0 <? 0xE0)%N then
      match r0 with
      | b1 :: r1 => ((b0 mod 32) * 64 + b1 mod 64)%N :: utf8 r1
      | _ => []
      end
    else if (b0 <? 0xF0)%N then
      match r0 with
      | b1 :: b2 :: r2 =>
          ((b0 mod 16) * 4096 + (b1 mod 64) * 64 + b2 mod 64)%N :: utf8 r2
      | _ => []
      end
    else
      match r0 with
      | b1 :: b2 :: b3 :: r3 =>
          let cp := ((b0 mod 8) * 262144 + (b1 mod 64) * 4096
                     + (b2 mod 64) * 64 + b3 mod 64)%N in
          (0xD800 + (cp - 0x10000) / 1024)%N
            :: (0xDC00 + (cp - 0x10000) mod 1024)%N :: utf8 r3
      | _ => []
      end
  end.

Definition js (s : string) : jsstring :=
  utf8 (map N_of_ascii (list_ascii_of_string s)).

(** [isPrefix p s]: [s] starts with [p]. *)
Fixpoint isPrefix (p s : jsstring) : bool :=
  match p, s with
  | [], _ => true
  | _ :: _, [] => false
  | a :: p', b :: s' => (a =? b)%N && isPrefix p' s'
  end.

(** [String.prototype.includes]. *)
Fixpoint includes (s sub : jsstring) : bool :=
  isPrefix sub s || match s with [] => false | _ :: s' => includes s' sub end.

Definition inRanges (c : N) (rs : list (N * N)) : bool :=
  existsb (fun r => (fst r <=? c)%N && (c <=? snd r)%N) rs.

(** The classes written in the program's patterns. *)
Definition letter : list (N * N) := [(0x41, 0x5A); (0x61, 0x7A)]%N.
Definition alnum : list (N * N) := [(0x41, 0x5A); (0x61, 0x7A); (0x30, 0x39)]%N.

(** [\w], [\s] and the line terminators of ECMAScript. *)
Definition wordChars : list (N * N) :=
  [(0x61, 0x7A); (0x41, 0x5A); (0x30, 0x39); (0x5F, 0x5F)]%N.
Definition whiteSpace : list (N * N) :=
  [(0x09, 0x0D); (0x20, 0x20); (0xA0, 0xA0); (0x1680, 0x1680);
   (0x2000, 0x200A); (0x2028, 0x2029); (0x202F, 0x202F); (0x205F, 0x205F);
   (0x3000, 0x3000); (0xFEFF, 0xFEFF)]%N.
Definition lineTerminators : list (N * N) :=
  [(0x0A, 0x0A); (0x0D, 0x0D); (0x2028, 0x2029)]%N.

End JsString.
Export JsString.

(** ** Case conversion of a single code unit *)

Module Unicode.

(** Code units whose upper case is one other code unit, as runs
    [(first, last, stride, upper case of first)] (Unicode default case
    conversion); every other code unit is its own upper case, or has an
    upper case of several code units, which the canonicalisation below
    ignores. *)
Definition upperRuns : list (N * N * N * N) :=
 [
  (0x61, 0x7a, 1, 0x41); (0xb5, 0xb5, 1, 0x39c); (0xe0, 0xf6, 1, 0xc0);
   (0xf8, 0xfe, 1, 0xd8); (0xff, 0xff, 1, 0x178); (0x101, 0x12f, 2, 0x100);
   (0x131, 0x131, 1, 0x49); (0x133, 0x137, 2, 0x132);
   (0x13a, 0x148, 2, 0x139); (0x14b, 0x177, 2, 0x14a);
   (0x17a, 0x17e, 2, 0x179); (0x17f, 0x17f, 1, 0x53);
   (0x180, 0x180, 1, 0x243); (0x183, 0x185, 2, 0x182);
   (0x188, 0x188, 1, 0x187); (0x18c, 0x18c, 1, 0x18b);
   (0x192, 0x192, 1, 0x191); (0x195, 0x195, 1, 0x1f6);
   (0x199, 0x199, 1, 0x198); (0x19a, 0x19a, 1, 0x23d);
   (0x19e, 0x19e, 1, 0x220); (0x1a1, 0x1a5, 2, 0x1a0);
   (0x1a8, 0x1a8, 1, 0x1a7); (0x1ad, 0x1ad, 1, 0x1ac);
   (0x1b0, 0x1b0, 1, 0x1af); (0x1b4, 0x1b6, 2, 0x1b3);
   (0x1b9, 0x1b9, 1, 0x1b8); (0x1bd, 0x1bd, 1, 0x1bc);
   (0x1bf, 0x1bf, 1, 0x1f7); (0x1c5, 0x1c5, 1, 0x1c4);
   (0x1c6, 0x1c6, 1, 0x1c4); (0x1c8, 0x1c8, 1, 0x1c7);
   (0x1c9, 0x1c9, 1, 0x1c7); (0x1cb, 0x1cb, 1, 0x1ca);
   (0x1cc, 0x1cc, 1, 0x1ca); (0x1ce, 0x1dc, 2, 0x1cd);
   (0x1dd, 0x1dd, 1, 0x18e); (0x1df, 0x1ef, 2, 0x1de);
   (0x1f2, 0x1f2, 1, 0x1f1); (0x1f3, 0x1f3, 1, 0x1f1);
   (0x1f5, 0x1f5, 1, 0x1f4); (0x1f9, 0x21f, 2, 0x1f8);
   (0x223, 0x233, 2, 0x222); (0x23c, 0x23c, 1, 0x23b);
   (0x23f, 0x240, 1, 0x2c7e); (0x242, 0x242, 1, 0x241);
   (0x247, 0x24f, 2, 0x246); (0x250, 0x250, 1, 0x2c6f);
   (0x251, 0x251, 1, 0x2c6d); (0x252, 0x252, 1, 0x2c70);
   (0x253, 0x253, 1, 0x181); (0x254, 0x254, 1, 0x186);
   (0x256, 0x257, 1, 0x189); (0x259, 0x259, 1, 0x18f);
   (0x25b, 0x25b, 1, 0x190); (0x25c, 0x25c, 1, 0xa7ab);
   (0x260, 0x260, 1, 0x193); (0x261, 0x261, 1, 0xa7ac);
   (0x263, 0x263, 1, 0x194); (0x265, 0x265, 1, 0xa78d);
   (0x266, 0x266, 1, 0xa7aa); (0x268, 0x268, 1, 0x197);
   (0x269, 0x269, 1, 0x196); (0x26a, 0x26a, 1, 0xa7ae);
   (0x26b, 0x26b, 1, 0x2c62); (0x26c, 0x26c, 1, 0xa7ad);
   (0x26f, 0x26f, 1, 0x19c); (0x271, 0x271, 1, 0x2c6e);
   (0x272, 0x272, 1, 0x19d); (0x275, 0x275, 1, 0x19f);
   (0x27d, 0x27d, 1, 0x2c64); (0x280, 0x280, 1, 0x1a6);
   (0x282, 0x282, 1, 0xa7c5); (0x283, 0x283, 1, 0x1a9);
   (0x287, 0x287, 1, 0xa7b1); (0x288, 0x288, 1, 0x1ae);
   (0x289, 0x289, 1, 0x244); (0x28a, 0x28b, 1, 0x1b1);
   (0x28c, 0x28c, 1, 0x245); (0x292, 0x292, 1, 0x1b7);
   (0x29d, 0x29d, 1, 0xa7b2); (0x29e, 0x29e, 1, 0xa7b0);
   (0x345, 0x345, 1, 0x399); (0x371, 0x373, 2, 0x370);
   (0x377, 0x377, 1, 0x376); (0x37b, 0x37d, 1, 0x3fd);
   (0x3ac, 0x3ac, 1, 0x386); (0x3ad, 0x3af, 1, 0x388);
   (0x3b1, 0x3c1, 1, 0x391); (0x3c2, 0x3c2, 1, 0x3a3);
   (0x3c3, 0x3cb, 1, 0x3a3); (0x3cc, 0x3cc, 1, 0x38c);
   (0x3cd, 0x3ce, 1, 0x38e); (0x3d0, 0x3d0, 1, 0x392);
   (0x3d1, 0x3d1, 1, 0x398); (0x3d5, 0x3d5, 1, 0x3a6);
   (0x3d6, 0x3d6, 1, 0x3a0); (0x3d7, 0x3d7, 1, 0x3cf);
   (0x3d9, 0x3ef, 2, 0x3d8); (0x3f0, 0x3f0, 1, 0x39a);
   (0x3f1, 0x3f1, 1, 0x3a1); (0x3f2, 0x3f2, 1, 0x3f9);
   (0x3f3, 0x3f3, 1, 0x37f); (0x3f5, 0x3f5, 1, 0x395);
   (0x3f8, 0x3f8, 1, 0x3f7); (0x3fb, 0x3fb, 1, 0x3fa);
   (0x430, 0x44f, 1, 0x410); (0x450, 0x45f, 1, 0x400);
   (0x461, 0x481, 2, 0x460); (0x48b, 0x4bf, 2, 0x48a);
   (0x4c2, 0x4ce, 2, 0x4c1); (0x4cf, 0x4cf, 1, 0x4c0);
   (0x4d1, 0x52f, 2, 0x4d0); (0x561, 0x586, 1, 0x531);
   (0x10d0, 0x10fa, 1, 0x1c90); (0x10fd, 0x10ff, 1, 0x1cbd);
   (0x13f8, 0x13fd, 1, 0x13f0); (0x1c80, 0x1c80, 1, 0x412);
   (0x1c81, 0x1c81, 1, 0x414); (0x1c82, 0x1c82, 1, 0x41e);
   (0x1c83, 0x1c84, 1, 0x421); (0x1c85, 0x1c85, 1, 0x422);
   (0x1c86, 0x1c86, 1, 0x42a); (0x1c87, 0x1c87, 1, 0x462);
   (0x1c88, 0x1c88, 1, 0xa64a); (0x1d79, 0x1d79, 1, 0xa77d);
   (0x1d7d, 0x1d7d, 1, 0x2c63); (0x1d8e, 0x1d8e, 1, 0xa7c6);
   (0x1e01, 0x1e95, 2, 0x1e00); (0x1e9b, 0x1e9b, 1, 0x1e60);
   (0x1ea1, 0x1eff, 2, 0x1ea0); (0x1f00, 0x1f07, 1, 0x1f08);
   (0x1f10, 0x1f15, 1, 0x1f18); (0x1f20, 0x1f27, 1, 0x1f28);
   (0x1f30, 0x1f37, 1, 0x1f38); (0x1f40, 0x1f45, 1, 0x1f48);
   (0x1f51, 0x1f57, 2, 0x1f59); (0x1f60, 0x1f67, 1, 0x1f68);
   (0x1f70, 0x1f71, 1, 0x1fba); (0x1f72, 0x1f75, 1, 0x1fc8);
   (0x1f76, 0x1f77, 1, 0x1fda); (0x1f78, 0x1f79, 1, 0x1ff8);
   (0x1f7a, 0x1f7b, 1, 0x1fea); (0x1f7c, 0x1f7d, 1, 0x1ffa);
   (0x1fb0, 0x1fb1, 1, 0x1fb8); (0x1fbe, 0x1fbe, 1, 0x399);
   (0x1fd0, 0x1fd1, 1, 0x1fd8); (0x1fe0, 0x1fe1, 1, 0x1fe8);
   (0x1fe5, 0x1fe5, 1, 0x1fec); (0x214e, 0x214e, 1, 0x2132);
   (0x2170, 0x217f, 1, 0x2160); (0x2184, 0x2184, 1, 0x2183);
   (0x24d0, 0x24e9, 1, 0x24b6); (0x2c30, 0x2c5f, 1, 0x2c00);
   (0x2c61, 0x2c61, 1, 0x2c60); (0x2c65, 0x2c65, 1, 0x23a);
   (0x2c66, 0x2c66, 1, 0x23e); (0x2c68, 0x2c6c, 2, 0x2c67);
   (0x2c73, 0x2c73, 1, 0x2c72); (0x2c76, 0x2c76, 1, 0x2c75);
   (0x2c81, 0x2ce3, 2, 0x2c80); (0x2cec, 0x2cee, 2, 0x2ceb);
   (0x2cf3, 0x2cf3, 1, 0x2cf2); (0x2d00, 0x2d25, 1, 0x10a0);
   (0x2d27, 0x2d27, 1, 0x10c7); (0x2d2d, 0x2d2d, 1, 0x10cd);
   (0xa641, 0xa66d, 2, 0xa640); (0xa681, 0xa69b, 2, 0xa680);
   (0xa723, 0xa72f, 2, 0xa722); (0xa733, 0xa76f, 2, 0xa732);
   (0xa77a, 0xa77c, 2, 0xa779); (0xa77f, 0xa787, 2, 0xa77e);
   (0xa78c, 0xa78c, 1, 0xa78b); (0xa791, 0xa793, 2, 0xa790);
   (0xa794, 0xa794, 1, 0xa7c4); (0xa797, 0xa7a9, 2, 0xa796);
   (0xa7b5, 0xa7c3, 2, 0xa7b4); (0xa7c8, 0xa7ca, 2, 0xa7c7);
   (0xa7d1, 0xa7d1, 1, 0xa7d0); (0xa7d7, 0xa7d9, 2, 0xa7d6);
   (0xa7f6, 0xa7f6, 1, 0xa7f5); (0xab53, 0xab53, 1, 0xa7b3);
   (0xab70, 0xabbf, 1, 0x13a0); (0xff41, 0xff5a, 1, 0xff21)
 ]%N.

Definition inRun (c : N) (r : N * N * N * N) : bool :=
  let '(lo, hi, stride, _) := r in
  (lo <=? c)%N && (c <=? hi)%N && ((c - lo) mod stride =? 0)%N.

Definition toUpperCase (c : N) : N :=
  match find (inRun c) upperRuns with
  | Some (lo, _, _, up) => (up + (c - lo))%N
  | None => c
  end.

(** ECMAScript [Canonicalize] for a pattern without the [u] flag: with
    [ignoreCase] a code unit is compared by its upper case, except that a
    non-ASCII code unit never canonicalises to an ASCII one. *)
Definition canonicalize (ignoreCase : bool) (ch : N) : N :=
  if ignoreCase then
    let cu := toUpperCase ch in
    if (128 <=? ch)%N && (cu <? 128)%N then ch else cu
  else ch.

End Unicode.
Export Unicode.

(** ** Regular expressions: a backtracking matcher after the ECMAScript
       semantics (greedy quantifiers, ordered alternation, captures) *)

Module RegExp.

Inductive regex : Type :=
| Empty                                   (* the empty pattern *)
| Char (c : N)                            (* a literal code unit *)
| Dot                                     (* [.] *)
| CharSet (neg : bool) (rs : list (N * N)) (* [[...]], [[^...]], [\s] *)
| WordBoundary                            (* [\b] *)
| Seq (a b : regex)
| Alt (a b : regex)                       (* [a|b] *)
| Star (a : regex)                        (* [a*] *)
| Plus (a : regex)                        (* [a+] *)
| Opt (a : regex)                         (* [a?] *)
| Group (i : nat) (a : regex).            (* the [i]-th capturing group *)

(** No pattern of the program has a group under a quantifier, so the
    captures of an earlier iteration never have to be reset. *)

(** The literal text [s] as a pattern. *)
Definition lit (s : jsstring) : regex :=
  fold_right (fun c r => Seq (Char c) r) Empty s.

Record flags : Type := { ignoreCase : bool }.

(** Matcher state: the code unit before the current position (for [\b]),
    the input from the current position on, and the captures so far. *)
Record mstate : Type :=
  { prev : option N; rest : jsstring; caps : list (nat * jsstring) }.

Definition cont : Type := mstate -> option mstate.

Definition advance (x : N) (xs : jsstring) (st : mstate) : mstate :=
  {| prev := Some x; rest := xs; caps := caps st |}.

Definition isWordChar (o : option N) : bool :=
  match o with Some c => inRanges c wordChars | None => false end.

Definition atWordBoundary (st : mstate) : bool :=
  negb (Bool.eqb (isWordChar (prev st)) (isWordChar (hd_error (rest st)))).

Definition enumRange (r : N * N) : list N :=
  map N.of_nat (seq (N.to_nat (fst r)) (S (N.to_nat (snd r)) - N.to_nat (fst r))).

(** Membership of [x] in a class: under [ignoreCase] some member of the
    class has the canonical form of [x]. *)
Definition inClass (f : flags) (rs : list (N * N)) (x : N) : bool :=
  if ignoreCase f then
    existsb (fun r => existsb (fun a =>
      (canonicalize true a =? canonicalize true x)%N) (enumRange r)) rs
  else inRanges x rs.

Definition charEq (f : flags) (c x : N) : bool :=
  (canonicalize (ignoreCase f) c =? canonicalize (ignoreCase f) x)%N.

(** One code unit against [ok]. *)
Definition one (ok : N -> bool) (st : mstate) (k : cont) : option mstate :=
  match rest st with
  | x :: xs => if ok x then k (advance x xs st) else None
  | [] => None
  end.

Definition orElse (a b : option mstate) : option mstate :=
  match a with Some r => Some r | None => b end.

(** An iteration of a quantifier counts only if it consumed input. *)
Definition progress (st st' : mstate) : bool :=
  length (rest st') <? length (rest st).

(** Greedy repetition of the matcher [ma]; every iteration consumes at
    least one code unit, so [length (rest st)] iterations are enough. *)
Fixpoint repeatMatcher (ma : mstate -> cont -> option mstate) (fuel : nat)
    (st : mstate) (k : cont) : option mstate :=
  match fuel with
  | O => k st
  | S fuel' =>
      orElse
        (ma st (fun st' => if progress st st' then repeatMatcher ma fuel' st' k
                           else None))
        (k st)
  end.

Definition setCap (i : nat) (st0 st : mstate) : mstate :=
  {| prev := prev st; rest := rest st;
     caps := (i, firstn (length (rest st0) - length (rest st)) (rest st0))
               :: caps st |}.

Fixpoint matcher (f : flags) (r : regex) (st : mstate) (k : cont)
    {struct r} : option mstate :=
  match r with
  | Empty => k st
  | Char c => one (charEq f c) st k
  | Dot => one (fun x => negb (inRanges x lineTerminators)) st k
  | CharSet neg rs => one (fun x => xorb neg (inClass f rs x)) st k
  | WordBoundary => if atWordBoundary st then k st else None
  | Seq a b => matcher f a st (fun st' => matcher f b st' k)
  | Alt a b => orElse (matcher f a st k) (matcher f b st k)
  | Star a => repeatMatcher (matcher f a) (length (rest st)) st k
  | Plus a =>
      matcher f a st
        (fun st' => repeatMatcher (matcher f a) (length (rest st')) st' k)
  | Opt a =>
      orElse
        (matcher f a st (fun st' => if progress st st' then k st' else None))
        (k st)
  | Group i a => matcher f a st (fun st' => k (setCap i st st'))
  end.

(** A match attempt at one position: [before] is the code unit in front
    of it, [s] the input from there. *)
Definition matchAt (f : flags) (r : regex) (before : option N) (s : jsstring)
    : option mstate :=
  matcher f r {| prev := before; rest := s; caps := [] |} Some.

(** [RegExp.prototype.test] on a fresh pattern: is there a position where
    the pattern matches? *)
Fixpoint searchFrom (f : flags) (r : regex) (before : option N) (s : jsstring)
    : bool :=
  match matchAt f r before s with
  | Some _ => true
  | None =>
      match s with
      | [] => false
      | c :: s' => searchFrom f r (Some c) s'
      end
  end.

Definition test (f : flags) (r : regex) (s : jsstring) : bool :=
  searchFrom f r None s.

(** Replacement text: literal pieces and [$n] references. *)
Inductive piece : Type :=
| Text (s : jsstring)
| Ref (i : nat).

Definition capture (i : nat) (cs : list (nat * jsstring)) : jsstring :=
  match find (fun p => Nat.eqb (fst p) i) cs with
  | Some p => snd p
  | None => []
  end.

Definition expand (tmpl : list piece) (cs : list (nat * jsstring)) : jsstring :=
  flat_map (fun p => match p with Text s => s | Ref i => capture i cs end) tmpl.

(** [String.prototype.replace] with a global pattern.  The input is
    walked once; [skip] counts the code units still covered by the match
    found last.  After an empty match the next attempt starts one code
    unit later, as [lastIndex] is advanced. *)
Fixpoint replaceFrom (f : flags) (r : regex) (tmpl : list piece)
    (before : option N) (s : jsstring) (skip : nat) {struct s} : jsstring :=
  match s with
  | [] =>
      match skip with
      | O => match matchAt f r before [] with
             | Some st => expand tmpl (caps st)
             | None => []
             end
      | S _ => []
      end
  | c :: s' =>
      match skip with
      | S n => replaceFrom f r tmpl (Some c) s' n
      | O =>
          match matchAt f r before s with
          | Some st =>
              expand tmpl (caps st) ++
              match length s - length (rest st) with
              | O => c :: replaceFrom f r tmpl (Some c) s' 0
              | S n => replaceFrom f r tmpl (Some c) s' n
              end
          | None => c :: replaceFrom f r tmpl (Some c) s' 0
          end
      end
  end.

Definition replaceAll (f : flags) (r : regex) (tmpl : list piece)
    (s : jsstring) : jsstring :=
  replaceFrom f r tmpl None s 0.

Definition g : flags := {| ignoreCase := false |}.
Definition gi : flags := {| ignoreCase := true |}.

End RegExp.
Export RegExp.

Declare Scope regex_scope.
Delimit Scope regex_scope with re.
Infix ";;" := Seq (at level 61, right associativity) : regex_scope.

(** ** [src/utils/mathProcessor.ts] *)

Module MathProcessor.

Local Open Scope string_scope.
Local Open Scope regex_scope.

(** The single code unit of a one-character literal. *)
Definition cu (s : string) : N := hd 0%N (js s).

Definition ws : regex := CharSet false whiteSpace.     (* [\s] *)

(** [/([A-Za-z])_([A-Za-z0-9]+)/g] and ['$1_{$2}'] *)
Definition reSubscript : regex :=
  Group 1 (CharSet false letter) ;; Char (cu "_") ;;
  Group 2 (Plus (CharSet false alnum)).
Definition toSubscript : list piece :=
  [Ref 1; Text (js "_{"); Ref 2; Text (js "}")].

(** [/([A-Za-z0-9])(\^)([A-Za-z0-9]+)/g] and ['$1^{$3}'] *)
Definition reSuperscript : regex :=
  Group 1 (CharSet false alnum) ;; Group 2 (Char (cu "^")) ;;
  Group 3 (Plus (CharSet false alnum)).
Definition toSuperscript : list piece :=
  [Ref 1; Text (js "^{"); Ref 3; Text (js "}")].

(** [/([A-Za-z0-9]+)\/([A-Za-z0-9]+)/g] and ['\\frac{$1}{$2}'] *)
Definition reFraction : regex :=
  Group 1 (Plus (CharSet false alnum)) ;; Char (cu "/") ;;
  Group 2 (Plus (CharSet false alnum)).
Definition toFraction : list piece :=
  [Text (js "\frac{"); Ref 1; Text (js "}{"); Ref 2; Text (js "}")].

Definition greekLetters : list (string * string) :=
  [("alpha", "α"); ("beta", "β"); ("gamma", "γ"); ("delta", "δ");
   ("epsilon", "ε"); ("zeta", "ζ"); ("eta", "η"); ("theta", "θ");
   ("iota", "ι"); ("kappa", "κ"); ("lambda", "λ"); ("mu", "μ");
   ("nu", "ν"); ("xi", "ξ"); ("omicron", "ο"); ("pi", "π");
   ("rho", "ρ"); ("sigma", "σ"); ("tau", "τ"); ("upsilon", "υ");
   ("phi", "φ"); ("chi", "χ"); ("psi", "ψ"); ("omega", "ω")].

(** [new RegExp(`\\b${name}\\b|${symbol}`, 'gi')] *)
Definition reGreek (name symbol : string) : regex :=
  Alt (WordBoundary ;; lit (js name) ;; WordBoundary) (lit (js symbol)).

(** The replacement [`\\${name}`]. *)
Definition toGreek (name : string) : list piece := [Text (js ("\" ++ name))].

(** One round of the [forEach] over the table. *)
Definition greekStep (processed : jsstring) (entry : string * string)
    : jsstring :=
  replaceAll gi (reGreek (fst entry) (snd entry)) (toGreek (fst entry))
    processed.

(** [/G\s*_?{?μν}?/g] and its siblings: a head, then an index [μν] with
    an optional underscore and optional braces. *)
Definition reTensor (head : jsstring) : regex :=
  lit head ;; Star ws ;; Opt (Char (cu "_")) ;; Opt (Char (cu "{")) ;;
  lit (js "μν") ;; Opt (Char (cu "}")).

(** [/c\s*\^?{?4}?/g] *)
Definition reC4 : regex :=
  Char (cu "c") ;; Star ws ;; Opt (Char (cu "^")) ;; Opt (Char (cu "{")) ;;
  Char (cu "4") ;; Opt (Char (cu "}")).

(** [/∇\s*\.\s*E/g] and its three siblings: [∇], an operator sign and
    a field letter, with optional white space around the sign. *)
Definition reMaxwell (sign field : string) : regex :=
  Char (cu "∇") ;; Star ws ;; Char (cu sign) ;; Star ws ;; Char (cu field).

Definition processToLatex (input : jsstring) : jsstring :=
  let processed := input in
  (* Handle subscripts (e.g., x_1 or T_μν) *)
  let processed := replaceAll g reSubscript toSubscript processed in
  (* Handle superscripts (e.g., x^2) *)
  let processed := replaceAll g reSuperscript toSuperscript processed in
  (* Handle fractions (e.g., a/b) *)
  let processed := replaceAll g reFraction toFraction processed in
  (* Handle Greek letters *)
  let processed := fold_left greekStep greekLetters processed in
  (* Einstein's field equations *)
  let processed :=
    if includes processed (js "G") && includes processed (js "μν")
       && includes processed (js "Λ")
    then
      let processed :=
        replaceAll g (reTensor (js "G")) [Text (js "G_{\mu\nu}")]
          processed in
      let processed :=
        replaceAll g (reTensor (js "Λg")) [Text (js "\Lambda g_{\mu\nu}")]
          processed in
      let processed :=
        replaceAll g (reTensor (js "T")) [Text (js "T_{\mu\nu}")]
          processed in
      let processed := replaceAll g reC4 [Text (js "c^{4}")] processed in
      replaceAll g (lit (js "8πG")) [Text (js "8\pi G")] processed
    else processed in
  (* Schrodinger equation *)
  let processed :=
    if includes processed (js "Ψ") && includes processed (js "ħ")
    then
      let processed :=
        replaceAll g (lit (js "iħ")) [Text (js "i\hbar")] processed in
      let processed :=
        replaceAll g (lit (js "∂Ψ/∂t"))
          [Text (js "\frac{\partial\Psi}{\partial t}")] processed in
      replaceAll g (lit (js "∇^2")) [Text (js "\nabla^{2}")] processed
    else processed in
  (* Maxwell's equations *)
  let processed :=
    if includes processed (js "∇")
       && (includes processed (js "E") || includes processed (js "B"))
    then
      let processed :=
        replaceAll g (reMaxwell "." "E") [Text (js "\nabla \cdot \vec{E}")]
          processed in
      let processed :=
        replaceAll g (reMaxwell "." "B") [Text (js "\nabla \cdot \vec{B}")]
          processed in
      let processed :=
        replaceAll g (reMaxwell "×" "E")
          [Text (js "\nabla \times \vec{E}")] processed in
      replaceAll g (reMaxwell "×" "B") [Text (js "\nabla \times \vec{B}")]
        processed
    else processed in
  processed.

(** *** The parts of [processToLatex], by name *)

(** Passes 1 to 3: subscripts, superscripts, fractions. *)
Definition structuralPasses (input : jsstring) : jsstring :=
  let processed := input in
  let processed := replaceAll g reSubscript toSubscript processed in
  let processed := replaceAll g reSuperscript toSuperscript processed in
  replaceAll g reFraction toFraction processed.

(** Pass 4: the [forEach] over the table. *)
Definition greekPass (processed : jsstring) : jsstring :=
  fold_left greekStep greekLetters processed.

Definition einsteinGuard (processed : jsstring) : bool :=
  includes processed (js "G") && includes processed (js "μν")
  && includes processed (js "Λ").

Definition einsteinRewrites (processed : jsstring) : jsstring :=
  let processed :=
    replaceAll g (reTensor (js "G")) [Text (js "G_{\mu\nu}")] processed in
  let processed :=
    replaceAll g (reTensor (js "Λg")) [Text (js "\Lambda g_{\mu\nu}")]
      processed in
  let processed :=
    replaceAll g (reTensor (js "T")) [Text (js "T_{\mu\nu}")] processed in
  let processed := replaceAll g reC4 [Text (js "c^{4}")] processed in
  replaceAll g (lit (js "8πG")) [Text (js "8\pi G")] processed.

Definition schrodingerGuard (processed : jsstring) : bool :=
  includes processed (js "Ψ") && includes processed (js "ħ").

Definition schrodingerRewrites (processed : jsstring) : jsstring :=
  let processed :=
    replaceAll g (lit (js "iħ")) [Text (js "i\hbar")] processed in
  let processed :=
    replaceAll g (lit (js "∂Ψ/∂t"))
      [Text (js "\frac{\partial\Psi}{\partial t}")] processed in
  replaceAll g (lit (js "∇^2")) [Text (js "\nabla^{2}")] processed.

Definition maxwellGuard (processed : jsstring) : bool :=
  includes processed (js "∇")
  && (includes processed (js "E") || includes processed (js "B")).

Definition maxwellRewrites (processed : jsstring) : jsstring :=
  let processed :=
    replaceAll g (reMaxwell "." "E") [Text (js "\nabla \cdot \vec{E}")]
      processed in
  let processed :=
    replaceAll g (reMaxwell "." "B") [Text (js "\nabla \cdot \vec{B}")]
      processed in
  let processed :=
    replaceAll g (reMaxwell "×" "E") [Text (js "\nabla \times \vec{E}")]
      processed in
  replaceAll g (reMaxwell "×" "B") [Text (js "\nabla \times \vec{B}")]
    processed.

Record patterns : Type :=
  { hasSubscripts : bool;
    hasSuperscripts : bool;
    hasFractions : bool;
    hasGreekLetters : bool;
    isEinsteinEquation : bool;
    isSchrodingerEquation : bool;
    isMaxwellEquation : bool }.

Definition anything : regex := Star Dot.               (* [.*] *)

(** [/G.*μν.*Λ.*g.*μν.*T.*μν/g] *)
Definition reEinsteinChain : regex :=
  Char (cu "G") ;; anything ;; lit (js "μν") ;; anything ;;
  Char (cu "Λ") ;; anything ;; Char (cu "g") ;; anything ;;
  lit (js "μν") ;; anything ;; Char (cu "T") ;; anything ;; lit (js "μν").

(** [/[Ψψ].*[ħh].*∇\^2/g] *)
Definition reSchrodingerChain : regex :=
  CharSet false [(cu "Ψ", cu "Ψ"); (cu "ψ", cu "ψ")] ;; anything ;;
  CharSet false [(cu "ħ", cu "ħ"); (cu "h", cu "h")] ;; anything ;;
  lit (js "∇^2").

(** [/∇.*[EB].*∇.*[EB]/g] *)
Definition reMaxwellChain : regex :=
  Char (cu "∇") ;; anything ;;
  CharSet false [(cu "E", cu "E"); (cu "B", cu "B")] ;; anything ;;
  Char (cu "∇") ;; anything ;;
  CharSet false [(cu "E", cu "E"); (cu "B", cu "B")].

Definition detectPatterns (input : jsstring) : patterns :=
  {| hasSubscripts := test g reSubscript input;
     hasSuperscripts := test g reSuperscript input;
     hasFractions := test g reFraction input;
     hasGreekLetters :=
       test g (CharSet false [(cu "α", cu "ω"); (cu "Α", cu "Ω")]) input;
     isEinsteinEquation := test g reEinsteinChain input;
     isSchrodingerEquation := test g reSchrodingerChain input;
     isMaxwellEquation := test g reMaxwellChain input |}.

End MathProcessor.

(** ** The application component ([App.tsx]) *)

Module App.

Import MathProcessor.
Local Open Scope string_scope.
Local Open Scope regex_scope.

(** The component's own copy of the rewriter: the same statements up to
    the Einstein block, and nothing after it. *)
Definition processInput (input : jsstring) : jsstring :=
  (* Basic processing rules (this is a simplified version) *)
  let processed := input in
  let processed := replaceAll g reSubscript toSubscript processed in
  let processed := replaceAll g reSuperscript toSuperscript processed in
  let processed := replaceAll g reFraction toFraction processed in
  let processed := fold_left greekStep greekLetters processed in
  (* Einstein's field equations *)
  let processed :=
    if includes processed (js "G") && includes processed (js "μν")
       && includes processed (js "Λ")
    then
      let processed :=
        replaceAll g (reTensor (js "G")) [Text (js "G_{\mu\nu}")]
          processed in
      let processed :=
        replaceAll g (reTensor (js "Λg")) [Text (js "\Lambda g_{\mu\nu}")]
          processed in
      let processed :=
        replaceAll g (reTensor (js "T")) [Text (js "T_{\mu\nu}")]
          processed in
      let processed := replaceAll g reC4 [Text (js "c^{4}")] processed in
      replaceAll g (lit (js "8πG")) [Text (js "8\pi G")] processed
    else processed in
  processed.

(** The MathML shown for the Einstein field equations, line by line. *)
Definition einsteinMathML : jsstring :=
  (concat
    (map (fun l => (js l ++ [10%N])%list)
       ["<math>";
        "  <mrow>";
        "    <msub>";
        "      <mi>G</mi>";
        "      <mrow><mi>μ</mi><mi>ν</mi></mrow>";
        "    </msub>";
        "    <mo>+</mo>";
        "    <msub>";
        "      <mi>Λ</mi><mi>g</mi>";
        "      <mrow><mi>μ</mi><mi>ν</mi></mrow>";
        "    </msub>";
        "    <mo>=</mo>";
        "    <mfrac>";
        "      <msup><mi>c</mi><mn>4</mn></msup>";
        "      <mrow><mn>8</mn><mi>π</mi><mi>G</mi></mrow>";
        "    </mfrac>";
        "    <msub>";
        "      <mi>T</mi>";
        "      <mrow><mi>μ</mi><mi>ν</mi></mrow>";
        "    </msub>";
        "  </mrow>"])
   ++ js "</math>")%list.

(** Generate MathML from LaTeX (simplified): a fixed text if the LaTeX
    holds [G_{\mu\nu}], and the LaTeX wrapped as it is otherwise. *)
Definition generateMathML (latex : jsstring) : jsstring :=
  if includes latex (js "G_{\mu\nu}") then einsteinMathML
  else (js "<math><mrow>" ++ latex ++ js "</mrow></math>")%list.

(** The effect that runs when [inputText] changes; the result is the new
    [latexOutput] and [mathmlOutput].  An empty string is falsy. *)
Definition updateOutputs (inputText : jsstring) : jsstring * jsstring :=
  match inputText with
  | _ :: _ =>
      let latex := processInput inputText in
      (latex, generateMathML latex)
  | [] => ([], [])
  end.

End App.

(** ** Vocabulary of the properties *)

Module Props.

Import MathProcessor.
Local Open Scope string_scope.

(** The code unit in front of the position reached after reading [a]. *)
Fixpoint lastOpt (p : option N) (a : jsstring) : option N :=
  match a with
  | [] => p
  | x :: a' => lastOpt (Some x) a'
  end.

(** Does the pattern consume at least one code unit whenever it matches? *)
Fixpoint nonEmpty (r : regex) : bool :=
  match r with
  | Char _ | Dot | CharSet _ _ => true
  | Seq a b => nonEmpty a || nonEmpty b
  | Alt a b => nonEmpty a && nonEmpty b
  | Plus a | Group _ a => nonEmpty a
  | Empty | WordBoundary | Star _ | Opt _ => false
  end.

(** [st'] lies [w] further in the input than [st]. *)
Definition consumed (strict : bool) (st st' : mstate) : Prop :=
  exists w, rest st = (w ++ rest st')%list /\ (strict = true -> w <> []).

(** Prefix and substring tests up to a comparison of code units, as a
    case-insensitive pattern makes them. *)
Fixpoint isPrefixBy (eq : N -> N -> bool) (w s : jsstring) : bool :=
  match w, s with
  | [], _ => true
  | _ :: _, [] => false
  | a :: w', b :: s' => eq a b && isPrefixBy eq w' s'
  end.

Fixpoint includesBy (eq : N -> N -> bool) (s w : jsstring) : bool :=
  isPrefixBy eq w s
  || match s with [] => false | _ :: s' => includesBy eq s' w end.

(** The state reached from [st] after reading the first [n] code units. *)
Definition stateAfter (st : mstate) (n : nat) : mstate :=
  {| prev := lastOpt (prev st) (firstn n (rest st));
     rest := skipn n (rest st);
     caps := caps st |}.

(** A code unit is Greek material for the rewriter when a glyph of the
    table matches it under the pattern's [i] flag: the glyph itself, its
    capital, and the few code units with the same upper case. *)
Definition isGreekGlyph (x : N) : bool :=
  existsb (fun e => isPrefixBy (charEq gi) (js (snd e)) [x]) greekLetters.

(** A Greek letter name occurs in [s], in any mix of cases. *)
Definition hasGreekName (s : jsstring) : bool :=
  existsb (fun e => includesBy (charEq gi) s (js (fst e))) greekLetters.

(** The longest prefix of code units satisfying [ok], and what follows. *)
Fixpoint run (ok : N -> bool) (s : jsstring) : jsstring :=
  match s with
  | x :: xs => if ok x then x :: run ok xs else []
  | [] => []
  end.

Fixpoint afterRun (ok : N -> bool) (s : jsstring) : jsstring :=
  match s with
  | x :: xs => if ok x then afterRun ok xs else s
  | [] => []
  end.

Definition afterRunState (ok : N -> bool) (st : mstate) : mstate :=
  {| prev := lastOpt (prev st) (run ok (rest st));
     rest := afterRun ok (rest st);
     caps := caps st |}.

Definition isLetter (x : N) : bool := inRanges x letter.
Definition isAlnum (x : N) : bool := inRanges x alnum.
Definition isSpace (x : N) : bool := inRanges x whiteSpace.

(** Where [/(p1)m(p3+)/] matches at the head of [s]: the first code unit,
    the run after the sign [m], and the rest. *)
Definition tripleAt (p1 : N -> bool) (m : N) (p3 : N -> bool) (s : jsstring)
    : option (N * jsstring * jsstring) :=
  match s with
  | a :: u :: b :: s3 =>
      if p1 a && (u =? m)%N && p3 b
      then Some (a, b :: run p3 s3, afterRun p3 s3)
      else None
  | _ => None
  end.

(** Where the fraction pattern matches at the head of [s]: numerator,
    denominator and rest. *)
Definition fractionAt (s : jsstring)
    : option (jsstring * jsstring * jsstring) :=
  match run isAlnum s, afterRun isAlnum s with
  | _ :: _, u :: b :: s3 =>
      if (u =? cu "/")%N && isAlnum b
      then Some (run isAlnum s, b :: run isAlnum s3, afterRun isAlnum s3)
      else None
  | _, _ => None
  end.

(** A reader that looks for a code unit satisfying [p1], then the sign
    [m], then a code unit satisfying [p3], one after the other: the three
    structural patterns match nowhere else.  [First]: the code unit just
    read satisfies [p1]; [Sign]: it was followed by the sign. *)
Inductive look : Type := Idle | First | Sign.

Section Triples.

Variables (p1 : N -> bool) (m : N) (p3 : N -> bool).

Definition lookStep (q : look) (c : N) : look :=
  if p1 c then First
  else match q with
       | First => if (c =? m)%N then Sign else Idle
       | _ => Idle
       end.

Definition completes (q : look) (c : N) : bool :=
  match q with Sign => p3 c | _ => false end.

Fixpoint tripleFree (q : look) (s : jsstring) : bool :=
  match s with
  | [] => true
  | c :: s' => negb (completes q c) && tripleFree (lookStep q c) s'
  end.

Definition lookRun (q : look) (s : jsstring) : look := fold_left lookStep s q.

(** What was read so far cannot be completed to a triple by [s]. *)
Definition pendingOK (q : look) (s : jsstring) : bool :=
  match q, s with
  | Sign, b :: _ => negb (p3 b)
  | First, u :: b :: _ => negb ((u =? m)%N && p3 b)
  | _, _ => true
  end.

(** A block of inserted text that cannot take part in a triple. *)
Definition inert (h : jsstring) : bool :=
  match h with
  | [] => false
  | c :: _ =>
      negb (p3 c) && negb (p1 (last h 0%N))
      && forallb (fun x => negb (x =? m)%N) h
  end.

End Triples.

(** [t] is [s] with blocks of text inserted, some of them in the place of
    one code unit of [s]. *)
Inductive Dressed (blk : jsstring -> Prop) : jsstring -> jsstring -> Prop :=
| Dressed_nil : Dressed blk [] []
| Dressed_keep (c : N) (s t : jsstring) :
    Dressed blk s t -> Dressed blk (c :: s) (c :: t)
| Dressed_insert (h s t : jsstring) :
    blk h -> Dressed blk s t -> Dressed blk s (h ++ t)%list
| Dressed_swap (c : N) (h s t : jsstring) :
    blk h -> Dressed blk s t -> Dressed blk (c :: s) (h ++ t)%list.

(** A block that no occurrence of [n] can enter or leave: neither its
    first nor its last code unit matches a code unit of [n], and [n] does
    not occur inside. *)
Definition sealed (eq : N -> N -> bool) (n h : jsstring) : bool :=
  match h with
  | [] => false
  | c :: _ =>
      negb (existsb (fun l => eq l c || eq l (last h 0%N)) n)
      && negb (includesBy eq h n)
  end.

(** The text the structural passes insert. *)
Definition brace (h : jsstring) : Prop :=
  In h [js "{"; js "}"; js "\frac{"; js "}{"].

(** What a round of the Greek-letter pass needs of its entry: a glyph of
    one code unit, a name that is not empty, and a replacement text free
    of Greek material. *)
Definition foldable (e : string * string) : bool :=
  Nat.eqb (length (js (snd e))) 1 && nonEmpty (reGreek (fst e) (snd e))
  && forallb (fun x => negb (isGreekGlyph x)) (js ("\" ++ fst e)).

(** The captures of a subscript and of a superscript match. *)
Definition subscriptCaps (a : N) (body : jsstring) : list (nat * jsstring) :=
  [(2, body); (1, [a])].

Definition superscriptCaps (a : N) (body : jsstring)
    : list (nat * jsstring) :=
  [(3, body); (2, [cu "^"]); (1, [a])].

Definition notLineTerminator (x : N) : bool :=
  negb (inRanges x lineTerminators).

(** The rest of [s] after the first occurrence of [tok]. *)
Fixpoint afterFirst (tok s : jsstring) : option jsstring :=
  if isPrefix tok s then Some (skipn (length tok) s)
  else match s with
       | [] => None
       | _ :: s' => afterFirst tok s'
       end.

(** The tokens occur in [s] one after the other, in this order. *)
Fixpoint inOrder (toks : list jsstring) (s : jsstring) : bool :=
  match toks with
  | [] => true
  | t :: ts =>
      match afterFirst t s with
      | Some s' => inOrder ts s'
      | None => false
      end
  end.

Definition einsteinTokens : list jsstring :=
  [js "G"; js "μν"; js "Λ"; js "g"; js "μν"; js "T"; js "μν"].

(** The continuation [k] accepts every state whose input is [s]. *)
Definition accepts (k : cont) (s : jsstring) : Prop :=
  forall st, rest st = s -> k st <> None.

(** Where a Maxwell pattern with the given sign and field letter matches
    at the head of [s]: what is left after the match. *)
Definition maxwellAt (sign field : N) (s : jsstring) : option jsstring :=
  match s with
  | c :: s1 =>
      if (c =? cu "∇")%N then
        match afterRun isSpace s1 with
        | d :: s2 =>
            if (d =? sign)%N then
              match afterRun isSpace s2 with
              | e :: s3 => if (e =? field)%N then Some s3 else None
              | [] => None
              end
            else None
        | [] => None
        end
      else None
  | [] => None
  end.

(** An occurrence of a divergence or curl in the text, and the LaTeX it
    is rewritten to. *)
Definition maxwellForm (sign field : N) (w1 w2 : jsstring) : jsstring :=
  (cu "∇" :: w1 ++ sign :: w2 ++ [field])%list.

Definition maxwellText (sign field : N) : jsstring :=
  (js "\nabla " ++ (if (sign =? cu ".")%N then js "\cdot" else js "\times")
   ++ js " \vec{" ++ [field] ++ js "}")%list.

(** A code unit at which no Maxwell pattern can go on. *)
Definition stops (sign field : N) (y : jsstring) : Prop :=
  match y with
  | [] => True
  | h :: _ => isSpace h = false /\ h <> sign /\ h <> field
  end.

(** A text at whose head no Maxwell pattern can go on, before a pass of
    the block and after it: empty, or starting with [∇] or a backslash. *)
Definition headStop (y : jsstring) : Prop :=
  match y with
  | [] => True
  | h :: _ => h = cu "∇" \/ h = cu "\"
  end.

(** No pattern of the Maxwell block matches at the head of [s]. *)
Definition maxwellMiss (s : jsstring) : Prop :=
  maxwellAt (cu ".") (cu "E") s = None
  /\ maxwellAt (cu ".") (cu "B") s = None
  /\ maxwellAt (cu "×") (cu "E") s = None
  /\ maxwellAt (cu "×") (cu "B") s = None.

(** The four texts the Maxwell block writes. *)
Definition maxwellBlocks : list jsstring :=
  [maxwellText (cu ".") (cu "E"); maxwellText (cu ".") (cu "B");
   maxwellText (cu "×") (cu "E"); maxwellText (cu "×") (cu "B")].

Definition maxwellBlock (h : jsstring) : Prop := In h maxwellBlocks.

(** [t] is [s] with stretches of text replaced by blocks. *)
Inductive Replaced (blk : jsstring -> Prop) : jsstring -> jsstring -> Prop :=
| Replaced_nil : Replaced blk [] []
| Replaced_keep (c : N) (s t : jsstring) :
    Replaced blk s t -> Replaced blk (c :: s) (c :: t)
| Replaced_block (w h s t : jsstring) :
    blk h -> Replaced blk s t -> Replaced blk (w ++ s)%list (h ++ t)%list.

(** A pass that never shortens the text and keeps its length only where
    it keeps the text. *)
Definition lengthens (h : jsstring -> jsstring) : Prop :=
  forall s, length s <= length (h s) /\ (length (h s) = length s -> h s = s).

(** The four replacement texts of the Maxwell block, one after the other. *)
Definition maxwellTexts : jsstring :=
  (js "\nabla \cdot \vec{E}" ++ js "\nabla \cdot \vec{B}"
   ++ js "\nabla \times \vec{E}" ++ js "\nabla \times \vec{B}")%list.

Definition isAscii (x : N) : bool := (x <? 128)%N.

(** The two ranges of the detector's [/[α-ωΑ-Ω]/]. *)
Definition detectorGreek : list (N * N) :=
  [(cu "α", cu "ω"); (cu "Α", cu "Ω")].

Definition hasGreekGlyph (s : jsstring) : bool := existsb isGreekGlyph s.

(** The Unicode blocks Greek and Coptic and Greek Extended, the micro
    sign and the combining iota subscript. *)
Definition greekBlocks : list (N * N) :=
  [(0x370, 0x3FF); (0x1F00, 0x1FFF); (0xB5, 0xB5); (0x345, 0x345)]%N.

(** A run of the case table either has no upper case among the capitals
    [Α]..[Ω] or lies inside [greekBlocks]. *)
Definition runOutsideCapitals (r : N * N * N * N) : bool :=
  let '(lo, hi, _, up) := r in
  (up + (hi - lo) <? 0x391)%N || (0x3A9 <? up)%N
  || existsb (fun b => (fst b <=? lo)%N && (hi <=? snd b)%N) greekBlocks.

(** One of the three guards of the known-equation blocks holds. *)
Definition equationTrigger (s : jsstring) : bool :=
  einsteinGuard s || schrodingerGuard s || maxwellGuard s.

Definition braces : list jsstring :=
  [js "{"; js "}"; js "\frac{"; js "}{"].

(** The inserted text is sealed against every Greek letter name and holds
    no Greek material. *)
Definition bracesSealed : bool :=
  forallb (fun e =>
    negb (Nat.eqb (length (js (fst e))) 0)
    && forallb (sealed (charEq gi) (js (fst e))) braces) greekLetters
  && forallb (fun h => negb (hasGreekGlyph h)) braces.

End Props.
Export Props.

(** ** Proof steps used throughout *)

Ltac conjs := repeat match goal with |- _ /\ _ => split end.

Ltac run := vm_compute; first [reflexivity | discriminate].

(** Side conditions of the Maxwell lemmas on concrete signs and texts. *)
Ltac maxwell_side :=
  first [ assumption | reflexivity | discriminate
        | intros C; discriminate C
        | simpl; split; [reflexivity | split; intros C; discriminate C]
        | vm_compute; intuition discriminate ].

(** A code unit at which a Maxwell pattern stops. *)
Ltac stop_side := split; [reflexivity | split; intros C; discriminate C].

Import MathProcessor App.


(** * Properties *)

(** ** The matcher consumes a prefix of the input *)

Section MatcherFacts.

Variable f : flags.

Lemma orElse_Some (a b : option mstate) (x : mstate) :
  orElse a b = Some x -> a = Some x \/ (a = None /\ b = Some x).
Proof. destruct a; simpl; intros H; [left | right]; auto. Qed.

Lemma orElse_None (a b : option mstate) :
  orElse a b = None <-> a = None /\ b = None.
Proof. destruct a; simpl; split; intros; intuition congruence. Qed.

Lemma consumed_refl (st : mstate) : consumed false st st.
Proof. exists []. split; [reflexivity | discriminate]. Qed.

Lemma consumed_trans (b1 b2 : bool) (s1 s2 s3 : mstate) :
  consumed b1 s1 s2 -> consumed b2 s2 s3 -> consumed (b1 || b2) s1 s3.
Proof.
  intros [w1 [E1 N1]] [w2 [E2 N2]]. exists (w1 ++ w2)%list. split.
  - rewrite E1, E2. now rewrite app_assoc.
  - intros H. destruct b1; simpl in H.
    + intros C. apply app_eq_nil in C. now apply N1.
    + intros C. apply app_eq_nil in C. now apply N2.
Qed.

Lemma consumed_weaken (b : bool) (s1 s2 : mstate) :
  consumed b s1 s2 -> consumed false s1 s2.
Proof. intros [w [E _]]. exists w. split; [exact E | discriminate]. Qed.

Lemma one_sound (ok : N -> bool) (st : mstate) (k : cont) (x : mstate) :
  one ok st k = Some x ->
  exists c cs, rest st = c :: cs /\ ok c = true /\ k (advance c cs st) = Some x.
Proof.
  unfold one. destruct (rest st) as [| c cs]; [discriminate |].
  destruct (ok c) eqn:E; [| discriminate]. intros H. now exists c, cs.
Qed.

Lemma one_consumed (ok : N -> bool) (st : mstate) (k : cont) (x : mstate) :
  one ok st k = Some x -> exists st', k st' = Some x /\ consumed true st st'.
Proof.
  intros H. apply one_sound in H. destruct H as [c [cs [E [_ H]]]].
  exists (advance c cs st). split; [exact H |].
  exists [c]. simpl. split; [exact E | discriminate].
Qed.

Lemma repeatMatcher_consumed (ma : mstate -> cont -> option mstate) :
  (forall st k x, ma st k = Some x ->
     exists st', k st' = Some x /\ consumed false st st') ->
  forall fuel st k x, repeatMatcher ma fuel st k = Some x ->
    exists st', k st' = Some x /\ consumed false st st'.
Proof.
  intros Hma. induction fuel as [| fuel IH]; intros st k x H; simpl in H.
  - exists st. split; [exact H | apply consumed_refl].
  - apply orElse_Some in H. destruct H as [H | [_ H]].
    + apply Hma in H. destruct H as [st1 [H C1]].
      destruct (progress st st1); [| discriminate].
      apply IH in H. destruct H as [st2 [H C2]].
      exists st2. split; [exact H |].
      exact (consumed_trans _ _ _ _ _ C1 C2).
    + exists st. split; [exact H | apply consumed_refl].
Qed.

Lemma matcher_consumed (r : regex) :
  forall st k x, matcher f r st k = Some x ->
    exists st', k st' = Some x /\ consumed (nonEmpty r) st st'.
Proof.
  induction r as [| c | | neg rs | | a IHa b IHb | a IHa b IHb | a IHa
                  | a IHa | a IHa | i a IHa]; intros st k x H; simpl in H.
  - exists st. split; [exact H | apply consumed_refl].
  - now apply one_consumed in H.
  - now apply one_consumed in H.
  - now apply one_consumed in H.
  - destruct (atWordBoundary st); [| discriminate].
    exists st. split; [exact H | apply consumed_refl].
  - apply IHa in H. destruct H as [st1 [H C1]].
    apply IHb in H. destruct H as [st2 [H C2]].
    exists st2. split; [exact H | exact (consumed_trans _ _ _ _ _ C1 C2)].
  - apply orElse_Some in H. destruct H as [H | [_ H]].
    + apply IHa in H. destruct H as [st1 [H [w [E N]]]].
      exists st1. split; [exact H |]. exists w. split; [exact E |].
      simpl. intros B. apply andb_prop in B. now apply N.
    + apply IHb in H. destruct H as [st1 [H [w [E N]]]].
      exists st1. split; [exact H |]. exists w. split; [exact E |].
      simpl. intros B. apply andb_prop in B. now apply N.
  - apply repeatMatcher_consumed in H; [exact H |].
    intros st0 k0 x0 H0. apply IHa in H0. destruct H0 as [st1 [H0 C]].
    exists st1. split; [exact H0 | exact (consumed_weaken _ _ _ C)].
  - apply IHa in H. destruct H as [st1 [H C1]].
    apply repeatMatcher_consumed in H.
    + destruct H as [st2 [H C2]]. exists st2. split; [exact H |].
      simpl. replace (nonEmpty a) with (nonEmpty a || false)
        by apply orb_false_r.
      exact (consumed_trans _ _ _ _ _ C1 C2).
    + intros st0 k0 x0 H0. apply IHa in H0. destruct H0 as [st3 [H0 C]].
      exists st3. split; [exact H0 | exact (consumed_weaken _ _ _ C)].
  - apply orElse_Some in H. destruct H as [H | [_ H]].
    + apply IHa in H. destruct H as [st1 [H C]].
      destruct (progress st st1); [| discriminate].
      exists st1. split; [exact H | exact (consumed_weaken _ _ _ C)].
    + exists st. split; [exact H | apply consumed_refl].
  - apply IHa in H. destruct H as [st1 [H [w [E N]]]].
    exists (setCap i st st1). split; [exact H |]. now exists w.
Qed.

(** The matcher asks its continuation only about positions further on. *)
Lemma one_ext (ok : N -> bool) (st : mstate) (k k' : cont) :
  (forall st', consumed false st st' -> k st' = k' st') ->
  one ok st k = one ok st k'.
Proof.
  intros H. unfold one. destruct (rest st) as [| x xs] eqn:E; [reflexivity |].
  destruct (ok x); [| reflexivity]. apply H.
  exists [x]. simpl. split; [exact E | discriminate].
Qed.

Lemma repeatMatcher_ext (ma : mstate -> cont -> option mstate) :
  (forall st k k',
     (forall st', consumed false st st' -> k st' = k' st') ->
     ma st k = ma st k') ->
  forall fuel st k k',
    (forall st', consumed false st st' -> k st' = k' st') ->
    repeatMatcher ma fuel st k = repeatMatcher ma fuel st k'.
Proof.
  intros Hma. induction fuel as [| fuel IH]; intros st k k' H; simpl.
  - apply H. apply consumed_refl.
  - rewrite (H st (consumed_refl st)). f_equal. apply Hma.
    intros st1 C1. destruct (progress st st1); [| reflexivity].
    apply IH. intros st2 C2. apply H.
    exact (consumed_trans _ _ _ _ _ C1 C2).
Qed.

Lemma matcher_ext (r : regex) :
  forall st k k',
    (forall st', consumed false st st' -> k st' = k' st') ->
    matcher f r st k = matcher f r st k'.
Proof.
  induction r as [| c | | neg rs | | a IHa b IHb | a IHa b IHb | a IHa
                  | a IHa | a IHa | i a IHa]; intros st k k' H; simpl.
  - apply H. apply consumed_refl.
  - now apply one_ext.
  - now apply one_ext.
  - now apply one_ext.
  - destruct (atWordBoundary st); [| reflexivity].
    apply H. apply consumed_refl.
  - apply IHa. intros st1 C1. apply IHb. intros st2 C2. apply H.
    exact (consumed_trans _ _ _ _ _ C1 C2).
  - now rewrite (IHa st k k' H), (IHb st k k' H).
  - now apply repeatMatcher_ext.
  - apply IHa. intros st1 C1. apply repeatMatcher_ext; [exact IHa |].
    intros st2 C2. apply H. exact (consumed_trans _ _ _ _ _ C1 C2).
  - rewrite (H st (consumed_refl st)). f_equal. apply IHa.
    intros st1 C1. destruct (progress st st1); [| reflexivity]. now apply H.
  - apply IHa. intros st1 [w [E Hw]]. apply H. exists w. now split.
Qed.

Lemma matcher_fails (r : regex) (st : mstate) :
  matcher f r st (fun _ => None) = None.
Proof.
  destruct (matcher f r st (fun _ => None)) as [x |] eqn:E; [| reflexivity].
  apply matcher_consumed in E. destruct E as [st' [E _]]. discriminate E.
Qed.

(** The fuel of a repetition is enough: more of it changes nothing. *)
Lemma repeatMatcher_fuel (a : regex) (k : cont) :
  forall n m st, length (rest st) <= n -> length (rest st) <= m ->
    repeatMatcher (matcher f a) n st k = repeatMatcher (matcher f a) m st k.
Proof.
  assert (Z : forall m st, length (rest st) = 0 ->
                repeatMatcher (matcher f a) m st k = k st).
  { intros [| m] st L; [reflexivity |]. simpl.
    rewrite (matcher_ext a st _ (fun _ => None)).
    - now rewrite matcher_fails.
    - intros st' _. unfold progress. rewrite L. reflexivity. }
  induction n as [| n IH]; intros m st Ln Lm.
  - simpl. symmetry. apply Z. lia.
  - destruct m as [| m]; [apply Z; lia |]. simpl. f_equal.
    apply matcher_ext. intros st' _. unfold progress.
    destruct (length (rest st') <? length (rest st)) eqn:P; [| reflexivity].
    apply Nat.ltb_lt in P. apply IH; lia.
Qed.

(** A successful attempt at a position splits the input there into the
    matched text and the rest. *)
Lemma matchAt_split (r : regex) (p : option N) (s : jsstring) (st : mstate) :
  matchAt f r p s = Some st ->
  exists m, s = (m ++ rest st)%list /\ (nonEmpty r = true -> m <> []).
Proof.
  unfold matchAt. intros H. apply matcher_consumed in H.
  destruct H as [st' [H [w [E N]]]]. inversion H; subst st'.
  exists w. split; [exact E | exact N].
Qed.

End MatcherFacts.

(** ** How a global replacement walks the input *)

Section ReplaceFacts.

Variables (f : flags) (r : regex) (tmpl : list piece).
Hypothesis r_nonEmpty : nonEmpty r = true.

Lemma replaceFrom_skip (a : jsstring) :
  forall p b,
    replaceFrom f r tmpl p (a ++ b) (length a)
    = replaceFrom f r tmpl (lastOpt p a) b 0.
Proof.
  induction a as [| x a IH]; intros p b; simpl.
  - destruct b; reflexivity.
  - apply IH.
Qed.

Lemma matchAt_nil (p : option N) : matchAt f r p [] = None.
Proof.
  destruct (matchAt f r p []) as [st |] eqn:E; [| reflexivity].
  apply matchAt_split in E. destruct E as [m [E N]].
  symmetry in E. apply app_eq_nil in E. destruct E as [E _].
  now apply N in E.
Qed.

Lemma replaceFrom_nil (p : option N) : replaceFrom f r tmpl p [] 0 = [].
Proof. simpl. now rewrite matchAt_nil. Qed.

Lemma replaceFrom_keep (p : option N) (c : N) (s : jsstring) :
  matchAt f r p (c :: s) = None ->
  replaceFrom f r tmpl p (c :: s) 0 = c :: replaceFrom f r tmpl (Some c) s 0.
Proof. intros H. simpl. now rewrite H. Qed.

Lemma replaceFrom_cons (p : option N) (c : N) (s : jsstring) :
  replaceFrom f r tmpl p (c :: s) 0
  = match matchAt f r p (c :: s) with
    | Some st =>
        (expand tmpl (caps st) ++
         match length (c :: s) - length (rest st) with
         | O => c :: replaceFrom f r tmpl (Some c) s 0
         | S n => replaceFrom f r tmpl (Some c) s n
         end)%list
    | None => c :: replaceFrom f r tmpl (Some c) s 0
    end.
Proof. reflexivity. Qed.

Lemma replaceFrom_match (p : option N) (m s : jsstring) (st : mstate) :
  matchAt f r p (m ++ s) = Some st -> rest st = s -> m <> [] ->
  replaceFrom f r tmpl p (m ++ s) 0
  = (expand tmpl (caps st) ++ replaceFrom f r tmpl (lastOpt p m) s 0)%list.
Proof.
  intros H E N. destruct m as [| c m]; [congruence |].
  change ((c :: m) ++ s)%list with (c :: (m ++ s)%list) in *.
  rewrite replaceFrom_cons, H, E. f_equal.
  replace (length (c :: (m ++ s)%list) - length s) with (S (length m))
    by (change (length (c :: (m ++ s)%list)) with (S (length (m ++ s)%list));
        rewrite length_app; lia).
  simpl lastOpt. apply replaceFrom_skip.
Qed.

(** Induction along the walk: a code unit is kept where no match starts,
    and a match is replaced as a whole. *)
Lemma replace_ind (Q : option N -> jsstring -> jsstring -> Prop) :
  (forall p, Q p [] []) ->
  (forall p c s,
     matchAt f r p (c :: s) = None ->
     Q (Some c) s (replaceFrom f r tmpl (Some c) s 0) ->
     Q p (c :: s) (c :: replaceFrom f r tmpl (Some c) s 0)) ->
  (forall p m s st,
     m <> [] -> matchAt f r p (m ++ s) = Some st -> rest st = s ->
     Q (lastOpt p m) s (replaceFrom f r tmpl (lastOpt p m) s 0) ->
     Q p (m ++ s)
       (expand tmpl (caps st) ++ replaceFrom f r tmpl (lastOpt p m) s 0)%list) ->
  forall s p, Q p s (replaceFrom f r tmpl p s 0).
Proof.
  intros Hnil Hkeep Hmatch s.
  assert (G : forall n s, length s <= n ->
                forall p, Q p s (replaceFrom f r tmpl p s 0)).
  { induction n as [| n IH]; intros s0 L p.
    - destruct s0; [| simpl in L; lia]. rewrite replaceFrom_nil. apply Hnil.
    - destruct s0 as [| c s0]; [rewrite replaceFrom_nil; apply Hnil |].
      destruct (matchAt f r p (c :: s0)) as [st |] eqn:E.
      + destruct (matchAt_split _ _ _ _ _ E) as [m [Es Hm]].
        specialize (Hm r_nonEmpty).
        assert (L' : length (rest st) <= n).
        { apply (f_equal (@length N)) in Es. rewrite length_app in Es.
          simpl in Es, L. destruct m; [congruence | simpl in Es; lia]. }
        rewrite Es. rewrite Es in E.
        rewrite (replaceFrom_match _ _ _ _ E eq_refl Hm).
        apply Hmatch; auto.
      + rewrite (replaceFrom_keep _ _ _ E). apply Hkeep; auto.
        apply IH. simpl in L. lia. }
  apply (G (length s)). lia.
Qed.

End ReplaceFacts.


(** ** Literal text in a pattern *)

Lemma matcher_lit (f : flags) (w : jsstring) :
  forall st k,
    matcher f (lit w) st k
    = if isPrefixBy (charEq f) w (rest st)
      then k (stateAfter st (length w)) else None.
Proof.
  induction w as [| c w IH]; intros st k.
  - simpl. unfold stateAfter. simpl. now destruct st.
  - change (lit (c :: w)) with (Seq (Char c) (lit w)).
    simpl matcher. unfold one.
    destruct (rest st) as [| x xs] eqn:E; [reflexivity |].
    simpl isPrefixBy. destruct (charEq f c x); [| reflexivity].
    rewrite IH. simpl andb. unfold stateAfter, advance. simpl. rewrite E.
    reflexivity.
Qed.

Lemma includes_In (s sub : jsstring) :
  includes s sub = true -> forall c, In c sub -> In c s.
Proof.
  assert (P : forall sub s, isPrefix sub s = true ->
                forall c, In c sub -> In c s).
  { induction sub0 as [| a sub0 IH]; intros s0 H c Hc; [contradiction |].
    destruct s0 as [| b s0]; [discriminate |]. simpl in H.
    apply andb_prop in H. destruct H as [H1 H2]. apply N.eqb_eq in H1.
    destruct Hc as [Hc | Hc]; [left; congruence | right; eauto]. }
  induction s as [| b s IH]; simpl; intros H c Hc.
  - rewrite orb_false_r in H. destruct sub; [contradiction | discriminate].
  - apply orb_prop in H. destruct H as [H | H].
    + exact (P _ _ H c Hc).
    + right. exact (IH H c Hc).
Qed.

Lemma includes_absent (s sub : jsstring) (c : N) :
  In c sub -> ~ In c s -> includes s sub = false.
Proof.
  intros Hc Hs. destruct (includes s sub) eqn:E; [| reflexivity].
  exfalso. apply Hs. exact (includes_In _ _ E c Hc).
Qed.

(** ** The Greek-letter pass *)

Section GreekStep.

Variables (name symbol : string) (sigma : N).
Hypothesis one_unit : js symbol = [sigma].
Hypothesis name_nonEmpty : nonEmpty (reGreek name symbol) = true.

(** Where no match starts, the code unit there is not the glyph. *)
Lemma greek_miss (p : option N) (c : N) (s : jsstring) :
  matchAt gi (reGreek name symbol) p (c :: s) = None ->
  charEq gi sigma c = false.
Proof.
  unfold matchAt, reGreek. simpl matcher. intros H.
  apply orElse_None in H. destruct H as [_ H].
  rewrite matcher_lit in H. rewrite one_unit in H. simpl in H.
  destruct (charEq gi sigma c); [discriminate | reflexivity].
Qed.

(** Every code unit of the result comes from the replacement text, or
    is a kept code unit of the input that the glyph does not match. *)
Lemma greekStep_chars (s : jsstring) (x : N) :
  In x (greekStep s (name, symbol)) ->
  In x (js ("\" ++ name)) \/ (In x s /\ charEq gi sigma x = false).
Proof.
  unfold greekStep, replaceAll. simpl fst. simpl snd. revert x.
  apply (replace_ind gi (reGreek name symbol) (toGreek name) name_nonEmpty
           (fun _ s o => forall x, In x o ->
              In x (js ("\" ++ name))
              \/ (In x s /\ charEq gi sigma x = false))).
  - intros _ x [].
  - intros p c s0 Hm IH x [Hx | Hx].
    + subst x. right. split; [now left | exact (greek_miss _ _ _ Hm)].
    + destruct (IH x Hx) as [H | [H1 H2]]; [now left |].
      right. split; [now right | exact H2].
  - intros p m s0 st _ _ _ IH x Hx. apply in_app_or in Hx.
    destruct Hx as [Hx | Hx].
    + left. unfold toGreek, expand in Hx. simpl in Hx.
      now rewrite app_nil_r in Hx.
    + destruct (IH x Hx) as [H | [H1 H2]]; [now left |].
      right. split; [apply in_or_app; now right | exact H2].
Qed.

End GreekStep.

Lemma greekLetters_foldable : forallb foldable greekLetters = true.
Proof. vm_compute. reflexivity. Qed.

Lemma glyph_of_table (e : string * string) (x : N) :
  In e greekLetters -> isGreekGlyph x = false ->
  isPrefixBy (charEq gi) (js (snd e)) [x] = false.
Proof.
  intros He Hx. unfold isGreekGlyph in Hx.
  destruct (isPrefixBy (charEq gi) (js (snd e)) [x]) eqn:E; [| reflexivity].
  assert (C : existsb (fun e0 => isPrefixBy (charEq gi) (js (snd e0)) [x])
                greekLetters = true).
  { apply existsb_exists. exists e. split; assumption. }
  rewrite Hx in C. discriminate C.
Qed.

(** After the rounds for the entries [l], no code unit is left that the
    glyph of an entry of [l] matches, nor one of those cleared before. *)
Lemma greekFold_clears (l : list (string * string)) :
  forall (done : list (string * string)) (s : jsstring),
    (forall e, In e (done ++ l)%list -> In e greekLetters) ->
    (forall x e, In x s -> In e done ->
       isPrefixBy (charEq gi) (js (snd e)) [x] = false) ->
    forall x e, In x (fold_left greekStep l s) -> In e (done ++ l)%list ->
      isPrefixBy (charEq gi) (js (snd e)) [x] = false.
Proof.
  induction l as [| e0 l IH]; intros done s Hl Hs x e Hx He; simpl in Hx.
  - rewrite app_nil_r in He. now apply Hs.
  - apply (IH (done ++ [e0])%list (greekStep s e0)); auto.
    + intros e1 H1. apply Hl. now rewrite <- app_assoc in H1.
    + clear x e Hx He. intros x e Hx He.
      assert (T : In e greekLetters).
      { apply Hl. apply in_app_or in He. apply in_or_app.
        destruct He as [He | [He | []]]; [now left | right; now left]. }
      assert (F : foldable e0 = true).
      { pose proof greekLetters_foldable as G.
        rewrite forallb_forall in G. apply G. apply Hl.
        apply in_or_app. right. now left. }
      unfold foldable in F. apply andb_prop in F. destruct F as [F F3].
      apply andb_prop in F. destruct F as [F1 F2].
      apply Nat.eqb_eq in F1.
      destruct e0 as [name symbol]. cbn [fst snd] in F1, F2, F3.
      destruct (js symbol) as [| sigma [| ? ?]] eqn:Es;
        [discriminate F1 | | discriminate F1].
      destruct (greekStep_chars name symbol sigma Es F2 s x Hx)
        as [H | [H1 H2]].
      * rewrite forallb_forall in F3. specialize (F3 x H).
        apply negb_true_iff in F3. now apply glyph_of_table.
      * apply in_app_or in He. destruct He as [He | [He | []]].
        -- now apply Hs.
        -- subst e. cbn [snd]. rewrite Es. simpl. now rewrite H2.
    + now rewrite <- app_assoc.
Qed.

(** No Greek material survives the Greek-letter pass. *)
Lemma greekPass_no_glyph (s : jsstring) (x : N) :
  In x (greekPass s) -> isGreekGlyph x = false.
Proof.
  intros Hx. unfold isGreekGlyph.
  destruct (existsb _ greekLetters) eqn:E; [| reflexivity].
  apply existsb_exists in E. destruct E as [e [He E]].
  pose proof (greekFold_clears greekLetters [] s (fun e0 H => H)
                (fun x0 e0 _ F => match F with end) x e Hx He) as C.
  rewrite C in E. discriminate E.
Qed.



(** ** The Einstein and Schrodinger blocks are never entered *)

Lemma glyph_absent_after_greekPass (s sub : jsstring) (c : N) :
  In c sub -> isGreekGlyph c = true ->
  includes (greekPass s) sub = false.
Proof.
  intros Hc Hg. apply (includes_absent _ _ c Hc). intros Hin.
  apply greekPass_no_glyph in Hin. congruence.
Qed.

Lemma no_mu_nu (s : jsstring) : includes (greekPass s) (js "μν") = false.
Proof.
  apply (glyph_absent_after_greekPass _ _ (cu "μ")); [now left |].
  vm_compute. reflexivity.
Qed.

Lemma no_capital_lambda (s : jsstring) :
  includes (greekPass s) (js "Λ") = false.
Proof.
  apply (glyph_absent_after_greekPass _ _ (cu "Λ")); [now left |].
  vm_compute. reflexivity.
Qed.

Lemma no_capital_psi (s : jsstring) : includes (greekPass s) (js "Ψ") = false.
Proof.
  apply (glyph_absent_after_greekPass _ _ (cu "Ψ")); [now left |].
  vm_compute. reflexivity.
Qed.

Lemma einsteinGuard_dead (s : jsstring) : einsteinGuard (greekPass s) = false.
Proof.
  unfold einsteinGuard. rewrite no_mu_nu. now rewrite andb_false_r.
Qed.

Lemma schrodingerGuard_dead (s : jsstring) :
  schrodingerGuard (greekPass s) = false.
Proof. unfold schrodingerGuard. now rewrite no_capital_psi. Qed.

(** [processToLatex] and [processInput] in terms of their named parts. *)
Lemma processToLatex_parts (input : jsstring) :
  processToLatex input
  = let processed := greekPass (structuralPasses input) in
    let processed :=
      if einsteinGuard processed then einsteinRewrites processed
      else processed in
    let processed :=
      if schrodingerGuard processed then schrodingerRewrites processed
      else processed in
    if maxwellGuard processed then maxwellRewrites processed else processed.
Proof. reflexivity. Qed.

Lemma processInput_parts (input : jsstring) :
  processInput input
  = let processed := greekPass (structuralPasses input) in
    if einsteinGuard processed then einsteinRewrites processed
    else processed.
Proof. reflexivity. Qed.

(** Only the Maxwell block can act on the text after the Greek pass. *)
Lemma processToLatex_maxwell (input : jsstring) :
  processToLatex input
  = if maxwellGuard (greekPass (structuralPasses input))
    then maxwellRewrites (greekPass (structuralPasses input))
    else greekPass (structuralPasses input).
Proof.
  rewrite processToLatex_parts. cbv zeta.
  now rewrite einsteinGuard_dead, schrodingerGuard_dead.
Qed.

Lemma processInput_passes (input : jsstring) :
  processInput input = greekPass (structuralPasses input).
Proof.
  rewrite processInput_parts. cbv zeta. now rewrite einsteinGuard_dead.
Qed.

(** C2: after the Greek-letter pass the text holds no [μν], no [Λ] and no
    [Ψ]; the guards of the Einstein and of the Schrodinger block are
    therefore false on every input, and the output is the text after the
    Greek-letter pass, rewritten by the Maxwell block if its guard holds. *)
Theorem einstein_schrodinger_blocks_dead (input : jsstring) :
  let processed := greekPass (structuralPasses input) in
  includes processed (js "μν") = false
  /\ includes processed (js "Λ") = false
  /\ includes processed (js "Ψ") = false
  /\ einsteinGuard processed = false
  /\ schrodingerGuard processed = false
  /\ processToLatex input
     = if maxwellGuard processed then maxwellRewrites processed
       else processed.
Proof.
  intros processed. unfold processed.
  repeat split.
  - apply no_mu_nu.
  - apply no_capital_lambda.
  - apply no_capital_psi.
  - apply einsteinGuard_dead.
  - apply schrodingerGuard_dead.
  - apply processToLatex_maxwell.
Qed.


(** ** Greedy runs of a character class *)

Lemma run_afterRun (ok : N -> bool) (s : jsstring) :
  s = (run ok s ++ afterRun ok s)%list.
Proof.
  induction s as [| x s IH]; simpl; [reflexivity |].
  destruct (ok x); simpl; [now rewrite <- IH | reflexivity].
Qed.

Lemma afterRun_head (ok : N -> bool) (s : jsstring) (x : N) (xs : jsstring) :
  afterRun ok s = x :: xs -> ok x = false.
Proof.
  induction s as [| y s IH]; simpl; [discriminate |].
  destruct (ok y) eqn:E; [exact IH |]. intros H. now inversion H; subst.
Qed.

Lemma run_all (ok : N -> bool) (s : jsstring) : forallb ok (run ok s) = true.
Proof.
  induction s as [| y s IH]; simpl; [reflexivity |].
  destruct (ok y) eqn:E; simpl; [now rewrite E | reflexivity].
Qed.

Lemma afterRunState_stop (ok : N -> bool) (st : mstate) :
  match rest st with x :: _ => ok x = false | [] => True end ->
  afterRunState ok st = st.
Proof.
  unfold afterRunState. destruct st as [p s c]. simpl.
  destruct s as [| x xs]; simpl; [reflexivity |]. now intros ->.
Qed.

Lemma afterRunState_step (ok : N -> bool) (st : mstate) (x : N)
    (xs : jsstring) :
  rest st = x :: xs -> ok x = true ->
  afterRunState ok (advance x xs st) = afterRunState ok st.
Proof.
  intros E H. unfold afterRunState, advance. simpl. rewrite E. simpl.
  now rewrite H.
Qed.

(** The first attempt of a greedy repetition is the longest run: if the
    continuation accepts there, that is the result. *)
Lemma repeat_one_first (ok : N -> bool) (k : cont) (x : mstate) :
  forall fuel st, length (rest st) <= fuel ->
    k (afterRunState ok st) = Some x ->
    repeatMatcher (one ok) fuel st k = Some x.
Proof.
  induction fuel as [| fuel IH]; intros st L H.
  - simpl. rewrite afterRunState_stop in H; [exact H |].
    destruct (rest st); [exact I | simpl in L; lia].
  - simpl. unfold one at 1. destruct (rest st) as [| c cs] eqn:E.
    + simpl. rewrite afterRunState_stop in H; [exact H | now rewrite E].
    + destruct (ok c) eqn:Ec.
      * unfold progress. simpl. rewrite E. simpl.
        replace (length cs <? S (length cs)) with true
          by (symmetry; apply Nat.ltb_lt; lia).
        rewrite (IH (advance c cs st)); [reflexivity | |].
        -- simpl. simpl in L. lia.
        -- now rewrite (afterRunState_step ok st c cs E Ec).
      * simpl. rewrite afterRunState_stop in H; [exact H |].
        now rewrite E.
Qed.

(** If the continuation rejects every position in front of which the run
    could still go on, only the longest run is left to it. *)
Lemma repeat_one_commit (ok : N -> bool) (k : cont) :
  (forall st x xs, rest st = x :: xs -> ok x = true -> k st = None) ->
  forall fuel st, length (rest st) <= fuel ->
    repeatMatcher (one ok) fuel st k = k (afterRunState ok st).
Proof.
  intros Hk. induction fuel as [| fuel IH]; intros st L.
  - simpl. rewrite afterRunState_stop; [reflexivity |].
    destruct (rest st); [exact I | simpl in L; lia].
  - simpl. unfold one at 1. destruct (rest st) as [| c cs] eqn:E.
    + simpl. rewrite afterRunState_stop; [reflexivity | now rewrite E].
    + destruct (ok c) eqn:Ec.
      * unfold progress. simpl. rewrite E. simpl.
        replace (length cs <? S (length cs)) with true
          by (symmetry; apply Nat.ltb_lt; lia).
        rewrite (IH (advance c cs st)) by (simpl; simpl in L; lia).
        rewrite (afterRunState_step ok st c cs E Ec).
        rewrite (Hk st c cs E Ec).
        now destruct (k (afterRunState ok st)).
      * simpl. rewrite afterRunState_stop; [reflexivity | now rewrite E].
Qed.

Lemma firstn_consumed (m r : jsstring) :
  firstn (length (m ++ r) - length r) (m ++ r)%list = m.
Proof.
  rewrite length_app. replace (length m + length r - length r) with (length m) by lia.
  rewrite firstn_app, Nat.sub_diag. simpl. rewrite app_nil_r.
  apply firstn_all.
Qed.

(** ** Where the three structural patterns match *)

Lemma one_cons (ok : N -> bool) (p : option N) (x : N) (xs : jsstring)
    (cs : list (nat * jsstring)) (k : cont) :
  one ok {| prev := p; rest := x :: xs; caps := cs |} k
  = if ok x then k {| prev := Some x; rest := xs; caps := cs |} else None.
Proof. reflexivity. Qed.

Lemma one_nil (ok : N -> bool) (p : option N) (cs : list (nat * jsstring))
    (k : cont) :
  one ok {| prev := p; rest := []; caps := cs |} k = None.
Proof. reflexivity. Qed.

Lemma setCap_consumed (i : nat) (m r : jsstring) (p0 p1 : option N)
    (c0 c1 : list (nat * jsstring)) :
  setCap i {| prev := p0; rest := (m ++ r)%list; caps := c0 |}
    {| prev := p1; rest := r; caps := c1 |}
  = {| prev := p1; rest := r; caps := (i, m) :: c1 |}.
Proof. unfold setCap. simpl. now rewrite firstn_consumed. Qed.

Lemma matchAt_subscript (p : option N) (s : jsstring) :
  matchAt g reSubscript p s
  = match tripleAt isLetter (cu "_") isAlnum s with
    | Some (a, body, r) =>
        Some {| prev := lastOpt p (a :: cu "_" :: body); rest := r;
                caps := [(2, body); (1, [a])] |}
    | None => None
    end.
Proof.
  unfold matchAt, reSubscript, tripleAt.
  cbn [matcher].
  change (fun x : N => xorb false (inClass g letter x)) with isLetter.
  change (fun x : N => xorb false (inClass g alnum x)) with isAlnum.
  change (charEq g (cu "_")) with (N.eqb (cu "_")).
  change (fun (st : mstate) (k : cont) => one isAlnum st k) with (one isAlnum).
  destruct s as [| a s1]; [reflexivity |]. rewrite one_cons.
  destruct (isLetter a); [| now destruct s1 as [| ? [| ? ?]]].
  rewrite (setCap_consumed 1 [a] s1).
  destruct s1 as [| u s2]; [reflexivity |]. rewrite one_cons.
  rewrite (N.eqb_sym u). destruct (cu "_" =? u)%N eqn:Eu;
    [| now destruct s2].
  apply N.eqb_eq in Eu. subst u.
  destruct s2 as [| b s3]; [reflexivity |]. rewrite one_cons.
  destruct (isAlnum b); [| reflexivity]. cbn [andb rest].
  erewrite repeat_one_first; [reflexivity | cbn [rest]; lia |].
  unfold afterRunState. cbn [prev rest caps].
  rewrite (run_afterRun isAlnum s3) at 1.
  rewrite (setCap_consumed 2 (b :: run isAlnum s3) (afterRun isAlnum s3)).
  reflexivity.
Qed.

Lemma matchAt_superscript (p : option N) (s : jsstring) :
  matchAt g reSuperscript p s
  = match tripleAt isAlnum (cu "^") isAlnum s with
    | Some (a, body, r) =>
        Some {| prev := lastOpt p (a :: cu "^" :: body); rest := r;
                caps := [(3, body); (2, [cu "^"]); (1, [a])] |}
    | None => None
    end.
Proof.
  unfold matchAt, reSuperscript, tripleAt.
  cbn [matcher].
  change (fun x : N => xorb false (inClass g alnum x)) with isAlnum.
  change (charEq g (cu "^")) with (N.eqb (cu "^")).
  change (fun (st : mstate) (k : cont) => one isAlnum st k) with (one isAlnum).
  destruct s as [| a s1]; [reflexivity |]. rewrite one_cons.
  destruct (isAlnum a); [| now destruct s1 as [| ? [| ? ?]]].
  rewrite (setCap_consumed 1 [a] s1).
  destruct s1 as [| u s2]; [reflexivity |]. rewrite one_cons.
  rewrite (N.eqb_sym u). destruct (cu "^" =? u)%N eqn:Eu;
    [| now destruct s2].
  apply N.eqb_eq in Eu. subst u.
  rewrite (setCap_consumed 2 [cu "^"] s2).
  destruct s2 as [| b s3]; [reflexivity |]. rewrite one_cons.
  destruct (isAlnum b); [| reflexivity]. cbn [andb rest].
  erewrite repeat_one_first; [reflexivity | cbn [rest]; lia |].
  unfold afterRunState. cbn [prev rest caps].
  rewrite (run_afterRun isAlnum s3) at 1.
  rewrite (setCap_consumed 3 (b :: run isAlnum s3) (afterRun isAlnum s3)).
  reflexivity.
Qed.

Lemma lastOpt_app (a b : jsstring) :
  forall p, lastOpt p (a ++ b) = lastOpt (lastOpt p a) b.
Proof. induction a as [| x a IH]; intros p; simpl; [reflexivity | apply IH]. Qed.

Lemma slash_not_alnum (c : N) : isAlnum c = true -> (cu "/" =? c)%N = false.
Proof.
  intros H. apply N.eqb_neq. intros E. subst c. vm_compute in H.
  discriminate.
Qed.

Lemma matchAt_fraction (p : option N) (s : jsstring) :
  matchAt g reFraction p s
  = match fractionAt s with
    | Some (num, den, r) =>
        Some {| prev := lastOpt p (num ++ cu "/" :: den); rest := r;
                caps := [(2, den); (1, num)] |}
    | None => None
    end.
Proof.
  unfold matchAt, reFraction, fractionAt.
  cbn [matcher].
  change (fun x : N => xorb false (inClass g alnum x)) with isAlnum.
  change (charEq g (cu "/")) with (N.eqb (cu "/")).
  change (fun (st : mstate) (k : cont) => one isAlnum st k) with (one isAlnum).
  destruct s as [| a s1]; [reflexivity |]. rewrite one_cons.
  cbn [run afterRun].
  destruct (isAlnum a); [| reflexivity].
  rewrite repeat_one_commit; [| | cbn [rest]; lia].
  2:{ intros st x xs E Hx. unfold one. cbn [setCap rest]. rewrite E.
      now rewrite (slash_not_alnum x Hx). }
  unfold afterRunState. cbn [prev rest caps].
  rewrite (run_afterRun isAlnum s1) at 1.
  rewrite (setCap_consumed 1 (a :: run isAlnum s1) (afterRun isAlnum s1)).
  destruct (afterRun isAlnum s1) as [| u s2]; [reflexivity |].
  rewrite one_cons. rewrite (N.eqb_sym u).
  destruct (cu "/" =? u)%N eqn:Eu; [| now destruct s2].
  apply N.eqb_eq in Eu. subst u.
  destruct s2 as [| b s3]; [reflexivity |]. rewrite one_cons.
  destruct (isAlnum b); [| reflexivity]. cbn [andb rest].
  erewrite repeat_one_first; [reflexivity | cbn [rest]; lia |].
  unfold afterRunState. cbn [prev rest caps].
  rewrite (run_afterRun isAlnum s3) at 1.
  rewrite (setCap_consumed 2 (b :: run isAlnum s3) (afterRun isAlnum s3)).
  rewrite lastOpt_app. reflexivity.
Qed.

(** None of the three patterns looks behind the position it starts at, so
    the replacement does not depend on the code unit in front. *)
Lemma replaceFrom_prev (f : flags) (r : regex) (tmpl : list piece) :
  (forall p p' s,
     match matchAt f r p s, matchAt f r p' s with
     | Some st, Some st' => rest st = rest st' /\ caps st = caps st'
     | None, None => True
     | _, _ => False
     end) ->
  forall s p p' skip,
    replaceFrom f r tmpl p s skip = replaceFrom f r tmpl p' s skip.
Proof.
  intros H. induction s as [| c s IH]; intros p p' skip.
  - simpl. destruct skip; [| reflexivity]. specialize (H p p' []).
    destruct (matchAt f r p []), (matchAt f r p' []); try contradiction;
      [| reflexivity].
    destruct H as [_ H]. now rewrite H.
  - simpl. destruct skip; [| apply IH]. specialize (H p p' (c :: s)).
    destruct (matchAt f r p (c :: s)), (matchAt f r p' (c :: s));
      try contradiction; [| reflexivity].
    destruct H as [H1 H2]. now rewrite H1, H2.
Qed.


(** ** Triples of a letter, a sign and a letter *)

Section TripleFacts.

Variables (p1 : N -> bool) (m : N) (p3 : N -> bool).
Hypothesis sign_not_p1 : p1 m = false.

Lemma tripleFree_idle (s : jsstring) :
  forall q, tripleFree p1 m p3 q s = true -> tripleFree p1 m p3 Idle s = true.
Proof.
  induction s as [| c s IH]; intros q H; [reflexivity |].
  simpl in *. apply andb_prop in H. destruct H as [_ H].
  unfold lookStep in *. destruct (p1 c); [exact H |].
  destruct q; try exact H. destruct (c =? m)%N; [| exact H].
  exact (IH _ H).
Qed.

Lemma tripleFree_app (a b : jsstring) :
  forall q, tripleFree p1 m p3 q (a ++ b) = true ->
    tripleFree p1 m p3 q a = true /\ tripleFree p1 m p3 (lookRun p1 m q a) b = true.
Proof.
  induction a as [| c a IH]; intros q H; simpl in *; [now split |].
  apply andb_prop in H. destruct H as [H1 H2].
  destruct (IH _ H2) as [H3 H4]. rewrite H1, H3. now split.
Qed.

(** An inert block is read without harm, and nothing is pending after. *)
Lemma lookRun_inert_tail (h : jsstring) :
  forall q c, p1 c = false -> (c =? m)%N = false ->
    forallb (fun x => negb (x =? m)%N) h = true ->
    lookRun p1 m q (h ++ [c]) = Idle.
Proof.
  induction h as [| x h IH]; intros q c Hc Hm Hh; simpl in *.
  - unfold lookStep. rewrite Hc, Hm. now destruct q.
  - apply andb_prop in Hh. destruct Hh as [_ Hh]. now apply IH.
Qed.

Lemma tripleFree_no_sign (h : jsstring) :
  forall q, q <> Sign ->
    forallb (fun x => negb (x =? m)%N) h = true ->
    forall y, tripleFree p1 m p3 q (h ++ y) = tripleFree p1 m p3 (lookRun p1 m q h) y.
Proof.
  induction h as [| x h IH]; intros q Hq Hh y; simpl in *; [reflexivity |].
  apply andb_prop in Hh. destruct Hh as [Hx Hh].
  apply negb_true_iff in Hx.
  replace (completes p3 q x) with false by (now destruct q).
  simpl. apply IH; [| exact Hh].
  unfold lookStep. destruct (p1 x); [discriminate |].
  destruct q; try discriminate. now rewrite Hx.
Qed.

Lemma inert_last (h : jsstring) (c : N) :
  inert p1 m p3 (h ++ [c]) = true ->
  p1 c = false /\ (c =? m)%N = false
  /\ forallb (fun x => negb (x =? m)%N) h = true.
Proof.
  unfold inert. destruct (h ++ [c])%list as [| x l] eqn:E.
  - discriminate.
  - rewrite <- E. rewrite last_last. rewrite forallb_app. simpl.
    intros H. apply andb_prop in H. destruct H as [H H3].
    apply andb_prop in H. destruct H as [_ H2].
    apply andb_prop in H3. destruct H3 as [H3 H4].
    rewrite andb_true_r in H4.
    apply negb_true_iff in H2, H4. auto.
Qed.

Lemma inert_intro (c z : N) (mid : jsstring) :
  p3 c = false -> p1 z = false ->
  forallb (fun x => negb (x =? m)%N) (c :: mid ++ [z]) = true ->
  inert p1 m p3 (c :: mid ++ [z]) = true.
Proof.
  intros H3 H1 Hall. unfold inert.
  change (c :: mid ++ [z])%list with ((c :: mid) ++ [z])%list.
  rewrite last_last. change ((c :: mid) ++ [z])%list with (c :: mid ++ [z])%list.
  now rewrite H3, H1, Hall.
Qed.

Lemma tripleFree_inert (h : jsstring) (q : look) (y : jsstring) :
  inert p1 m p3 h = true -> tripleFree p1 m p3 q (h ++ y) = tripleFree p1 m p3 Idle y.
Proof.
  intros H.
  destruct h as [| x h]; [discriminate |].
  assert (Hx : p3 x = false).
  { unfold inert in H. apply andb_prop in H. destruct H as [H _].
    apply andb_prop in H. destruct H as [H _]. now apply negb_true_iff. }
  destruct (exists_last (l := x :: h)) as [h' [c E]]; [discriminate |].
  rewrite E in H. apply inert_last in H. destruct H as [H1 [H2 H3]].
  assert (Hall : forallb (fun z => negb (z =? m)%N) (x :: h) = true).
  { rewrite E, forallb_app. rewrite H3. simpl. now rewrite H2. }
  assert (Hrun : forall q0, lookRun p1 m q0 (x :: h) = Idle).
  { intros q0. rewrite E. now apply lookRun_inert_tail. }
  simpl app. simpl tripleFree.
  replace (completes p3 q x) with false
    by (destruct q; simpl; auto).
  simpl negb. simpl andb. simpl in Hall. apply andb_prop in Hall.
  destruct Hall as [Hxm Hh]. apply negb_true_iff in Hxm.
  rewrite tripleFree_no_sign; [| | exact Hh].
  - change (lookRun p1 m (lookStep p1 m q x) h)
      with (lookRun p1 m q (x :: h)).
    now rewrite Hrun.
  - unfold lookStep. destruct (p1 x); [discriminate |].
    destruct q; try discriminate. now rewrite Hxm.
Qed.

(** Inserting inert blocks creates no triple. *)
Lemma Dressed_tripleFree (blk : jsstring -> Prop) (s t : jsstring) :
  (forall h, blk h -> inert p1 m p3 h = true) ->
  Dressed blk s t ->
  forall q, tripleFree p1 m p3 q s = true -> tripleFree p1 m p3 q t = true.
Proof.
  intros Hblk D. induction D as [| c s t D IH | h s t Hh D IH
                                | c h s t Hh D IH]; intros q H.
  - reflexivity.
  - simpl in *. apply andb_prop in H. destruct H as [H1 H2].
    rewrite H1. simpl. now apply IH.
  - rewrite (tripleFree_inert h q t (Hblk h Hh)).
    apply IH. exact (tripleFree_idle _ _ H).
  - rewrite (tripleFree_inert h q t (Hblk h Hh)).
    apply IH. simpl in H. apply andb_prop in H. destruct H as [_ H].
    exact (tripleFree_idle _ _ H).
Qed.

End TripleFacts.


(** ** Occurrences of a word in a text with inserted blocks *)

Lemma Dressed_refl (blk : jsstring -> Prop) (s : jsstring) : Dressed blk s s.
Proof. induction s; constructor; auto. Qed.

Lemma Dressed_app (blk : jsstring -> Prop) (s t s' t' : jsstring) :
  Dressed blk s t -> Dressed blk s' t' -> Dressed blk (s ++ s') (t ++ t').
Proof.
  intros D D'. induction D; simpl; auto.
  - now constructor.
  - rewrite <- app_assoc. now constructor.
  - rewrite <- app_assoc. now constructor.
Qed.

Lemma Dressed_In (blk : jsstring -> Prop) (s t : jsstring) (x : N) :
  Dressed blk s t -> In x t -> In x s \/ exists h, blk h /\ In x h.
Proof.
  intros D. induction D as [| c s t D IH | h s t Hh D IH | c h s t Hh D IH];
    intros Hx.
  - contradiction.
  - destruct Hx as [Hx | Hx]; [left; now left |].
    destruct (IH Hx) as [H | H]; [left; now right | now right].
  - apply in_app_or in Hx. destruct Hx as [Hx | Hx].
    + right. now exists h.
    + now apply IH.
  - apply in_app_or in Hx. destruct Hx as [Hx | Hx].
    + right. now exists h.
    + destruct (IH Hx) as [H | H]; [left; now right | now right].
Qed.

Lemma last_skip (h1 h2 : jsstring) (d : N) :
  h2 <> [] -> last (h1 ++ h2) d = last h2 d.
Proof.
  intros H. induction h1 as [| x h1 IH]; [reflexivity |].
  simpl app. rewrite <- IH. simpl.
  destruct (h1 ++ h2)%list eqn:E; [| reflexivity].
  apply app_eq_nil in E. destruct E as [_ E]. contradiction.
Qed.

Section Occurrences.

Variables (eq : N -> N -> bool) (n : jsstring).

Lemma includesBy_cons (c : N) (s : jsstring) :
  includesBy eq s n = true -> includesBy eq (c :: s) n = true.
Proof. intros H. simpl. rewrite H. apply orb_true_r. Qed.

Lemma includesBy_prefix (s : jsstring) :
  isPrefixBy eq n s = true -> includesBy eq s n = true.
Proof. intros H. destruct s; simpl; rewrite H; reflexivity. Qed.

(** A word that starts in front of a block either ends inside the block
    or covers all of it. *)
Lemma isPrefixBy_app (w h t : jsstring) :
  isPrefixBy eq w (h ++ t) = true ->
  isPrefixBy eq w h = true
  \/ forall c, In c h -> exists l, In l w /\ eq l c = true.
Proof.
  revert h. induction w as [| l w IH]; intros h H.
  - left. reflexivity.
  - destruct h as [| c h].
    + right. intros c [].
    + simpl in H. apply andb_prop in H. destruct H as [H1 H2].
      destruct (IH h H2) as [H | H].
      * left. simpl. now rewrite H1, H.
      * right. intros c0 [Hc | Hc].
        -- subst c0. exists l. split; [now left | exact H1].
        -- destruct (H c0 Hc) as [l0 [Hl0 He]]. exists l0.
           split; [now right | exact He].
Qed.

Lemma sealed_first (h : jsstring) (c : N) (h' : jsstring) (l : N) :
  sealed eq n h = true -> h = c :: h' -> In l n -> eq l c = false.
Proof.
  intros S E Hl. subst h. unfold sealed in S.
  apply andb_prop in S. destruct S as [S _]. apply negb_true_iff in S.
  destruct (eq l c) eqn:El; [| reflexivity].
  assert (C : existsb (fun l0 => eq l0 c || eq l0 (last (c :: h') 0%N)) n
              = true).
  { apply existsb_exists. exists l. split; [exact Hl |]. now rewrite El. }
  congruence.
Qed.

Lemma sealed_last (h : jsstring) (l : N) :
  sealed eq n h = true -> In l n -> eq l (last h 0%N) = false.
Proof.
  intros S Hl. unfold sealed in S. destruct h as [| c h']; [discriminate |].
  apply andb_prop in S. destruct S as [S _]. apply negb_true_iff in S.
  destruct (eq l (last (c :: h') 0%N)) eqn:El; [| reflexivity].
  assert (C : existsb (fun l0 => eq l0 c || eq l0 (last (c :: h') 0%N)) n
              = true).
  { apply existsb_exists. exists l. split; [exact Hl |].
    rewrite El. apply orb_true_r. }
  congruence.
Qed.

Lemma sealed_inside (h : jsstring) :
  sealed eq n h = true -> includesBy eq h n = false.
Proof.
  unfold sealed. destruct h; [discriminate |]. intros S.
  apply andb_prop in S. destruct S as [_ S]. now apply negb_true_iff.
Qed.

Lemma last_In (h : jsstring) : h <> [] -> In (last h 0%N) h.
Proof.
  intros H. destruct (exists_last H) as [h' [c E]]. subst h.
  rewrite last_last. apply in_or_app. right. now left.
Qed.

(** An occurrence in a sealed block followed by [t] lies in [t]. *)
Lemma includesBy_sealed (h t : jsstring) :
  n <> [] -> sealed eq n h = true ->
  includesBy eq (h ++ t) n = true -> includesBy eq t n = true.
Proof.
  intros Hn S H.
  assert (G : forall h1 h2, h = (h1 ++ h2)%list ->
                includesBy eq (h2 ++ t) n = true ->
                includesBy eq t n = true).
  { intros h1 h2. revert h1. induction h2 as [| c h2 IH]; intros h1 E H2.
    - exact H2.
    - simpl in H2. apply orb_prop in H2. destruct H2 as [H2 | H2].
      + exfalso.
        change (c :: (h2 ++ t)%list) with ((c :: h2) ++ t)%list in H2.
        apply isPrefixBy_app in H2. destruct H2 as [H2 | H2].
        * assert (I : includesBy eq h n = true).
          { rewrite E. clear - H2. induction h1 as [| x h1 IH1].
            - now apply includesBy_prefix.
            - simpl app. now apply includesBy_cons. }
          rewrite (sealed_inside h S) in I. discriminate.
        * assert (L : In (last h 0%N) (c :: h2)).
          { rewrite E. rewrite last_skip by discriminate.
            now apply last_In. }
          destruct (H2 _ L) as [l [Hl El]].
          rewrite (sealed_last h l S Hl) in El. discriminate.
      + apply (IH (h1 ++ [c])%list); [| exact H2].
        rewrite <- app_assoc. exact E. }
  exact (G [] h eq_refl H).
Qed.

Variable blk : jsstring -> Prop.
Hypothesis blk_sealed : forall h, blk h -> sealed eq n h = true.

Lemma Dressed_prefix (s t : jsstring) :
  Dressed blk s t ->
  forall w, incl w n -> isPrefixBy eq w t = true -> isPrefixBy eq w s = true.
Proof.
  intros D. induction D as [| c s t D IH | h s t Hh D IH | c h s t Hh D IH];
    intros w Hw H.
  - exact H.
  - destruct w as [| l w]; [reflexivity |]. simpl in *.
    apply andb_prop in H. destruct H as [H1 H2]. rewrite H1. simpl.
    apply IH; [| exact H2]. intros x Hx. apply Hw. now right.
  - destruct w as [| l w]; [reflexivity |]. exfalso.
    pose proof (blk_sealed h Hh) as S.
    destruct h as [| c h']; [discriminate |]. simpl in H.
    apply andb_prop in H. destruct H as [H1 _].
    rewrite (sealed_first _ c h' l S eq_refl) in H1; [discriminate |].
    apply Hw. now left.
  - destruct w as [| l w]; [reflexivity |]. exfalso.
    pose proof (blk_sealed h Hh) as S.
    destruct h as [| c' h']; [discriminate |]. simpl in H.
    apply andb_prop in H. destruct H as [H1 _].
    rewrite (sealed_first _ c' h' l S eq_refl) in H1; [discriminate |].
    apply Hw. now left.
Qed.

(** Inserting sealed blocks creates no occurrence of the word. *)
Lemma Dressed_includes (s t : jsstring) :
  n <> [] -> Dressed blk s t ->
  includesBy eq t n = true -> includesBy eq s n = true.
Proof.
  intros Hn D. induction D as [| c s t D IH | h s t Hh D IH
                              | c h s t Hh D IH]; intros H.
  - exact H.
  - simpl in H. apply orb_prop in H. destruct H as [H | H].
    + apply includesBy_prefix.
      apply (Dressed_prefix (c :: s) (c :: t)); [now constructor | | exact H].
      intros x Hx. exact Hx.
    + apply includesBy_cons. now apply IH.
  - apply IH. exact (includesBy_sealed h t Hn (blk_sealed h Hh) H).
  - apply includesBy_cons. apply IH.
    exact (includesBy_sealed h t Hn (blk_sealed h Hh) H).
Qed.

End Occurrences.


(** ** The subscript and the superscript pass, treated together *)

Section TriplePass.

Variables (r : regex) (tmpl : list piece) (p1 : N -> bool) (m : N).
Variable capsOf : N -> jsstring -> list (nat * jsstring).

Hypothesis r_matches : forall p s,
  matchAt g r p s
  = match tripleAt p1 m isAlnum s with
    | Some (a, body, rr) =>
        Some {| prev := lastOpt p (a :: m :: body); rest := rr;
                caps := capsOf a body |}
    | None => None
    end.
Hypothesis r_expands : forall a body,
  expand tmpl (capsOf a body) = a :: m :: cu "{" :: (body ++ [cu "}"])%list.
Hypothesis r_nonEmpty : nonEmpty r = true.
Hypothesis p1_alnum : forall c, p1 c = true -> isAlnum c = true.
Hypothesis sign_not_alnum : isAlnum m = false.
Hypothesis sign_not_brace : (cu "{" =? m)%N = false /\ (cu "}" =? m)%N = false.

Lemma triple_prev (s : jsstring) (p p' : option N) (skip : nat) :
  replaceFrom g r tmpl p s skip = replaceFrom g r tmpl p' s skip.
Proof.
  apply replaceFrom_prev. intros q q' s0. rewrite !r_matches.
  destruct (tripleAt p1 m isAlnum s0) as [[[a body] rr] |]; simpl; auto.
Qed.

Lemma triple_pass_ind (Q : jsstring -> jsstring -> Prop) :
  Q [] [] ->
  (forall c s,
     tripleAt p1 m isAlnum (c :: s) = None ->
     Q s (replaceAll g r tmpl s) ->
     Q (c :: s) (c :: replaceAll g r tmpl s)) ->
  (forall a b s3,
     p1 a = true -> isAlnum b = true ->
     Q (afterRun isAlnum s3) (replaceAll g r tmpl (afterRun isAlnum s3)) ->
     Q (a :: m :: b :: s3)
       (a :: m :: cu "{" :: b :: run isAlnum s3 ++
        cu "}" :: replaceAll g r tmpl (afterRun isAlnum s3))%list) ->
  forall s, Q s (replaceAll g r tmpl s).
Proof.
  intros Hnil Hkeep Hmatch s. unfold replaceAll in *.
  apply (replace_ind g r tmpl r_nonEmpty (fun _ s o => Q s o)).
  - intros _. exact Hnil.
  - intros p c s0 E IH. rewrite (triple_prev s0 (Some c) None).
    rewrite (triple_prev s0 (Some c) None) in IH.
    apply Hkeep; [| exact IH].
    rewrite r_matches in E.
    destruct (tripleAt p1 m isAlnum (c :: s0)) as [[[a body] rr] |];
      [discriminate | reflexivity].
  - intros p w s0 st _ E Er IH.
    rewrite (triple_prev s0 _ None). rewrite (triple_prev s0 _ None) in IH.
    rewrite r_matches in E.
    destruct (tripleAt p1 m isAlnum (w ++ s0)) as [[[a body] rr] |] eqn:T;
      [| discriminate].
    inversion E; subst st; clear E. cbn [rest caps] in *. subst rr.
    unfold tripleAt in T.
    destruct (w ++ s0)%list as [| a' [| u [| b s3]]]; try discriminate.
    destruct (p1 a') eqn:Ea; [| discriminate].
    destruct (u =? m)%N eqn:Eu; [| discriminate].
    destruct (isAlnum b) eqn:Eb; [| discriminate].
    cbn [andb] in T. inversion T; subst a body s0; clear T.
    apply N.eqb_eq in Eu. subst u.
    rewrite r_expands.
    change ((a' :: m :: cu "{" :: (b :: run isAlnum s3) ++ [cu "}"]) ++
            replaceFrom g r tmpl None (afterRun isAlnum s3) 0)%list
      with (a' :: m :: cu "{" :: b :: (run isAlnum s3 ++ [cu "}"]) ++
            replaceFrom g r tmpl None (afterRun isAlnum s3) 0)%list.
    rewrite <- app_assoc. now apply Hmatch.
Qed.

Lemma tripleFree_cons (q : look) (c : N) (s : jsstring) :
  tripleFree p1 m isAlnum q (c :: s)
  = negb (completes isAlnum q c)
    && tripleFree p1 m isAlnum (lookStep p1 m q c) s.
Proof. reflexivity. Qed.

Lemma sign_not_p1 : p1 m = false.
Proof.
  destruct (p1 m) eqn:E; [| reflexivity]. apply p1_alnum in E. congruence.
Qed.

Lemma alnum_not_sign (c : N) : isAlnum c = true -> (c =? m)%N = false.
Proof.
  intros H. apply N.eqb_neq. intros E. subst c. congruence.
Qed.

(** The braced body of a replacement is an inert block. *)
Lemma braced_inert (body : jsstring) :
  forallb isAlnum body = true ->
  inert p1 m isAlnum (cu "{" :: body ++ [cu "}"]) = true.
Proof.
  intros H. unfold inert.
  change (cu "{" :: body ++ [cu "}"])%list
    with ((cu "{" :: body) ++ [cu "}"])%list.
  rewrite last_last. rewrite forallb_app.
  assert (B : p1 (cu "}") = false).
  { destruct (p1 (cu "}")) eqn:E; [| reflexivity].
    apply p1_alnum in E. vm_compute in E. discriminate. }
  rewrite B. destruct sign_not_brace as [S1 S2].
  cbn [forallb]. rewrite S1, S2.
  replace (forallb (fun x => negb (x =? m)%N) body) with true;
    [reflexivity |].
  symmetry. apply forallb_forall. intros x Hx. apply negb_true_iff.
  apply alnum_not_sign. rewrite forallb_forall in H. now apply H.
Qed.

Lemma brace_open : brace (js "{").
Proof. unfold brace. simpl. auto. Qed.

Lemma brace_close : brace (js "}").
Proof. unfold brace. simpl. auto. Qed.

(** The pass only inserts braces. *)
Lemma triple_pass_Dressed (s : jsstring) :
  Dressed brace s (replaceAll g r tmpl s).
Proof.
  apply (triple_pass_ind (fun s o => Dressed brace s o)).
  - constructor.
  - intros c s0 _ IH. now constructor.
  - intros a b s3 _ _ IH.
    rewrite (run_afterRun isAlnum s3) at 1.
    apply Dressed_keep. apply Dressed_keep.
    apply (Dressed_insert brace (js "{")); [exact brace_open |].
    apply Dressed_keep.
    apply Dressed_app; [apply Dressed_refl |].
    apply (Dressed_insert brace (js "}")); [exact brace_close |]. exact IH.
Qed.

(** The result holds no place where the pattern would match again. *)
Lemma triple_pass_free (s : jsstring) :
  tripleFree p1 m isAlnum Idle (replaceAll g r tmpl s) = true.
Proof.
  assert (G : forall q, pendingOK m isAlnum q s = true ->
                tripleFree p1 m isAlnum q (replaceAll g r tmpl s) = true);
    [| now apply G].
  apply (triple_pass_ind (fun s o => forall q,
           pendingOK m isAlnum q s = true ->
           tripleFree p1 m isAlnum q o = true)).
  - reflexivity.
  - intros c s0 T IH q H. simpl tripleFree.
    replace (completes isAlnum q c) with false.
    2:{ destruct q; try reflexivity. simpl in *.
        now apply negb_true_iff in H. }
    simpl. apply IH. unfold lookStep. destruct (p1 c) eqn:Ec.
    + unfold tripleAt in T. simpl. destruct s0 as [| u [| b s3]]; auto.
      rewrite Ec in T. simpl in T.
      destruct ((u =? m)%N && isAlnum b); [discriminate | reflexivity].
    + destruct q; try reflexivity.
      destruct (c =? m)%N eqn:Em; [| reflexivity].
      simpl in *. destruct s0 as [| b s3]; [reflexivity |].
      rewrite Em in H. exact H.
  - intros a b s3 Ha Hb IH q H.
    rewrite tripleFree_cons.
    replace (completes isAlnum q a) with false.
    2:{ destruct q; try reflexivity. simpl in *.
        rewrite (p1_alnum a Ha) in H. discriminate. }
    replace (lookStep p1 m q a) with First
      by (unfold lookStep; now rewrite Ha).
    rewrite tripleFree_cons.
    replace (lookStep p1 m First m) with Sign
      by (unfold lookStep; now rewrite sign_not_p1, N.eqb_refl).
    replace (cu "{" :: b :: (run isAlnum s3 ++
              cu "}" :: replaceAll g r tmpl (afterRun isAlnum s3)))%list
      with ((cu "{" :: (b :: run isAlnum s3) ++ [cu "}"]) ++
              replaceAll g r tmpl (afterRun isAlnum s3))%list
      by (simpl; now rewrite <- app_assoc).
    rewrite tripleFree_inert.
    + simpl. now apply IH.
    + apply braced_inert. simpl. rewrite Hb. apply run_all.
Qed.

(** Where no triple is left the pass changes nothing. *)
Lemma triple_pass_fixed (s : jsstring) :
  forall q, tripleFree p1 m isAlnum q s = true -> replaceAll g r tmpl s = s.
Proof.
  apply (triple_pass_ind (fun s o => forall q,
           tripleFree p1 m isAlnum q s = true -> o = s)).
  - reflexivity.
  - intros c s0 _ IH q H. rewrite tripleFree_cons in H.
    apply andb_prop in H. destruct H as [_ H]. f_equal. exact (IH _ H).
  - intros a b s3 Ha Hb _ q H. exfalso.
    rewrite tripleFree_cons in H. apply andb_prop in H. destruct H as [_ H].
    replace (lookStep p1 m q a) with First in H
      by (unfold lookStep; now rewrite Ha).
    rewrite tripleFree_cons in H. apply andb_prop in H. destruct H as [_ H].
    replace (lookStep p1 m First m) with Sign in H
      by (unfold lookStep; now rewrite sign_not_p1, N.eqb_refl).
    rewrite tripleFree_cons in H. simpl completes in H. rewrite Hb in H.
    discriminate.
Qed.

End TriplePass.


(** ** The fraction pass *)

Lemma fraction_prev (s : jsstring) (p p' : option N) (skip : nat) :
  replaceFrom g reFraction toFraction p s skip
  = replaceFrom g reFraction toFraction p' s skip.
Proof.
  apply replaceFrom_prev. intros q q' s0. rewrite !matchAt_fraction.
  destruct (fractionAt s0) as [[[num den] rr] |]; simpl; auto.
Qed.

Lemma fractionAt_Some (s num den rr : jsstring) :
  fractionAt s = Some (num, den, rr) ->
  s = (num ++ cu "/" :: den ++ rr)%list
  /\ num <> [] /\ forallb isAlnum num = true
  /\ den <> [] /\ forallb isAlnum den = true.
Proof.
  unfold fractionAt. intros H.
  pose proof (run_afterRun isAlnum s) as E.
  pose proof (run_all isAlnum s) as A.
  destruct (run isAlnum s) as [| a l] eqn:Er; [discriminate |].
  destruct (afterRun isAlnum s) as [| u [| b s3]]; try discriminate.
  destruct (u =? cu "/")%N eqn:Eu; [| discriminate].
  destruct (isAlnum b) eqn:Eb; [| discriminate].
  simpl in H. inversion H; subst num den rr; clear H.
  apply N.eqb_eq in Eu. subst u.
  repeat split; try discriminate; auto.
  - rewrite E. f_equal. f_equal. simpl. f_equal. apply run_afterRun.
  - simpl. rewrite Eb. apply run_all.
Qed.

Lemma fractionAt_None (c : N) (s : jsstring) :
  fractionAt (c :: s) = None -> isAlnum c = true ->
  pendingOK (cu "/") isAlnum First s = true.
Proof.
  intros H Hc. unfold pendingOK. destruct s as [| u [| b s3]]; auto.
  destruct (u =? cu "/")%N eqn:Eu; [| reflexivity].
  destruct (isAlnum b) eqn:Eb; [| reflexivity]. exfalso.
  apply N.eqb_eq in Eu. subst u.
  unfold fractionAt in H. simpl in H. rewrite Hc in H. simpl in H.
  rewrite Eb in H. discriminate.
Qed.

Lemma fraction_pass_ind (Q : jsstring -> jsstring -> Prop) :
  Q [] [] ->
  (forall c s,
     fractionAt (c :: s) = None ->
     Q s (replaceAll g reFraction toFraction s) ->
     Q (c :: s) (c :: replaceAll g reFraction toFraction s)) ->
  (forall num den rr,
     num <> [] -> forallb isAlnum num = true ->
     den <> [] -> forallb isAlnum den = true ->
     Q rr (replaceAll g reFraction toFraction rr) ->
     Q (num ++ cu "/" :: den ++ rr)%list
       (js "\frac{" ++ num ++ js "}{" ++ den ++ js "}" ++
        replaceAll g reFraction toFraction rr)%list) ->
  forall s, Q s (replaceAll g reFraction toFraction s).
Proof.
  intros Hnil Hkeep Hmatch s. unfold replaceAll in *.
  apply (replace_ind g reFraction toFraction eq_refl (fun _ s o => Q s o)).
  - intros _. exact Hnil.
  - intros p c s0 E IH. rewrite (fraction_prev s0 (Some c) None).
    rewrite (fraction_prev s0 (Some c) None) in IH.
    apply Hkeep; [| exact IH].
    rewrite matchAt_fraction in E.
    destruct (fractionAt (c :: s0)) as [[[num den] rr] |];
      [discriminate | reflexivity].
  - intros p w s0 st _ E Er IH.
    rewrite (fraction_prev s0 _ None). rewrite (fraction_prev s0 _ None) in IH.
    rewrite matchAt_fraction in E.
    destruct (fractionAt (w ++ s0)) as [[[num den] rr] |] eqn:T;
      [| discriminate].
    inversion E; subst st; clear E. cbn [rest caps] in *. subst rr.
    apply fractionAt_Some in T.
    destruct T as [E [N1 [A1 [N2 A2]]]]. rewrite E.
    replace (expand toFraction [(2, den); (1, num)])
      with (js "\frac{" ++ num ++ js "}{" ++ den ++ js "}")%list
      by reflexivity.
    rewrite <- !app_assoc. now apply Hmatch.
Qed.

Lemma brace_frac : brace (js "\frac{").
Proof. unfold brace. simpl. auto. Qed.

Lemma brace_mid : brace (js "}{").
Proof. unfold brace. simpl. auto. Qed.

Lemma fraction_pass_Dressed (s : jsstring) :
  Dressed brace s (replaceAll g reFraction toFraction s).
Proof.
  apply (fraction_pass_ind (fun s o => Dressed brace s o)).
  - constructor.
  - intros c s0 _ IH. now constructor.
  - intros num den rr _ _ _ _ IH.
    apply (Dressed_insert brace (js "\frac{")); [exact brace_frac |].
    apply Dressed_app; [apply Dressed_refl |].
    apply (Dressed_swap brace (cu "/") (js "}{")); [exact brace_mid |].
    apply Dressed_app; [apply Dressed_refl |].
    apply (Dressed_insert brace (js "}")); [exact brace_close |]. exact IH.
Qed.

Lemma alnum_not_slash (c : N) : isAlnum c = true -> (c =? cu "/")%N = false.
Proof. intros H. rewrite N.eqb_sym. now apply slash_not_alnum. Qed.

Lemma fraction_text_inert (num den : jsstring) :
  forallb isAlnum num = true -> forallb isAlnum den = true ->
  inert isAlnum (cu "/") isAlnum
    (js "\frac{" ++ num ++ js "}{" ++ den ++ js "}") = true.
Proof.
  intros A1 A2.
  assert (F : forall l, forallb isAlnum l = true ->
                forallb (fun x => negb (x =? cu "/")%N) l = true).
  { intros l Hl. apply forallb_forall. intros x Hx. apply negb_true_iff.
    apply alnum_not_slash. rewrite forallb_forall in Hl. now apply Hl. }
  replace (js "\frac{" ++ num ++ js "}{" ++ den ++ js "}")%list
    with (cu "\" :: (js "frac{" ++ num ++ js "}{" ++ den) ++ [cu "}"])%list
    by (simpl; now rewrite <- !app_assoc).
  apply inert_intro; try reflexivity.
  change (cu "\" :: (js "frac{" ++ num ++ js "}{" ++ den) ++ [cu "}"])%list
    with ((cu "\" :: js "frac{") ++ (num ++ js "}{" ++ den) ++ [cu "}"])%list.
  rewrite !forallb_app. rewrite (F num A1), (F den A2). reflexivity.
Qed.

Lemma fraction_cons (q : look) (c : N) (s : jsstring) :
  tripleFree isAlnum (cu "/") isAlnum q (c :: s)
  = negb (completes isAlnum q c)
    && tripleFree isAlnum (cu "/") isAlnum
         (lookStep isAlnum (cu "/") q c) s.
Proof. reflexivity. Qed.

Lemma fraction_pass_free (s : jsstring) :
  tripleFree isAlnum (cu "/") isAlnum Idle
    (replaceAll g reFraction toFraction s) = true.
Proof.
  assert (G : forall q, pendingOK (cu "/") isAlnum q s = true ->
                tripleFree isAlnum (cu "/") isAlnum q
                  (replaceAll g reFraction toFraction s) = true);
    [| now apply G].
  apply (fraction_pass_ind (fun s o => forall q,
           pendingOK (cu "/") isAlnum q s = true ->
           tripleFree isAlnum (cu "/") isAlnum q o = true)).
  - reflexivity.
  - intros c s0 T IH q H. rewrite fraction_cons.
    replace (completes isAlnum q c) with false.
    2:{ destruct q; try reflexivity. simpl in *.
        now apply negb_true_iff in H. }
    simpl. apply IH. unfold lookStep. destruct (isAlnum c) eqn:Ec.
    + now apply (fractionAt_None c).
    + destruct q; try reflexivity.
      destruct (c =? cu "/")%N eqn:Em; [| reflexivity].
      simpl in *. destruct s0 as [| b s3]; [reflexivity |].
      rewrite Em in H. exact H.
  - intros num den rr _ A1 _ A2 IH q _.
    rewrite !app_assoc. rewrite <- !app_assoc.
    replace (js "\frac{" ++ num ++ js "}{" ++ den ++ js "}" ++
             replaceAll g reFraction toFraction rr)%list
      with ((js "\frac{" ++ num ++ js "}{" ++ den ++ js "}") ++
             replaceAll g reFraction toFraction rr)%list
      by (now rewrite <- !app_assoc).
    rewrite tripleFree_inert; [| now apply fraction_text_inert].
    now apply IH.
Qed.

Lemma lookRun_alnum (num : jsstring) :
  num <> [] -> forallb isAlnum num = true ->
  forall q, lookRun isAlnum (cu "/") q num = First.
Proof.
  induction num as [| c num IH]; intros N1 A q; [congruence |].
  simpl in A. apply andb_prop in A. destruct A as [Ac A].
  destruct num as [| d num].
  - simpl. unfold lookStep. now rewrite Ac.
  - change (lookRun isAlnum (cu "/") q (c :: d :: num))
      with (lookRun isAlnum (cu "/") (lookStep isAlnum (cu "/") q c)
              (d :: num)).
    apply IH; [discriminate | exact A].
Qed.

Lemma fraction_pass_fixed (s : jsstring) :
  forall q, tripleFree isAlnum (cu "/") isAlnum q s = true ->
    replaceAll g reFraction toFraction s = s.
Proof.
  apply (fraction_pass_ind (fun s o => forall q,
           tripleFree isAlnum (cu "/") isAlnum q s = true -> o = s)).
  - reflexivity.
  - intros c s0 _ IH q H. rewrite fraction_cons in H.
    apply andb_prop in H. destruct H as [_ H]. f_equal. exact (IH _ H).
  - intros num den rr N1 A1 N2 A2 _ q H. exfalso.
    apply tripleFree_app in H. destruct H as [_ H].
    rewrite (lookRun_alnum num N1 A1) in H.
    rewrite fraction_cons in H. apply andb_prop in H. destruct H as [_ H].
    replace (lookStep isAlnum (cu "/") First (cu "/")) with Sign in H
      by reflexivity.
    destruct den as [| d den]; [congruence |].
    simpl in A2. apply andb_prop in A2. destruct A2 as [Ad _].
    simpl app in H. rewrite fraction_cons in H. simpl completes in H.
    rewrite Ad in H. discriminate.
Qed.


(** ** The three structural passes together *)

Lemma letter_alnum (c : N) : isLetter c = true -> isAlnum c = true.
Proof.
  unfold isLetter, isAlnum, letter, alnum, inRanges. simpl. intros H.
  rewrite !orb_false_r in *. apply orb_prop in H.
  destruct H as [H | H]; rewrite H; simpl; auto using orb_true_r.
Qed.

Lemma subscript_expands (a : N) (body : jsstring) :
  expand toSubscript (subscriptCaps a body)
  = a :: cu "_" :: cu "{" :: (body ++ [cu "}"])%list.
Proof. reflexivity. Qed.

Lemma superscript_expands (a : N) (body : jsstring) :
  expand toSuperscript (superscriptCaps a body)
  = a :: cu "^" :: cu "{" :: (body ++ [cu "}"])%list.
Proof. reflexivity. Qed.

Lemma subscript_Dressed (s : jsstring) :
  Dressed brace s (replaceAll g reSubscript toSubscript s).
Proof.
  exact (triple_pass_Dressed reSubscript toSubscript isLetter (cu "_")
           subscriptCaps matchAt_subscript subscript_expands eq_refl s).
Qed.

Lemma superscript_Dressed (s : jsstring) :
  Dressed brace s (replaceAll g reSuperscript toSuperscript s).
Proof.
  exact (triple_pass_Dressed reSuperscript toSuperscript isAlnum (cu "^")
           superscriptCaps matchAt_superscript superscript_expands eq_refl s).
Qed.

Lemma subscript_free (s : jsstring) :
  tripleFree isLetter (cu "_") isAlnum Idle
    (replaceAll g reSubscript toSubscript s) = true.
Proof.
  exact (triple_pass_free reSubscript toSubscript isLetter (cu "_")
           subscriptCaps matchAt_subscript subscript_expands eq_refl
           letter_alnum eq_refl (conj eq_refl eq_refl) s).
Qed.

Lemma superscript_free (s : jsstring) :
  tripleFree isAlnum (cu "^") isAlnum Idle
    (replaceAll g reSuperscript toSuperscript s) = true.
Proof.
  exact (triple_pass_free reSuperscript toSuperscript isAlnum (cu "^")
           superscriptCaps matchAt_superscript superscript_expands eq_refl
           (fun c H => H) eq_refl (conj eq_refl eq_refl) s).
Qed.

Lemma subscript_fixed (s : jsstring) (q : look) :
  tripleFree isLetter (cu "_") isAlnum q s = true ->
  replaceAll g reSubscript toSubscript s = s.
Proof.
  exact (triple_pass_fixed reSubscript toSubscript isLetter (cu "_")
           subscriptCaps matchAt_subscript subscript_expands eq_refl
           letter_alnum eq_refl s q).
Qed.

Lemma superscript_fixed (s : jsstring) (q : look) :
  tripleFree isAlnum (cu "^") isAlnum q s = true ->
  replaceAll g reSuperscript toSuperscript s = s.
Proof.
  exact (triple_pass_fixed reSuperscript toSuperscript isAlnum (cu "^")
           superscriptCaps matchAt_superscript superscript_expands eq_refl
           (fun c H => H) eq_refl s q).
Qed.

Lemma brace_inert (p1 : N -> bool) (m : N) (h : jsstring) :
  forallb (inert p1 m isAlnum) braces = true ->
  brace h -> inert p1 m isAlnum h = true.
Proof.
  intros H B. rewrite forallb_forall in H. apply H. exact B.
Qed.

Lemma structuralPasses_Dressed (s : jsstring) :
  exists t1 t2,
    Dressed brace s t1 /\ Dressed brace t1 t2
    /\ Dressed brace t2 (structuralPasses s).
Proof.
  exists (replaceAll g reSubscript toSubscript s).
  exists (replaceAll g reSuperscript toSuperscript
            (replaceAll g reSubscript toSubscript s)).
  split; [apply subscript_Dressed |].
  split; [apply superscript_Dressed |].
  apply fraction_pass_Dressed.
Qed.

(** What the passes rewrote they do not rewrite again. *)
Lemma structuralPasses_idempotent (s : jsstring) :
  structuralPasses (structuralPasses s) = structuralPasses s.
Proof.
  unfold structuralPasses.
  set (t1 := replaceAll g reSubscript toSubscript s).
  set (t2 := replaceAll g reSuperscript toSuperscript t1).
  set (t3 := replaceAll g reFraction toFraction t2).
  assert (I1 : forall h, brace h ->
                 inert isLetter (cu "_") isAlnum h = true).
  { intros h. apply brace_inert. vm_compute. reflexivity. }
  assert (I2 : forall h, brace h ->
                 inert isAlnum (cu "^") isAlnum h = true).
  { intros h. apply brace_inert. vm_compute. reflexivity. }
  assert (F1 : tripleFree isLetter (cu "_") isAlnum Idle t3 = true).
  { apply (Dressed_tripleFree _ _ _ brace t2 t3 I1);
      [apply fraction_pass_Dressed |].
    apply (Dressed_tripleFree _ _ _ brace t1 t2 I1);
      [apply superscript_Dressed |].
    apply subscript_free. }
  assert (F2 : tripleFree isAlnum (cu "^") isAlnum Idle t3 = true).
  { apply (Dressed_tripleFree _ _ _ brace t2 t3 I2);
      [apply fraction_pass_Dressed |].
    apply superscript_free. }
  assert (F3 : tripleFree isAlnum (cu "/") isAlnum Idle t3 = true)
    by apply fraction_pass_free.
  rewrite (subscript_fixed t3 Idle F1).
  rewrite (superscript_fixed t3 Idle F2).
  exact (fraction_pass_fixed t3 Idle F3).
Qed.

Lemma includes_single (s : jsstring) (c : N) :
  includes s [c] = true <-> In c s.
Proof.
  split.
  - intros H. apply (includes_In s [c] H). now left.
  - induction s as [| x s IH]; intros H; [contradiction |].
    simpl. destruct H as [H | H].
    + subst x. now rewrite N.eqb_refl.
    + rewrite (IH H). apply orb_true_r.
Qed.

Lemma tripleFree_without_sign (p1 : N -> bool) (m : N) (s : jsstring) :
  ~ In m s -> forall q, q <> Sign ->
  tripleFree p1 m isAlnum q s = true.
Proof.
  induction s as [| c s IH]; intros H q Hq; [reflexivity |].
  simpl. replace (completes isAlnum q c) with false by now destruct q.
  simpl. apply IH.
  - intros C. apply H. now right.
  - unfold lookStep. destruct (p1 c); [discriminate |].
    destruct q; try discriminate.
    destruct (c =? m)%N eqn:E; [| discriminate].
    apply N.eqb_eq in E. exfalso. apply H. now left.
Qed.

(** Without underscore, caret and slash the passes change nothing. *)
Lemma structuralPasses_without_signs (s : jsstring) :
  includes s (js "_") = false -> includes s (js "^") = false ->
  includes s (js "/") = false -> structuralPasses s = s.
Proof.
  intros H1 H2 H3. unfold structuralPasses.
  assert (N : forall c, includes s [c] = false -> ~ In c s).
  { intros c H C. apply includes_single in C. congruence. }
  rewrite (subscript_fixed s Idle)
    by (apply tripleFree_without_sign; [now apply N | discriminate]).
  rewrite (superscript_fixed s Idle)
    by (apply tripleFree_without_sign; [now apply N | discriminate]).
  apply (fraction_pass_fixed s Idle).
  apply tripleFree_without_sign; [now apply N | discriminate].
Qed.


(** ** Text without Greek material *)

Section GreekIdentity.

Variables (name symbol : string) (sigma : N).
Hypothesis one_unit : js symbol = [sigma].
Hypothesis name_nonEmpty : nonEmpty (reGreek name symbol) = true.

Lemma greek_hit (p : option N) (s : jsstring) (st : mstate) :
  matchAt gi (reGreek name symbol) p s = Some st ->
  isPrefixBy (charEq gi) (js name) s = true
  \/ isPrefixBy (charEq gi) [sigma] s = true.
Proof.
  unfold matchAt, reGreek. cbn [matcher]. intros H.
  apply orElse_Some in H. destruct H as [H | [_ H]].
  - left. destruct (atWordBoundary _); [| discriminate].
    rewrite matcher_lit in H. cbn [rest] in H.
    destruct (isPrefixBy (charEq gi) (js name) s); [reflexivity |].
    discriminate.
  - right. rewrite matcher_lit in H. cbn [rest] in H. rewrite one_unit in H.
    destruct (isPrefixBy (charEq gi) [sigma] s); [reflexivity |].
    discriminate.
Qed.

Lemma greekStep_id (s : jsstring) :
  includesBy (charEq gi) s (js name) = false ->
  (forall x, In x s -> charEq gi sigma x = false) ->
  greekStep s (name, symbol) = s.
Proof.
  unfold greekStep, replaceAll. cbn [fst snd].
  apply (replace_ind gi (reGreek name symbol) (toGreek name) name_nonEmpty
           (fun _ s o =>
              includesBy (charEq gi) s (js name) = false ->
              (forall x, In x s -> charEq gi sigma x = false) -> o = s)).
  - reflexivity.
  - intros p c s0 _ IH H1 H2. f_equal. apply IH.
    + simpl in H1. apply orb_false_elim in H1. now destruct H1.
    + intros x Hx. apply H2. now right.
  - intros p w s0 st Hw E _ _ H1 H2. exfalso.
    apply greek_hit in E. destruct E as [E | E].
    + apply includesBy_prefix in E. congruence.
    + destruct w as [| c w]; [congruence |]. simpl in E.
      rewrite (H2 c) in E; [discriminate | now left].
Qed.

End GreekIdentity.

Lemma greekFold_id (l : list (string * string)) (s : jsstring) :
  (forall e, In e l -> In e greekLetters) ->
  hasGreekName s = false -> hasGreekGlyph s = false ->
  fold_left greekStep l s = s.
Proof.
  intros Hl Hn Hg. induction l as [| e l IH]; [reflexivity |].
  simpl.
  assert (T : In e greekLetters) by (apply Hl; now left).
  assert (F : foldable e = true).
  { pose proof greekLetters_foldable as G.
    rewrite forallb_forall in G. now apply G. }
  unfold foldable in F. apply andb_prop in F. destruct F as [F _].
  apply andb_prop in F. destruct F as [F1 F2]. apply Nat.eqb_eq in F1.
  destruct e as [name symbol]. cbn [fst snd] in F1, F2.
  destruct (js symbol) as [| sigma [| ? ?]] eqn:Es;
    [discriminate F1 | | discriminate F1].
  rewrite (greekStep_id name symbol sigma Es F2).
  - apply IH. intros e He. apply Hl. now right.
  - unfold hasGreekName in Hn.
    destruct (includesBy (charEq gi) s (js name)) eqn:E; [| reflexivity].
    assert (C : existsb (fun e => includesBy (charEq gi) s (js (fst e)))
                  greekLetters = true).
    { apply existsb_exists. exists (name, symbol). split; assumption. }
    rewrite Hn in C. discriminate C.
  - intros x Hx.
    assert (Gx : isGreekGlyph x = false).
    { unfold hasGreekGlyph in Hg.
      destruct (isGreekGlyph x) eqn:E; [| reflexivity].
      assert (C : existsb isGreekGlyph s = true).
      { apply existsb_exists. exists x. split; assumption. }
      rewrite Hg in C. discriminate C. }
    pose proof (glyph_of_table (name, symbol) x T Gx) as P.
    cbn [snd] in P. rewrite Es in P. simpl in P.
    now rewrite andb_true_r in P.
Qed.

(** The Greek-letter pass leaves text without Greek names and glyphs as
    it is. *)
Lemma greekPass_id (s : jsstring) :
  hasGreekName s = false -> hasGreekGlyph s = false -> greekPass s = s.
Proof. apply greekFold_id. auto. Qed.

Lemma bracesSealed_holds : bracesSealed = true.
Proof. vm_compute. reflexivity. Qed.

Lemma brace_sealed (e : string * string) (h : jsstring) :
  In e greekLetters -> brace h ->
  js (fst e) <> [] /\ sealed (charEq gi) (js (fst e)) h = true.
Proof.
  intros He Hh. pose proof bracesSealed_holds as B. unfold bracesSealed in B.
  apply andb_prop in B. destruct B as [B _].
  rewrite forallb_forall in B. specialize (B e He).
  apply andb_prop in B. destruct B as [B1 B2].
  rewrite forallb_forall in B2. split; [| now apply B2].
  intros C. rewrite C in B1. discriminate.
Qed.

Lemma brace_no_glyph (h : jsstring) (x : N) :
  brace h -> In x h -> isGreekGlyph x = false.
Proof.
  intros Hh Hx. pose proof bracesSealed_holds as B. unfold bracesSealed in B.
  apply andb_prop in B. destruct B as [_ B].
  rewrite forallb_forall in B. specialize (B h Hh).
  apply negb_true_iff in B. unfold hasGreekGlyph in B.
  destruct (isGreekGlyph x) eqn:E; [| reflexivity].
  assert (C : existsb isGreekGlyph h = true).
  { apply existsb_exists. exists x. split; assumption. }
  rewrite B in C. discriminate C.
Qed.

Lemma Dressed_no_name (s t : jsstring) :
  Dressed brace s t -> hasGreekName s = false -> hasGreekName t = false.
Proof.
  intros D H. unfold hasGreekName in *.
  destruct (existsb _ greekLetters) eqn:E in |- *; [| reflexivity].
  apply existsb_exists in E. destruct E as [e [He E]].
  destruct (brace_sealed e (js "{") He) as [Hn _]; [unfold brace; simpl; auto |].
  assert (S : forall h, brace h -> sealed (charEq gi) (js (fst e)) h = true).
  { intros h Hh. now apply brace_sealed. }
  pose proof (Dressed_includes (charEq gi) (js (fst e)) brace S s t Hn D E)
    as I.
  assert (C : existsb (fun e => includesBy (charEq gi) s (js (fst e)))
                greekLetters = true).
  { apply existsb_exists. exists e. split; assumption. }
  rewrite H in C. discriminate C.
Qed.

Lemma Dressed_no_glyph (s t : jsstring) :
  Dressed brace s t -> hasGreekGlyph s = false -> hasGreekGlyph t = false.
Proof.
  intros D H. unfold hasGreekGlyph in *.
  destruct (existsb isGreekGlyph t) eqn:E; [| reflexivity].
  apply existsb_exists in E. destruct E as [x [Hx E]].
  destruct (Dressed_In brace s t x D Hx) as [I | [h [Hh I]]].
  - assert (C : existsb isGreekGlyph s = true).
    { apply existsb_exists. exists x. split; assumption. }
    rewrite H in C. discriminate C.
  - rewrite (brace_no_glyph h x Hh I) in E. discriminate E.
Qed.

Lemma structuralPasses_no_name (s : jsstring) :
  hasGreekName s = false -> hasGreekName (structuralPasses s) = false.
Proof.
  intros H. destruct (structuralPasses_Dressed s) as [t1 [t2 [D1 [D2 D3]]]].
  eauto using Dressed_no_name.
Qed.

Lemma structuralPasses_no_glyph (s : jsstring) :
  hasGreekGlyph s = false -> hasGreekGlyph (structuralPasses s) = false.
Proof.
  intros H. destruct (structuralPasses_Dressed s) as [t1 [t2 [D1 [D2 D3]]]].
  eauto using Dressed_no_glyph.
Qed.

(** The passes bring in none of [∇], [E], [B]. *)
Lemma structuralPasses_In (s : jsstring) (x : N) :
  In x (structuralPasses s) -> In x s \/ In x (js "{}\frac").
Proof.
  intros H. destruct (structuralPasses_Dressed s) as [t1 [t2 [D1 [D2 D3]]]].
  assert (B : forall h, brace h -> In x h -> In x (js "{}\frac")).
  { intros h Hh Hx. unfold brace in Hh. simpl in Hh.
    destruct Hh as [Hh | [Hh | [Hh | [Hh | []]]]]; subst h;
      simpl in Hx; simpl; tauto. }
  destruct (Dressed_In _ _ _ x D3 H) as [H3 | [h [Hh Hx]]]; [| right; eauto].
  destruct (Dressed_In _ _ _ x D2 H3) as [H2 | [h [Hh Hx]]]; [| right; eauto].
  destruct (Dressed_In _ _ _ x D1 H2) as [H1 | [h [Hh Hx]]]; [| right; eauto].
  now left.
Qed.

Lemma structuralPasses_maxwellGuard (s : jsstring) :
  maxwellGuard s = false -> maxwellGuard (structuralPasses s) = false.
Proof.
  intros H. destruct (maxwellGuard (structuralPasses s)) eqn:E;
    [| reflexivity].
  exfalso. unfold maxwellGuard in *.
  assert (K : forall c, ~ In c (js "{}\frac") ->
                includes (structuralPasses s) [c] = true ->
                includes s [c] = true).
  { intros c Hc I. apply includes_single in I. apply includes_single.
    destruct (structuralPasses_In s c I) as [J | J]; [exact J | contradiction]. }
  apply andb_prop in E. destruct E as [E1 E2].
  assert (A1 : includes s (js "∇") = true).
  { apply (K (cu "∇")); [vm_compute; intuition discriminate | exact E1]. }
  rewrite A1 in H. apply orb_prop in E2. destruct E2 as [E2 | E2].
  - assert (A2 : includes s (js "E") = true).
    { apply (K (cu "E")); [vm_compute; intuition discriminate | exact E2]. }
    rewrite A2 in H. discriminate.
  - assert (A2 : includes s (js "B") = true).
    { apply (K (cu "B")); [vm_compute; intuition discriminate | exact E2]. }
    rewrite A2, orb_true_r in H. discriminate.
Qed.

(** On text without Greek material and without a fired guard the rewriter
    is the three structural passes. *)
Lemma processToLatex_structural (s : jsstring) :
  hasGreekName s = false -> hasGreekGlyph s = false ->
  maxwellGuard s = false ->
  processToLatex s = structuralPasses s.
Proof.
  intros Hn Hg Hm. rewrite processToLatex_maxwell.
  rewrite (greekPass_id (structuralPasses s))
    by auto using structuralPasses_no_name, structuralPasses_no_glyph.
  now rewrite (structuralPasses_maxwellGuard s Hm).
Qed.

Lemma equationTrigger_maxwell (s : jsstring) :
  equationTrigger s = false -> maxwellGuard s = false.
Proof.
  unfold equationTrigger. intros H. apply orb_false_elim in H.
  now destruct H.
Qed.

(** C5: on an input with no Greek letter name, no Greek glyph and no
    fired equation guard, applying the rewriter twice gives what applying
    it once gives. *)
Theorem idempotent_without_greek_or_triggers (s : jsstring) :
  hasGreekName s = false -> hasGreekGlyph s = false ->
  equationTrigger s = false ->
  processToLatex (processToLatex s) = processToLatex s.
Proof.
  intros Hn Hg Ht. apply equationTrigger_maxwell in Ht.
  rewrite (processToLatex_structural s Hn Hg Ht).
  rewrite processToLatex_structural
    by auto using structuralPasses_no_name, structuralPasses_no_glyph,
                  structuralPasses_maxwellGuard.
  apply structuralPasses_idempotent.
Qed.

(** C6: an input with no underscore, caret or slash, no Greek letter name
    or glyph and no fired equation guard is returned unchanged. *)
Theorem identity_without_triggers (s : jsstring) :
  includes s (js "_") = false -> includes s (js "^") = false ->
  includes s (js "/") = false ->
  hasGreekName s = false -> hasGreekGlyph s = false ->
  equationTrigger s = false ->
  processToLatex s = s.
Proof.
  intros H1 H2 H3 Hn Hg Ht. apply equationTrigger_maxwell in Ht.
  rewrite (processToLatex_structural s Hn Hg Ht).
  now apply structuralPasses_without_signs.
Qed.


(** ** The detector's chain patterns *)

Lemma isPrefixBy_g (w s : jsstring) :
  isPrefixBy (charEq g) w s = true <-> exists r, s = (w ++ r)%list.
Proof.
  revert s. induction w as [| c w IH]; intros s.
  - simpl. split; [intros _; now exists s | reflexivity].
  - destruct s as [| x s]; simpl.
    + split; [discriminate | intros [r E]; discriminate].
    + change (charEq g c x) with (c =? x)%N. split.
      * intros H. apply andb_prop in H. destruct H as [H1 H2].
        apply N.eqb_eq in H1. apply IH in H2. destruct H2 as [r E].
        exists r. now subst.
      * intros [r E]. inversion E; subst. rewrite N.eqb_refl. simpl.
        apply IH. now exists r.
Qed.

Lemma skipn_app_exact (w r : jsstring) : skipn (length w) (w ++ r) = r.
Proof. induction w; simpl; auto. Qed.

(** What a successful match of a chain tells, link by link. *)
Lemma char_link (c : N) (b : regex) (st : mstate) (k : cont) (x : mstate) :
  matcher g (Seq (Char c) b) st k = Some x ->
  exists r st', rest st = c :: r /\ rest st' = r
                /\ matcher g b st' k = Some x.
Proof.
  cbn [matcher]. intros H. apply one_sound in H.
  destruct H as [y [ys [E [Hy H]]]].
  change (charEq g c y) with (c =? y)%N in Hy. apply N.eqb_eq in Hy.
  subst y. exists ys, (advance c ys st). auto.
Qed.

Lemma lit_link (w : jsstring) (b : regex) (st : mstate) (k : cont)
    (x : mstate) :
  matcher g (Seq (lit w) b) st k = Some x ->
  exists r st', rest st = (w ++ r)%list /\ rest st' = r
                /\ matcher g b st' k = Some x.
Proof.
  cbn [matcher]. rewrite matcher_lit.
  destruct (isPrefixBy (charEq g) w (rest st)) eqn:E; [| discriminate].
  apply isPrefixBy_g in E. destruct E as [r E]. intros H.
  exists r, (stateAfter st (length w)). split; [exact E |].
  split; [| exact H]. unfold stateAfter. cbn [rest]. rewrite E.
  apply skipn_app_exact.
Qed.

Lemma lit_end (w : jsstring) (st : mstate) (x : mstate) :
  matcher g (lit w) st Some = Some x -> exists r, rest st = (w ++ r)%list.
Proof.
  rewrite matcher_lit.
  destruct (isPrefixBy (charEq g) w (rest st)) eqn:E; [| discriminate].
  intros _. now apply isPrefixBy_g.
Qed.

Lemma repeat_one_sound (ok : N -> bool) (k : cont) (x : mstate) :
  forall fuel st, repeatMatcher (one ok) fuel st k = Some x ->
    exists w r st', rest st = (w ++ r)%list /\ forallb ok w = true
                    /\ rest st' = r /\ k st' = Some x.
Proof.
  induction fuel as [| fuel IH]; intros st H; simpl in H.
  - exists [], (rest st), st. auto.
  - apply orElse_Some in H. destruct H as [H | [_ H]].
    + apply one_sound in H. destruct H as [c [cs [E [Hc H]]]].
      destruct (progress st (advance c cs st)); [| discriminate].
      apply IH in H. destruct H as [w [r [st' [E' [A [R K]]]]]].
      exists (c :: w), r, st'. simpl in E'. rewrite E, E'. simpl.
      rewrite Hc, A. auto.
    + exists [], (rest st), st. auto.
Qed.

Lemma any_link (b : regex) (st : mstate) (k : cont) (x : mstate) :
  matcher g (Seq anything b) st k = Some x ->
  exists w r st', rest st = (w ++ r)%list
                  /\ forallb notLineTerminator w = true
                  /\ rest st' = r /\ matcher g b st' k = Some x.
Proof.
  unfold anything. cbn [matcher]. intros H.
  exact (repeat_one_sound notLineTerminator _ x _ st H).
Qed.

(** And what suffices for a chain to match. *)
Lemma char_accepts (c : N) (b : regex) (k : cont) (r : jsstring) :
  accepts (fun st => matcher g b st k) r ->
  accepts (fun st => matcher g (Seq (Char c) b) st k) (c :: r).
Proof.
  intros H st E. cbn [matcher]. unfold one. rewrite E.
  change (charEq g c c) with (c =? c)%N. rewrite N.eqb_refl.
  now apply H.
Qed.

Lemma lit_accepts (w : jsstring) (b : regex) (k : cont) (r : jsstring) :
  accepts (fun st => matcher g b st k) r ->
  accepts (fun st => matcher g (Seq (lit w) b) st k) (w ++ r).
Proof.
  intros H st E. cbn [matcher]. rewrite matcher_lit.
  replace (isPrefixBy (charEq g) w (rest st)) with true
    by (symmetry; apply isPrefixBy_g; now exists r).
  apply H. unfold stateAfter. cbn [rest]. rewrite E.
  apply skipn_app_exact.
Qed.

Lemma lit_accepts_end (w r : jsstring) :
  accepts (fun st => matcher g (lit w) st Some) (w ++ r).
Proof.
  intros st E. rewrite matcher_lit.
  replace (isPrefixBy (charEq g) w (rest st)) with true
    by (symmetry; apply isPrefixBy_g; now exists r).
  discriminate.
Qed.

Lemma orElse_accepts (a b : option mstate) :
  a <> None \/ b <> None -> orElse a b <> None.
Proof. destruct a; simpl; [discriminate | tauto]. Qed.

Lemma repeat_one_accepts (ok : N -> bool) (k : cont) (w r : jsstring) :
  forallb ok w = true -> accepts k r ->
  forall fuel st, rest st = (w ++ r)%list -> length (rest st) <= fuel ->
    repeatMatcher (one ok) fuel st k <> None.
Proof.
  intros A K. induction w as [| c w IH]; intros fuel st E L.
  - destruct fuel; simpl; [now apply K |].
    apply orElse_accepts. right. now apply K.
  - simpl in A. apply andb_prop in A. destruct A as [Ac A].
    destruct fuel; [rewrite E in L; simpl in L; lia |]. simpl.
    apply orElse_accepts. left. unfold one. rewrite E. simpl.
    rewrite Ac. unfold progress. simpl. rewrite E. simpl.
    replace (length (w ++ r) <? S (length (w ++ r))) with true
      by (symmetry; apply Nat.ltb_lt; lia).
    apply IH; [exact A | reflexivity |].
    simpl. rewrite E in L. simpl in L. lia.
Qed.

Lemma any_accepts (b : regex) (k : cont) (w r : jsstring) :
  forallb notLineTerminator w = true ->
  accepts (fun st => matcher g b st k) r ->
  accepts (fun st => matcher g (Seq anything b) st k) (w ++ r).
Proof.
  intros A K st E. unfold anything. cbn [matcher].
  now apply (repeat_one_accepts notLineTerminator _ w r A K).
Qed.

(** [test] succeeds exactly when the pattern matches at some position. *)
Lemma searchFrom_true (f : flags) (r : regex) (s : jsstring) :
  forall p, searchFrom f r p s = true ->
    exists pre suf, s = (pre ++ suf)%list
                    /\ matchAt f r (lastOpt p pre) suf <> None.
Proof.
  induction s as [| c s IH]; intros p H; simpl in H.
  - destruct (matchAt f r p []) eqn:E; [| discriminate].
    exists [], []. split; [reflexivity |]. simpl. congruence.
  - destruct (matchAt f r p (c :: s)) eqn:E.
    + exists [], (c :: s). split; [reflexivity |]. simpl. congruence.
    + apply IH in H. destruct H as [pre [suf [Es M]]].
      exists (c :: pre), suf. split; [now rewrite Es | exact M].
Qed.

Lemma searchFrom_found (f : flags) (r : regex) (pre suf : jsstring) :
  forall p, matchAt f r (lastOpt p pre) suf <> None ->
    searchFrom f r p (pre ++ suf) = true.
Proof.
  induction pre as [| c pre IH]; intros p H.
  - simpl in *. destruct suf; simpl; destruct (matchAt f r p _);
      congruence.
  - simpl app. simpl searchFrom.
    destruct (matchAt f r p (c :: (pre ++ suf)%list)); [reflexivity |].
    now apply IH.
Qed.

(** C7, as the code has it: [isEinsteinEquation] holds exactly when the
    seven tokens occur in order with no line terminator anywhere between
    the first [G] and the last [μν] of the chain; so it holds on
    ["G μν Λ g μν T μν"] and fails when [Λ] is moved in front of [G]. *)
Theorem isEinsteinEquation_iff_chain_on_one_line (s : jsstring) :
  (isEinsteinEquation (detectPatterns s) = true <->
   exists a x1 x2 x3 x4 x5 x6 b,
     s = (a ++ js "G" ++ x1 ++ js "μν" ++ x2 ++ js "Λ" ++ x3 ++ js "g" ++ x4
            ++ js "μν" ++ x5 ++ js "T" ++ x6 ++ js "μν" ++ b)%list
     /\ forallb notLineTerminator (x1 ++ x2 ++ x3 ++ x4 ++ x5 ++ x6) = true)
  /\ isEinsteinEquation (detectPatterns (js "G μν Λ g μν T μν")) = true
  /\ isEinsteinEquation (detectPatterns (js "Λ G μν g μν T μν")) = false.
Proof.
  split; [| split; vm_compute; reflexivity].
  cbn [detectPatterns isEinsteinEquation]. unfold test. split.
  - intros H. apply searchFrom_true in H.
    destruct H as [a [suf [Es M]]]. unfold matchAt in M.
    destruct (matcher g reEinsteinChain _ Some) as [x |] eqn:E;
      [clear M | congruence].
    unfold reEinsteinChain in E.
    apply char_link in E. destruct E as [r0 [st0 [E0 [R0 E]]]].
    apply any_link in E. destruct E as [x1 [r1 [st1 [E1 [A1 [R1 E]]]]]].
    apply lit_link in E. destruct E as [r2 [st2 [E2 [R2 E]]]].
    apply any_link in E. destruct E as [x2 [r3 [st3 [E3 [A2 [R3 E]]]]]].
    apply char_link in E. destruct E as [r4 [st4 [E4 [R4 E]]]].
    apply any_link in E. destruct E as [x3 [r5 [st5 [E5 [A3 [R5 E]]]]]].
    apply char_link in E. destruct E as [r6 [st6 [E6 [R6 E]]]].
    apply any_link in E. destruct E as [x4 [r7 [st7 [E7 [A4 [R7 E]]]]]].
    apply lit_link in E. destruct E as [r8 [st8 [E8 [R8 E]]]].
    apply any_link in E. destruct E as [x5 [r9 [st9 [E9 [A5 [R9 E]]]]]].
    apply char_link in E. destruct E as [r10 [st10 [E10 [R10 E]]]].
    apply any_link in E. destruct E as [x6 [r11 [st11 [E11 [A6 [R11 E]]]]]].
    apply lit_end in E. destruct E as [b E12].
    exists a, x1, x2, x3, x4, x5, x6, b. split.
    + rewrite Es. cbn [rest] in E0. rewrite E0.
      rewrite <- R0, E1, <- R1, E2, <- R2, E3, <- R3, E4, <- R4, E5, <- R5,
        E6, <- R6, E7, <- R7, E8, <- R8, E9, <- R9, E10, <- R10, E11,
        <- R11, E12.
      reflexivity.
    + rewrite !forallb_app. now rewrite A1, A2, A3, A4, A5, A6.
  - intros [a [x1 [x2 [x3 [x4 [x5 [x6 [b [Es A]]]]]]]]].
    rewrite !forallb_app in A.
    apply andb_prop in A. destruct A as [A1 A].
    apply andb_prop in A. destruct A as [A2 A].
    apply andb_prop in A. destruct A as [A3 A].
    apply andb_prop in A. destruct A as [A4 A].
    apply andb_prop in A. destruct A as [A5 A6].
    rewrite Es. apply searchFrom_found. unfold matchAt.
    assert (ACC : accepts (fun st => matcher g reEinsteinChain st Some)
                    (js "G" ++ x1 ++ js "μν" ++ x2 ++ js "Λ" ++ x3 ++ js "g"
                       ++ x4 ++ js "μν" ++ x5 ++ js "T" ++ x6 ++ js "μν"
                       ++ b)%list).
    { unfold reEinsteinChain.
      apply (char_accepts (cu "G")). apply any_accepts; [exact A1 |].
      apply lit_accepts. apply any_accepts; [exact A2 |].
      apply (char_accepts (cu "Λ")). apply any_accepts; [exact A3 |].
      apply (char_accepts (cu "g")). apply any_accepts; [exact A4 |].
      apply lit_accepts. apply any_accepts; [exact A5 |].
      apply (char_accepts (cu "T")). apply any_accepts; [exact A6 |].
      apply lit_accepts_end. }
    now apply ACC.
Qed.


(** ** The Maxwell block *)

Lemma afterRun_spaces (w : jsstring) (c : N) (y : jsstring) :
  forallb isSpace w = true -> isSpace c = false ->
  afterRun isSpace (w ++ c :: y) = c :: y.
Proof.
  intros A Hc. induction w as [| x w IH]; simpl.
  - now rewrite Hc.
  - simpl in A. apply andb_prop in A. destruct A as [Ax A].
    rewrite Ax. now apply IH.
Qed.

Lemma afterRun_app_stop (s : jsstring) (h : N) (y : jsstring) :
  isSpace h = false ->
  afterRun isSpace (s ++ h :: y)
  = match afterRun isSpace s with
    | [] => h :: y
    | d :: s2 => (d :: s2 ++ h :: y)%list
    end.
Proof.
  intros Hh. induction s as [| x s IH]; simpl.
  - now rewrite Hh.
  - destruct (isSpace x); [exact IH | reflexivity].
Qed.

Section MaxwellPass.

Variables (sg fd : string) (text : jsstring).
Hypothesis sign_not_space : isSpace (cu sg) = false.
Hypothesis field_not_space : isSpace (cu fd) = false.

Lemma matchAt_maxwell (p : option N) (s : jsstring) :
  matchAt g (reMaxwell sg fd) p s
  = match maxwellAt (cu sg) (cu fd) s with
    | Some r => Some {| prev := Some (cu fd); rest := r; caps := [] |}
    | None => None
    end.
Proof.
  unfold matchAt, reMaxwell, maxwellAt, ws. cbn [matcher].
  change (fun x : N => xorb false (inClass g whiteSpace x)) with isSpace.
  change (fun (st : mstate) (k : cont) => one isSpace st k) with (one isSpace).
  change (charEq g (cu "∇")) with (N.eqb (cu "∇")).
  change (charEq g (cu sg)) with (N.eqb (cu sg)).
  change (charEq g (cu fd)) with (N.eqb (cu fd)).
  destruct s as [| c s1]; [reflexivity |]. rewrite one_cons.
  rewrite (N.eqb_sym c). destruct (cu "∇" =? c)%N; [| reflexivity].
  rewrite repeat_one_commit; [| | cbn [rest]; lia].
  2:{ intros st x xs E Hx. unfold one. rewrite E.
      destruct (cu sg =? x)%N eqn:C; [| reflexivity].
      apply N.eqb_eq in C. subst x. congruence. }
  unfold afterRunState. cbn [prev rest caps].
  destruct (afterRun isSpace s1) as [| d s2]; [reflexivity |].
  rewrite one_cons. rewrite (N.eqb_sym d).
  destruct (cu sg =? d)%N; [| reflexivity].
  rewrite repeat_one_commit; [| | cbn [rest]; lia].
  2:{ intros st x xs E Hx. unfold one. rewrite E.
      destruct (cu fd =? x)%N eqn:C; [| reflexivity].
      apply N.eqb_eq in C. subst x. congruence. }
  unfold afterRunState. cbn [prev rest caps].
  destruct (afterRun isSpace s2) as [| e s3]; [reflexivity |].
  rewrite one_cons. rewrite (N.eqb_sym e).
  destruct (cu fd =? e)%N eqn:Ee; [| reflexivity].
  apply N.eqb_eq in Ee. now subst e.
Qed.

Lemma maxwell_nonEmpty : nonEmpty (reMaxwell sg fd) = true.
Proof. reflexivity. Qed.

Lemma maxwell_prev (s : jsstring) (p p' : option N) (skip : nat) :
  replaceFrom g (reMaxwell sg fd) [Text text] p s skip
  = replaceFrom g (reMaxwell sg fd) [Text text] p' s skip.
Proof.
  apply replaceFrom_prev. intros q q' s0. rewrite !matchAt_maxwell.
  destruct (maxwellAt (cu sg) (cu fd) s0); simpl; auto.
Qed.

Lemma maxwell_keep (c : N) (s : jsstring) :
  maxwellAt (cu sg) (cu fd) (c :: s) = None ->
  replaceAll g (reMaxwell sg fd) [Text text] (c :: s)
  = c :: replaceAll g (reMaxwell sg fd) [Text text] s.
Proof.
  intros H. unfold replaceAll. rewrite replaceFrom_keep.
  - f_equal. apply maxwell_prev.
  - rewrite matchAt_maxwell. now rewrite H.
Qed.

Lemma maxwell_hit (m s : jsstring) :
  m <> [] -> maxwellAt (cu sg) (cu fd) (m ++ s) = Some s ->
  replaceAll g (reMaxwell sg fd) [Text text] (m ++ s)
  = (text ++ replaceAll g (reMaxwell sg fd) [Text text] s)%list.
Proof.
  intros Hm H. unfold replaceAll.
  rewrite (replaceFrom_match g (reMaxwell sg fd) [Text text] None m s
             {| prev := Some (cu fd); rest := s; caps := [] |}).
  - unfold expand. simpl. rewrite app_nil_r. f_equal. apply maxwell_prev.
  - rewrite matchAt_maxwell. now rewrite H.
  - reflexivity.
  - exact Hm.
Qed.

(** Text without [∇] is copied. *)
Lemma maxwell_skip (x y : jsstring) :
  ~ In (cu "∇") x ->
  replaceAll g (reMaxwell sg fd) [Text text] (x ++ y)
  = (x ++ replaceAll g (reMaxwell sg fd) [Text text] y)%list.
Proof.
  induction x as [| c x IH]; intros H; [reflexivity |].
  simpl app. rewrite maxwell_keep.
  - f_equal. apply IH. intros C. apply H. now right.
  - unfold maxwellAt. destruct (c =? cu "∇")%N eqn:E; [| reflexivity].
    apply N.eqb_eq in E. exfalso. apply H. now left.
Qed.

(** A match attempt in front of a stopping code unit does not see what
    follows it. *)
Lemma maxwellAt_app (a y : jsstring) :
  a <> [] -> stops (cu sg) (cu fd) y ->
  maxwellAt (cu sg) (cu fd) (a ++ y)
  = match maxwellAt (cu sg) (cu fd) a with
    | Some r => Some (r ++ y)%list
    | None => None
    end.
Proof.
  intros Ha Hy. destruct y as [| h y]; [rewrite app_nil_r |].
  { destruct (maxwellAt _ _ a); [now rewrite app_nil_r | reflexivity]. }
  destruct Hy as [H1 [H2 H3]].
  destruct a as [| c s1]; [congruence |]. simpl app. unfold maxwellAt.
  destruct (c =? cu "∇")%N; [| reflexivity].
  rewrite (afterRun_app_stop s1 h y H1).
  destruct (afterRun isSpace s1) as [| d s2].
  - destruct (h =? cu sg)%N eqn:E; [| reflexivity].
    apply N.eqb_eq in E. contradiction.
  - simpl app. destruct (d =? cu sg)%N; [| reflexivity].
    rewrite (afterRun_app_stop s2 h y H1).
    destruct (afterRun isSpace s2) as [| e s3].
    + destruct (h =? cu fd)%N eqn:E; [| reflexivity].
      apply N.eqb_eq in E. contradiction.
    + simpl app. destruct (e =? cu fd)%N; reflexivity.
Qed.

Lemma maxwell_local (a y : jsstring) :
  stops (cu sg) (cu fd) y ->
  replaceAll g (reMaxwell sg fd) [Text text] (a ++ y)
  = (replaceAll g (reMaxwell sg fd) [Text text] a
     ++ replaceAll g (reMaxwell sg fd) [Text text] y)%list.
Proof.
  intros Hy. unfold replaceAll at 2.
  apply (replace_ind g (reMaxwell sg fd) [Text text] maxwell_nonEmpty
           (fun _ a o =>
              replaceAll g (reMaxwell sg fd) [Text text] (a ++ y)
              = (o ++ replaceAll g (reMaxwell sg fd) [Text text] y)%list)).
  - reflexivity.
  - intros p c s E IH. rewrite matchAt_maxwell in E.
    simpl app. rewrite maxwell_keep.
    + now rewrite IH.
    + change (c :: (s ++ y)%list) with ((c :: s) ++ y)%list.
      rewrite maxwellAt_app; [| discriminate | exact Hy].
      destruct (maxwellAt (cu sg) (cu fd) (c :: s)); [discriminate |].
      reflexivity.
  - intros p m s st Hm E Er IH. rewrite matchAt_maxwell in E.
    destruct (maxwellAt (cu sg) (cu fd) (m ++ s)) as [r |] eqn:A;
      [| discriminate].
    inversion E; subst st; clear E. cbn [rest caps] in *. subst r.
    rewrite <- app_assoc. rewrite maxwell_hit; [| exact Hm |].
    + unfold expand. simpl. rewrite app_nil_r. rewrite IH.
      now rewrite app_assoc.
    + rewrite app_assoc. rewrite maxwellAt_app; [| | exact Hy].
      * now rewrite A.
      * destruct m; [congruence | discriminate].
Qed.

Lemma maxwellAt_form (sign field : N) (w1 w2 y : jsstring) :
  forallb isSpace w1 = true -> forallb isSpace w2 = true ->
  isSpace sign = false -> isSpace field = false ->
  maxwellAt (cu sg) (cu fd) (maxwellForm sign field w1 w2 ++ y)
  = if (sign =? cu sg)%N && (field =? cu fd)%N then Some y else None.
Proof.
  intros A1 A2 S F. unfold maxwellForm, maxwellAt. cbn [app].
  rewrite N.eqb_refl. rewrite <- app_assoc. cbn [app].
  rewrite (afterRun_spaces w1 sign _ A1 S).
  destruct (sign =? cu sg)%N; [| reflexivity].
  rewrite <- app_assoc. simpl app.
  rewrite (afterRun_spaces w2 field _ A2 F).
  destruct (field =? cu fd)%N; reflexivity.
Qed.

Lemma space_not_nabla (w : jsstring) :
  forallb isSpace w = true -> ~ In (cu "∇") w.
Proof.
  intros A C. rewrite forallb_forall in A. apply A in C.
  vm_compute in C. discriminate.
Qed.

(** One pass over a text with an occurrence of a divergence or curl in
    it: the occurrence is rewritten if it is the pass's own, and kept if
    not; the text in front of it and behind it is treated on its own. *)
Lemma maxwell_pass_form (sign field : N) (w1 w2 a b : jsstring) :
  forallb isSpace w1 = true -> forallb isSpace w2 = true ->
  isSpace sign = false -> isSpace field = false ->
  sign <> cu "∇" -> field <> cu "∇" ->
  stops (cu sg) (cu fd) [cu "∇"] ->
  replaceAll g (reMaxwell sg fd) [Text text]
    (a ++ maxwellForm sign field w1 w2 ++ b)
  = (replaceAll g (reMaxwell sg fd) [Text text] a
     ++ (if (sign =? cu sg)%N && (field =? cu fd)%N then text
         else maxwellForm sign field w1 w2)
     ++ replaceAll g (reMaxwell sg fd) [Text text] b)%list.
Proof.
  intros A1 A2 S F N1 N2 St.
  rewrite maxwell_local by exact St. f_equal.
  pose proof (maxwellAt_form sign field w1 w2 b A1 A2 S F) as M.
  destruct ((sign =? cu sg)%N && (field =? cu fd)%N).
  - apply maxwell_hit; [unfold maxwellForm; discriminate | exact M].
  - unfold maxwellForm in *.
    change ((cu "∇" :: w1 ++ sign :: w2 ++ [field]) ++ b)%list
      with (cu "∇" :: ((w1 ++ sign :: w2 ++ [field]) ++ b))%list.
    rewrite maxwell_keep by exact M.
    rewrite (maxwell_skip (w1 ++ sign :: w2 ++ [field]) b); [reflexivity |].
    intros C. apply in_app_or in C. destruct C as [C | [C | C]].
    + exact (space_not_nabla w1 A1 C).
    + congruence.
    + apply in_app_or in C. destruct C as [C | [C | []]].
      * exact (space_not_nabla w2 A2 C).
      * congruence.
Qed.

Lemma maxwell_pass_own (w1 w2 a b : jsstring) :
  forallb isSpace w1 = true -> forallb isSpace w2 = true ->
  stops (cu sg) (cu fd) [cu "∇"] ->
  replaceAll g (reMaxwell sg fd) [Text text]
    (a ++ maxwellForm (cu sg) (cu fd) w1 w2 ++ b)
  = (replaceAll g (reMaxwell sg fd) [Text text] a ++ text
     ++ replaceAll g (reMaxwell sg fd) [Text text] b)%list.
Proof.
  intros A1 A2 St. pose proof St as [_ [N1 N2]].
  rewrite maxwell_pass_form; auto.
  now rewrite !N.eqb_refl.
Qed.

Lemma maxwell_pass_other (sign field : N) (w1 w2 a b : jsstring) :
  forallb isSpace w1 = true -> forallb isSpace w2 = true ->
  isSpace sign = false -> isSpace field = false ->
  sign <> cu "∇" -> field <> cu "∇" ->
  stops (cu sg) (cu fd) [cu "∇"] ->
  (sign =? cu sg)%N && (field =? cu fd)%N = false ->
  replaceAll g (reMaxwell sg fd) [Text text]
    (a ++ maxwellForm sign field w1 w2 ++ b)
  = (replaceAll g (reMaxwell sg fd) [Text text] a
     ++ maxwellForm sign field w1 w2
     ++ replaceAll g (reMaxwell sg fd) [Text text] b)%list.
Proof.
  intros A1 A2 S F N1 N2 St E.
  rewrite maxwell_pass_form; auto. now rewrite E.
Qed.

(** One pass over a text with a piece of LaTeX in it that an earlier
    pass wrote. *)
Lemma maxwell_pass_text (x a b : jsstring) :
  x <> [] -> stops (cu sg) (cu fd) x -> ~ In (cu "∇") x ->
  replaceAll g (reMaxwell sg fd) [Text text] (a ++ x ++ b)
  = (replaceAll g (reMaxwell sg fd) [Text text] a ++ x
     ++ replaceAll g (reMaxwell sg fd) [Text text] b)%list.
Proof.
  intros Nx St Hx.
  assert (S2 : stops (cu sg) (cu fd) (x ++ b)).
  { destruct x; [congruence | exact St]. }
  rewrite (maxwell_local a (x ++ b) S2).
  now rewrite (maxwell_skip x b Hx).
Qed.

End MaxwellPass.


(** The four passes of the block, each with its own replacement text. *)
Lemma maxwellRewrites_form (sign field : N) (w1 w2 a b : jsstring) :
  forallb isSpace w1 = true -> forallb isSpace w2 = true ->
  sign = cu "." \/ sign = cu "×" -> field = cu "E" \/ field = cu "B" ->
  maxwellRewrites (a ++ maxwellForm sign field w1 w2 ++ b)
  = (maxwellRewrites a ++ maxwellText sign field ++ maxwellRewrites b)%list.
Proof.
  intros A1 A2 Hs Hf. unfold maxwellRewrites.
  destruct Hs as [-> | ->], Hf as [-> | ->].
  - rewrite (maxwell_pass_own "." "E" _ eq_refl eq_refl w1 w2 a b)
      by maxwell_side.
    rewrite (maxwell_pass_text "." "B" _ eq_refl eq_refl) by maxwell_side.
    rewrite (maxwell_pass_text "×" "E" _ eq_refl eq_refl) by maxwell_side.
    rewrite (maxwell_pass_text "×" "B" _ eq_refl eq_refl) by maxwell_side.
    reflexivity.
  - rewrite (maxwell_pass_other "." "E" _ eq_refl eq_refl (cu ".") (cu "B")
               w1 w2 a b) by maxwell_side.
    rewrite (maxwell_pass_own "." "B" _ eq_refl eq_refl w1 w2) by maxwell_side.
    rewrite (maxwell_pass_text "×" "E" _ eq_refl eq_refl) by maxwell_side.
    rewrite (maxwell_pass_text "×" "B" _ eq_refl eq_refl) by maxwell_side.
    reflexivity.
  - rewrite (maxwell_pass_other "." "E" _ eq_refl eq_refl (cu "×") (cu "E")
               w1 w2 a b) by maxwell_side.
    rewrite (maxwell_pass_other "." "B" _ eq_refl eq_refl (cu "×") (cu "E")
               w1 w2) by maxwell_side.
    rewrite (maxwell_pass_own "×" "E" _ eq_refl eq_refl w1 w2) by maxwell_side.
    rewrite (maxwell_pass_text "×" "B" _ eq_refl eq_refl) by maxwell_side.
    reflexivity.
  - rewrite (maxwell_pass_other "." "E" _ eq_refl eq_refl (cu "×") (cu "B")
               w1 w2 a b) by maxwell_side.
    rewrite (maxwell_pass_other "." "B" _ eq_refl eq_refl (cu "×") (cu "B")
               w1 w2) by maxwell_side.
    rewrite (maxwell_pass_other "×" "E" _ eq_refl eq_refl (cu "×") (cu "B")
               w1 w2) by maxwell_side.
    rewrite (maxwell_pass_own "×" "B" _ eq_refl eq_refl w1 w2) by maxwell_side.
    reflexivity.
Qed.


(** ** Greek material lies in the Greek blocks *)

Lemma upperRuns_outside : forallb runOutsideCapitals upperRuns = true.
Proof. vm_compute. reflexivity. Qed.

Lemma inRanges_within (x lo hi : N) (rs : list (N * N)) :
  existsb (fun b => (fst b <=? lo)%N && (hi <=? snd b)%N) rs = true ->
  (lo <= x <= hi)%N -> inRanges x rs = true.
Proof.
  intros H [L U]. apply existsb_exists in H. destruct H as [b [Hb H]].
  apply andb_prop in H. destruct H as [H1 H2].
  apply N.leb_le in H1. apply N.leb_le in H2.
  unfold inRanges. apply existsb_exists. exists b. split; [exact Hb |].
  apply andb_true_intro. split; apply N.leb_le; lia.
Qed.

Lemma canonical_capital (x : N) :
  (0x391 <= canonicalize true x <= 0x3A9)%N -> inRanges x greekBlocks = true.
Proof.
  unfold canonicalize, toUpperCase. intros H.
  assert (S : (0x391 <= x <= 0x3A9)%N -> inRanges x greekBlocks = true).
  { intros [L U]. unfold inRanges, greekBlocks. simpl.
    replace (880 <=? x)%N with true by (symmetry; apply N.leb_le; lia).
    replace (x <=? 1023)%N with true by (symmetry; apply N.leb_le; lia).
    reflexivity. }
  destruct (find (inRun x) upperRuns) as [[[[lo hi] stride] up] |] eqn:F.
  - apply find_some in F. destruct F as [Hr Hx].
    pose proof upperRuns_outside as O. rewrite forallb_forall in O.
    specialize (O _ Hr). unfold runOutsideCapitals in O.
    unfold inRun in Hx. apply andb_prop in Hx. destruct Hx as [Hx _].
    apply andb_prop in Hx. destruct Hx as [Hlo Hhi].
    apply N.leb_le in Hlo. apply N.leb_le in Hhi.
    destruct ((128 <=? x)%N && (up + (x - lo) <? 128)%N); [now apply S |].
    apply orb_prop in O. destruct O as [O | O].
    + apply orb_prop in O. destruct O as [O | O].
      * apply N.ltb_lt in O. lia.
      * apply N.ltb_lt in O. lia.
    + apply (inRanges_within x lo hi greekBlocks O). lia.
  - destruct ((128 <=? x)%N && (x <? 128)%N); now apply S.
Qed.

Lemma glyph_capitals :
  forallb (fun e =>
             (0x391 <=? canonicalize true (cu (snd e)))%N
             && (canonicalize true (cu (snd e)) <=? 0x3A9)%N
             && Nat.eqb (length (js (snd e))) 1) greekLetters = true.
Proof. vm_compute. reflexivity. Qed.

(** Whatever a glyph of the table matches is a code unit of the Greek
    blocks, the micro sign or the combining iota subscript. *)
Lemma isGreekGlyph_blocks (x : N) :
  isGreekGlyph x = true -> inRanges x greekBlocks = true.
Proof.
  unfold isGreekGlyph. intros H. apply existsb_exists in H.
  destruct H as [e [He H]].
  pose proof glyph_capitals as G. rewrite forallb_forall in G.
  specialize (G e He). apply andb_prop in G. destruct G as [G G3].
  apply andb_prop in G. destruct G as [G1 G2].
  apply N.leb_le in G1. apply N.leb_le in G2. apply Nat.eqb_eq in G3.
  destruct (js (snd e)) as [| sigma [| ? ?]] eqn:Es;
    [discriminate G3 | | discriminate G3].
  assert (Ec : cu (snd e) = sigma) by (unfold cu; now rewrite Es).
  rewrite Ec in G1, G2. simpl in H. rewrite andb_true_r in H.
  unfold charEq in H. apply N.eqb_eq in H. cbn [ignoreCase gi] in H.
  apply canonical_capital. rewrite <- H. lia.
Qed.

(** So a text with no code unit from those blocks has no Greek material. *)
Lemma hasGreekGlyph_blocks (s : jsstring) :
  forallb (fun x => negb (inRanges x greekBlocks)) s = true ->
  hasGreekGlyph s = false.
Proof.
  intros H. unfold hasGreekGlyph.
  destruct (existsb isGreekGlyph s) eqn:E; [| reflexivity].
  apply existsb_exists in E. destruct E as [x [Hx E]].
  rewrite forallb_forall in H. specialize (H x Hx).
  rewrite (isGreekGlyph_blocks x E) in H. discriminate H.
Qed.


(** ** Concrete inputs, and the Maxwell block as a whole *)

(** The literals of this file denote the code units meant. *)
Lemma code_units_of_literals :
  js "μν" = [0x3BC; 0x3BD]%N /\ cu "Λ" = 0x39B%N /\ cu "Ψ" = 0x3A8%N
  /\ cu "α" = 0x3B1%N /\ cu "ω" = 0x3C9%N /\ cu "Α" = 0x391%N
  /\ cu "Ω" = 0x3A9%N /\ cu "∇" = 0x2207%N /\ cu "∂" = 0x2202%N
  /\ cu "×" = 0xD7%N /\ cu "ħ" = 0x127%N /\ js "\" = [0x5C]%N.
Proof. conjs; run. Qed.

(** The examples the description of the rewriter and detector gives. *)
Lemma rewriter_examples :
  processToLatex (js "x_1") = js "x_{1}"
  /\ processToLatex (js "x^2") = js "x^{2}"
  /\ processToLatex (js "a/b") = js "\frac{a}{b}"
  /\ processToLatex (js "∇ . E = ∇×B")
     = js "\nabla \cdot \vec{E} = \nabla \times \vec{B}".
Proof. conjs; run. Qed.

Lemma detector_examples :
  hasSubscripts (detectPatterns (js "x_1")) = true
  /\ hasGreekLetters (detectPatterns (js "plain text")) = false
  /\ hasGreekLetters (detectPatterns (js "2πr")) = true.
Proof. conjs; run. Qed.

(** What counts as Greek material: the glyphs of the table, their
    capitals, and the look-alikes with the same upper case, such as the
    final sigma and the micro sign; no ASCII code unit. *)
Lemma greek_glyph_examples :
  isGreekGlyph (cu "μ") = true /\ isGreekGlyph (cu "Μ") = true
  /\ isGreekGlyph (cu "ς") = true /\ isGreekGlyph 0xB5%N = true
  /\ existsb isGreekGlyph (enumRange (0, 127)%N) = false.
Proof. conjs; run. Qed.


Lemma maxwellGuard_form (sign field : N) (w1 w2 a b : jsstring) :
  field = cu "E" \/ field = cu "B" ->
  maxwellGuard (a ++ maxwellForm sign field w1 w2 ++ b) = true.
Proof.
  intros Hf. unfold maxwellGuard.
  assert (I : forall c, In c (maxwellForm sign field w1 w2) ->
                includes (a ++ maxwellForm sign field w1 w2 ++ b) [c] = true).
  { intros c Hc. apply includes_single. apply in_or_app. right.
    apply in_or_app. now left. }
  assert (F : In field (maxwellForm sign field w1 w2)).
  { unfold maxwellForm. right. apply in_or_app. right. right.
    apply in_or_app. right. now left. }
  change (js "∇") with [cu "∇"]. rewrite (I (cu "∇")) by now left.
  destruct Hf; subst field.
  - change (js "E") with [cu "E"]. now rewrite (I (cu "E") F).
  - change (js "B") with [cu "B"]. rewrite (I (cu "B") F).
    now rewrite orb_true_r.
Qed.

(** C8, as the code has it: the Maxwell block acts on the text as it is
    after the four earlier passes.  Every occurrence there of [∇], a dot
    or a cross and [E] or [B], with any white space around the sign, is
    replaced by its LaTeX form; what stands in front of it and behind it
    is rewritten by the same block on its own. *)
Theorem maxwell_occurrences_rewritten
    (input a b w1 w2 : jsstring) (sign field : N) :
  greekPass (structuralPasses input)
  = (a ++ maxwellForm sign field w1 w2 ++ b)%list ->
  forallb isSpace w1 = true -> forallb isSpace w2 = true ->
  sign = cu "." \/ sign = cu "×" -> field = cu "E" \/ field = cu "B" ->
  processToLatex input
  = (maxwellRewrites a ++ maxwellText sign field ++ maxwellRewrites b)%list.
Proof.
  intros E A1 A2 Hs Hf. rewrite processToLatex_maxwell, E.
  rewrite (maxwellGuard_form sign field w1 w2 a b Hf).
  now apply maxwellRewrites_form.
Qed.

(** The theorem at ["∇ . E = ∇×B"], split at its first occurrence. *)
Lemma maxwell_occurrences_rewritten_witness :
  processToLatex (js "∇ . E = ∇×B")
  = js "\nabla \cdot \vec{E} = \nabla \times \vec{B}".
Proof.
  apply (maxwell_occurrences_rewritten (js "∇ . E = ∇×B") [] (js " = ∇×B")
           (js " ") (js " ") (cu ".") (cu "E")).
  - vm_compute. reflexivity.
  - reflexivity.
  - reflexivity.
  - left. reflexivity.
  - left. reflexivity.
Defined.

(** C8 as stated fails: the input ["∇.E/2"] contains [∇], [E] and the
    occurrence [∇.E], but the fraction pass turns [E/2] into a fraction
    first, and the output holds no [\nabla \cdot \vec{E}]. *)
Lemma maxwell_occurrence_lost_to_fraction :
  includes (js "∇.E/2") (js "∇") = true
  /\ includes (js "∇.E/2") (js "E") = true
  /\ includes (js "∇.E/2") (js "∇.E") = true
  /\ processToLatex (js "∇.E/2") = js "∇.\frac{E}{2}"
  /\ includes (processToLatex (js "∇.E/2")) (js "\nabla \cdot \vec{E}")
     = false.
Proof. conjs; run. Qed.

(** C1 at the placeholder expression of the input field: it contains [G],
    [μν], [Λ], [T] and [8πG], but the Greek-letter pass has rewritten
    every glyph before the Einstein guard is tested, so none of the
    promised substrings is in the output. *)
Theorem einstein_rewrites_missing_on_placeholder :
  let input := js "G_μν + Λg_μν = c^4/(8πG) T_μν" in
  (includes input (js "G") = true /\ includes input (js "μν") = true
   /\ includes input (js "Λ") = true /\ includes input (js "T") = true
   /\ includes input (js "8πG") = true)
  /\ processToLatex input
     = js "G_\mu\nu + \lambdag_\mu\nu = c^{4}/(8\piG) T_\mu\nu"
  /\ includes (processToLatex input) (js "G_{\mu\nu}") = false
  /\ includes (processToLatex input) (js "\Lambda g_{\mu\nu}") = false
  /\ includes (processToLatex input) (js "T_{\mu\nu}") = false
  /\ includes (processToLatex input) (js "8\pi G") = false
  /\ einsteinRewrites input
     = js "G_{\mu\nu} + \Lambda g_{\mu\nu} = c^{4}/(8\pi G) T_{\mu\nu}".
Proof. intro input. conjs; run. Qed.

(** C3, as the code has it: the component's copy stops after the Einstein
    block.  On every input on which the Maxwell guard does not hold for
    the component's output the two return the same text; on every other
    input the utility returns the component's output rewritten by the
    four replacements of the Maxwell block. *)
Theorem processInput_agrees_unless_maxwell (input : jsstring) :
  (maxwellGuard (processInput input) = false ->
   processToLatex input = processInput input)
  /\ (maxwellGuard (processInput input) = true ->
      processToLatex input = maxwellRewrites (processInput input)).
Proof.
  rewrite (processInput_passes input).
  rewrite (processToLatex_maxwell input).
  split; intros H; rewrite H; reflexivity.
Qed.

(** The theorem at ["x_1 + alpha/2"], where the guard does not hold, and
    at ["∇.E"], where it does. *)
Lemma processInput_agrees_unless_maxwell_witness :
  (maxwellGuard (processInput (js "x_1 + alpha/2")) = false
   /\ processToLatex (js "x_1 + alpha/2") = processInput (js "x_1 + alpha/2"))
  /\ (maxwellGuard (processInput (js "∇.E")) = true
      /\ processToLatex (js "∇.E") = maxwellRewrites (processInput (js "∇.E"))).
Proof.
  assert (H1 : maxwellGuard (processInput (js "x_1 + alpha/2")) = false)
    by (vm_compute; reflexivity).
  assert (H2 : maxwellGuard (processInput (js "∇.E")) = true)
    by (vm_compute; reflexivity).
  split.
  - split; [exact H1 |].
    exact (proj1 (processInput_agrees_unless_maxwell (js "x_1 + alpha/2")) H1).
  - split; [exact H2 |].
    exact (proj2 (processInput_agrees_unless_maxwell (js "∇.E")) H2).
Defined.

(** C3 as stated fails: on ["∇.E"] the utility rewrites the divergence
    and the component's copy does not. *)
Lemma processInput_differs_on_divergence :
  processToLatex (js "∇.E") = js "\nabla \cdot \vec{E}"
  /\ processInput (js "∇.E") = js "∇.E"
  /\ processToLatex (js "∇.E") <> processInput (js "∇.E").
Proof. conjs; run. Qed.

(** C4, as the code has it: a Greek letter name becomes its command, and
    the command is not a fixed point: [\b] holds between the backslash
    and the name, so a further application puts a second backslash in
    front. *)
Theorem greek_command_gains_backslash :
  Forall (fun e =>
            processToLatex (js (fst e)) = js ("\" ++ fst e)
            /\ processToLatex (js ("\" ++ fst e)) = js ("\\" ++ fst e))
         greekLetters.
Proof.
  repeat (apply Forall_cons; [conjs; run |]). apply Forall_nil.
Qed.

(** C4 as stated fails at ["delta"]. *)
Lemma greek_command_not_fixed :
  processToLatex (js "\delta") = js "\\delta"
  /\ processToLatex (processToLatex (js "delta"))
     <> processToLatex (js "delta").
Proof. conjs; run. Qed.

(** C7 as stated fails: with a line break inside the chain the seven
    tokens are still in order, but [.] does not match a line terminator. *)
Lemma chain_broken_by_newline :
  let input := (js "G μν Λ g μν" ++ [10%N] ++ js "T μν")%list in
  inOrder einsteinTokens input = true
  /\ isEinsteinEquation (detectPatterns input) = false.
Proof. intro input. conjs; run. Qed.


(** C10: the capital of every glyph of the table is rewritten to the
    lower-case command of its entry. *)
Theorem capital_glyphs_rewritten :
  Forall (fun e =>
            toUpperCase (cu (snd e)) <> cu (snd e)
            /\ processToLatex [toUpperCase (cu (snd e))] = js ("\" ++ fst e))
         greekLetters
  /\ processToLatex (js "Δ") = js "\delta"
  /\ processToLatex (js "Λ") = js "\lambda"
  /\ processToLatex (js "Ψ") = js "\psi"
  /\ processToLatex (js "Ω") = js "\omega".
Proof.
  split.
  - repeat (apply Forall_cons; [conjs; run |]). apply Forall_nil.
  - conjs; run.
Qed.

(** C5 at ["x_1^2 + a/b"]. *)
Lemma idempotent_without_greek_or_triggers_witness :
  processToLatex (processToLatex (js "x_1^2 + a/b"))
  = processToLatex (js "x_1^2 + a/b").
Proof.
  apply (idempotent_without_greek_or_triggers (js "x_1^2 + a/b"));
    vm_compute; reflexivity.
Defined.

(** C6 at ["(2x + 3) = y"] and at the empty string. *)
Lemma identity_without_triggers_witness :
  processToLatex (js "(2x + 3) = y") = js "(2x + 3) = y"
  /\ processToLatex [] = [].
Proof.
  split.
  - apply (identity_without_triggers (js "(2x + 3) = y"));
      vm_compute; reflexivity.
  - apply (identity_without_triggers []); vm_compute; reflexivity.
Defined.


(** * Further properties of the rewriter, the detector and the component *)

(** ** Replacements that lengthen the text *)

Section Growth.

Variables (f : flags) (r : regex) (tmpl : list piece).
Hypothesis r_nonEmpty : nonEmpty r = true.
Hypothesis r_grows : forall p m s st,
  m <> [] -> matchAt f r p (m ++ s) = Some st -> rest st = s ->
  length m < length (expand tmpl (caps st)).

Lemma searchFrom_cons (p : option N) (c : N) (s : jsstring) :
  searchFrom f r p (c :: s)
  = match matchAt f r p (c :: s) with
    | Some _ => true
    | None => searchFrom f r (Some c) s
    end.
Proof. reflexivity. Qed.

Lemma growth (s : jsstring) (p : option N) :
  length s <= length (replaceFrom f r tmpl p s 0)
  /\ (searchFrom f r p s = true ->
      length s < length (replaceFrom f r tmpl p s 0))
  /\ (searchFrom f r p s = false -> replaceFrom f r tmpl p s 0 = s).
Proof.
  revert s p.
  apply (replace_ind f r tmpl r_nonEmpty
           (fun p s o =>
              length s <= length o
              /\ (searchFrom f r p s = true -> length s < length o)
              /\ (searchFrom f r p s = false -> o = s))).
  - intros p. split; [reflexivity |]. split; [| reflexivity].
    simpl. rewrite (matchAt_nil f r r_nonEmpty p). discriminate.
  - intros p c s E [L [G U]]. rewrite searchFrom_cons, E.
    split; [simpl; lia |]. split.
    + intros H. simpl. apply G in H. lia.
    + intros H. f_equal. now apply U.
  - intros p m s st Hm E Er [L _].
    pose proof (r_grows p m s st Hm E Er) as G.
    assert (T : searchFrom f r p (m ++ s) = true).
    { destruct m as [| c m]; [congruence |].
      change ((c :: m) ++ s)%list with (c :: (m ++ s)%list) in *.
      rewrite searchFrom_cons. now rewrite E. }
    rewrite T. rewrite !length_app.
    split; [lia |]. split; [intros _; lia | discriminate].
Qed.

(** The replacement leaves the text as it is exactly where the pattern
    matches nowhere, and lengthens it otherwise. *)
Lemma replaceAll_length (s : jsstring) :
  length s <= length (replaceAll f r tmpl s).
Proof. apply growth. Qed.

Lemma replaceAll_unchanged_iff (s : jsstring) :
  replaceAll f r tmpl s = s <-> test f r s = false.
Proof.
  unfold replaceAll, test. destruct (growth s None) as [_ [G U]]. split.
  - intros E. destruct (searchFrom f r None s); [| reflexivity].
    specialize (G eq_refl). rewrite E in G. lia.
  - exact U.
Qed.

Lemma replaceAll_same_length (s : jsstring) :
  length (replaceAll f r tmpl s) = length s -> replaceAll f r tmpl s = s.
Proof.
  intros E. apply replaceAll_unchanged_iff. unfold test.
  destruct (growth s None) as [_ [G _]].
  destruct (searchFrom f r None s); [| reflexivity].
  specialize (G eq_refl). unfold replaceAll in E. lia.
Qed.

End Growth.

(** ** Every structural match and every Greek match is lengthened *)

Lemma app_same_tail (m m' s : jsstring) :
  (m ++ s)%list = (m' ++ s)%list -> m = m'.
Proof. apply app_inv_tail. Qed.

Lemma subscript_grows (p : option N) (m s : jsstring) (st : mstate) :
  m <> [] -> matchAt g reSubscript p (m ++ s) = Some st -> rest st = s ->
  length m < length (expand toSubscript (caps st)).
Proof.
  intros _ E Er. rewrite matchAt_subscript in E.
  destruct (tripleAt isLetter (cu "_") isAlnum (m ++ s))
    as [[[a body] rr] |] eqn:T; [| discriminate].
  inversion E; subst st; clear E. cbn [rest caps] in *. subst rr.
  unfold tripleAt in T.
  destruct (m ++ s)%list as [| a' [| u [| b s3]]] eqn:Em; try discriminate.
  destruct (isLetter a' && (u =? cu "_")%N && isAlnum b); [| discriminate].
  inversion T; subst a body s; clear T.
  assert (M : m = a' :: u :: b :: run isAlnum s3).
  { apply (app_same_tail _ _ (afterRun isAlnum s3)). rewrite Em.
    simpl. now rewrite <- run_afterRun. }
  subst m. change (expand toSubscript _)
    with (a' :: cu "_" :: cu "{" :: ((b :: run isAlnum s3) ++ [cu "}"]))%list.
  simpl. rewrite length_app. simpl. lia.
Qed.

Lemma superscript_grows (p : option N) (m s : jsstring) (st : mstate) :
  m <> [] -> matchAt g reSuperscript p (m ++ s) = Some st -> rest st = s ->
  length m < length (expand toSuperscript (caps st)).
Proof.
  intros _ E Er. rewrite matchAt_superscript in E.
  destruct (tripleAt isAlnum (cu "^") isAlnum (m ++ s))
    as [[[a body] rr] |] eqn:T; [| discriminate].
  inversion E; subst st; clear E. cbn [rest caps] in *. subst rr.
  unfold tripleAt in T.
  destruct (m ++ s)%list as [| a' [| u [| b s3]]] eqn:Em; try discriminate.
  destruct (isAlnum a' && (u =? cu "^")%N && isAlnum b); [| discriminate].
  inversion T; subst a body s; clear T.
  assert (M : m = a' :: u :: b :: run isAlnum s3).
  { apply (app_same_tail _ _ (afterRun isAlnum s3)). rewrite Em.
    simpl. now rewrite <- run_afterRun. }
  subst m. change (expand toSuperscript _)
    with (a' :: cu "^" :: cu "{" :: ((b :: run isAlnum s3) ++ [cu "}"]))%list.
  simpl. rewrite length_app. simpl. lia.
Qed.

Lemma fraction_grows (p : option N) (m s : jsstring) (st : mstate) :
  m <> [] -> matchAt g reFraction p (m ++ s) = Some st -> rest st = s ->
  length m < length (expand toFraction (caps st)).
Proof.
  intros _ E Er. rewrite matchAt_fraction in E.
  destruct (fractionAt (m ++ s)) as [[[num den] rr] |] eqn:T;
    [| discriminate].
  inversion E; subst st; clear E. cbn [rest caps] in *. subst rr.
  apply fractionAt_Some in T. destruct T as [Em _].
  assert (M : m = (num ++ cu "/" :: den)%list).
  { apply (app_same_tail _ _ s). rewrite Em. rewrite <- app_assoc.
    reflexivity. }
  subst m.
  change (expand toFraction [(2, den); (1, num)])
    with (js "\frac{" ++ num ++ js "}{" ++ den ++ js "}")%list.
  rewrite !length_app. simpl. lia.
Qed.

Lemma isPrefixBy_length (eq : N -> N -> bool) (w s : jsstring) :
  isPrefixBy eq w s = true -> length w <= length s.
Proof.
  revert s. induction w as [| a w IH]; intros s H; simpl; [lia |].
  destruct s as [| b s]; [discriminate |]. simpl in H.
  apply andb_prop in H. destruct H as [_ H]. apply IH in H. simpl. lia.
Qed.

Lemma nonEmpty_lit (w : jsstring) : nonEmpty (lit w) = true -> w <> [].
Proof. destruct w; [discriminate | discriminate]. Qed.

Lemma js_backslash (name : string) : js ("\" ++ name) = cu "\" :: js name.
Proof. reflexivity. Qed.

Section GreekGrowth.

Variables (name symbol : string) (sigma : N).
Hypothesis one_unit : js symbol = [sigma].
Hypothesis name_nonEmpty : nonEmpty (reGreek name symbol) = true.

(** A match of an entry's pattern covers the name or one code unit. *)
Lemma greek_match_rest (p : option N) (s : jsstring) (st : mstate) :
  matchAt gi (reGreek name symbol) p s = Some st ->
  exists n, (n = length (js name) \/ n = 1)
            /\ n <= length s /\ rest st = skipn n s.
Proof.
  unfold matchAt, reGreek. cbn [matcher]. intros H.
  apply orElse_Some in H. destruct H as [H | [_ H]].
  - destruct (atWordBoundary _); [| discriminate].
    rewrite matcher_lit in H. cbn [rest] in H.
    destruct (isPrefixBy (charEq gi) (js name) s) eqn:P; [| discriminate].
    destruct (atWordBoundary _); [| discriminate].
    inversion H; subst st; clear H.
    exists (length (js name)). split; [now left |].
    split; [exact (isPrefixBy_length _ _ _ P) | reflexivity].
  - rewrite matcher_lit in H. cbn [rest] in H. rewrite one_unit in H.
    destruct (isPrefixBy (charEq gi) [sigma] s) eqn:P; [| discriminate].
    inversion H; subst st; clear H.
    exists 1. split; [now right |].
    split; [exact (isPrefixBy_length _ _ _ P) | reflexivity].
Qed.

Lemma name_length : 1 <= length (js name).
Proof.
  assert (N0 : js name <> []).
  { apply nonEmpty_lit. simpl in name_nonEmpty.
    apply andb_prop in name_nonEmpty. destruct name_nonEmpty as [H _].
    now rewrite orb_false_r in H. }
  destruct (js name); [congruence | simpl; lia].
Qed.

Lemma greek_grows (p : option N) (m s : jsstring) (st : mstate) :
  m <> [] -> matchAt gi (reGreek name symbol) p (m ++ s) = Some st ->
  rest st = s ->
  length m < length (expand (toGreek name) (caps st)).
Proof.
  intros _ E Er. apply greek_match_rest in E.
  destruct E as [n [Hn [Ln Rn]]]. rewrite Er in Rn.
  assert (Lm : length m = n).
  { apply (f_equal (@length N)) in Rn. rewrite length_skipn in Rn.
    rewrite length_app in *. lia. }
  unfold toGreek, expand. cbn [flat_map]. rewrite app_nil_r.
  rewrite js_backslash. cbn [length]. pose proof name_length.
  destruct Hn; lia.
Qed.

Lemma greekStep_lengthens :
  lengthens (fun s => greekStep s (name, symbol)).
Proof.
  intros s. unfold greekStep. cbn [fst snd]. split.
  - apply (replaceAll_length gi _ _ name_nonEmpty greek_grows).
  - apply (replaceAll_same_length gi _ _ name_nonEmpty greek_grows).
Qed.

End GreekGrowth.

(** ** Passes that lengthen, one after the other *)

Lemma lengthens_compose (h k : jsstring -> jsstring) :
  lengthens h -> lengthens k -> lengthens (fun s => k (h s)).
Proof.
  intros Hh Hk s. destruct (Hh s) as [L1 E1]. destruct (Hk (h s)) as [L2 E2].
  split; [lia |]. intros E.
  assert (A : h s = s) by (apply E1; lia).
  rewrite A in *. apply E2. exact E.
Qed.

Lemma lengthens_fold (l : list (string * string)) :
  (forall e, In e l -> lengthens (fun s => greekStep s e)) ->
  lengthens (fun s => fold_left greekStep l s).
Proof.
  induction l as [| e l IH]; intros H.
  - intros s. simpl. split; [lia | reflexivity].
  - simpl. apply (lengthens_compose (fun s => greekStep s e)
                    (fun s => fold_left greekStep l s)).
    + apply H. now left.
    + apply IH. intros e0 He. apply H. now right.
Qed.

Lemma subscript_lengthens : lengthens (replaceAll g reSubscript toSubscript).
Proof.
  intros s. split.
  - apply (replaceAll_length g reSubscript toSubscript eq_refl subscript_grows).
  - apply (replaceAll_same_length g reSubscript toSubscript eq_refl subscript_grows).
Qed.

Lemma superscript_lengthens :
  lengthens (replaceAll g reSuperscript toSuperscript).
Proof.
  intros s. split.
  - apply (replaceAll_length g reSuperscript toSuperscript eq_refl superscript_grows).
  - apply (replaceAll_same_length g reSuperscript toSuperscript eq_refl superscript_grows).
Qed.

Lemma fraction_lengthens : lengthens (replaceAll g reFraction toFraction).
Proof.
  intros s. split.
  - apply (replaceAll_length g reFraction toFraction eq_refl fraction_grows).
  - apply (replaceAll_same_length g reFraction toFraction eq_refl fraction_grows).
Qed.

Lemma structuralPasses_lengthens : lengthens structuralPasses.
Proof.
  unfold structuralPasses.
  apply (lengthens_compose
           (fun s => replaceAll g reSuperscript toSuperscript
                       (replaceAll g reSubscript toSubscript s))
           (replaceAll g reFraction toFraction)).
  - apply (lengthens_compose (replaceAll g reSubscript toSubscript)
             (replaceAll g reSuperscript toSuperscript)).
    + exact subscript_lengthens.
    + exact superscript_lengthens.
  - exact fraction_lengthens.
Qed.

Lemma greekPass_lengthens : lengthens greekPass.
Proof.
  unfold greekPass. apply lengthens_fold. intros e He.
  assert (F : foldable e = true).
  { pose proof greekLetters_foldable as G.
    rewrite forallb_forall in G. now apply G. }
  unfold foldable in F. apply andb_prop in F. destruct F as [F _].
  apply andb_prop in F. destruct F as [F1 F2]. apply Nat.eqb_eq in F1.
  destruct e as [name symbol]. cbn [fst snd] in F1, F2.
  destruct (js symbol) as [| sigma [| ? ?]] eqn:Es;
    [discriminate F1 | | discriminate F1].
  exact (greekStep_lengthens name symbol sigma Es F2).
Qed.

Lemma processInput_lengthens : lengthens processInput.
Proof.
  intros s. rewrite processInput_passes.
  exact (lengthens_compose structuralPasses greekPass
           structuralPasses_lengthens greekPass_lengthens s).
Qed.


(** ** Where the code units of the output come from *)

Section TextReplacement.

Variables (f : flags) (r : regex) (text : jsstring).
Hypothesis r_nonEmpty : nonEmpty r = true.

Lemma replace_text_In (s : jsstring) (x : N) :
  In x (replaceAll f r [Text text] s) -> In x s \/ In x text.
Proof.
  unfold replaceAll. revert x.
  apply (replace_ind f r [Text text] r_nonEmpty
           (fun _ s o => forall x, In x o -> In x s \/ In x text)).
  - intros _ x [].
  - intros p c s0 _ IH x [Hx | Hx]; [left; now left |].
    destruct (IH x Hx) as [H | H]; [left; now right | now right].
  - intros p m s0 st _ _ _ IH x Hx. apply in_app_or in Hx.
    destruct Hx as [Hx | Hx].
    + right. unfold expand in Hx. simpl in Hx. now rewrite app_nil_r in Hx.
    + destruct (IH x Hx) as [H | H]; [| now right].
      left. apply in_or_app. now right.
Qed.

Lemma replace_text_nonempty (s : jsstring) :
  text <> [] -> s <> [] -> replaceAll f r [Text text] s <> [].
Proof.
  intros Ht Hs. destruct s as [| c s]; [congruence |].
  unfold replaceAll. rewrite replaceFrom_cons.
  destruct (matchAt f r None (c :: s)); [| discriminate].
  unfold expand. simpl flat_map. rewrite app_nil_r.
  destruct text; [congruence | discriminate].
Qed.

End TextReplacement.

Lemma maxwellRewrites_In (p : jsstring) (x : N) :
  In x (maxwellRewrites p) -> In x p \/ In x maxwellTexts.
Proof.
  unfold maxwellRewrites, maxwellTexts. intros H.
  apply (replace_text_In g (reMaxwell "×" "B") _ eq_refl) in H.
  destruct H as [H | H]; [| right; repeat (apply in_or_app; right); exact H].
  apply (replace_text_In g (reMaxwell "×" "E") _ eq_refl) in H.
  destruct H as [H | H];
    [| right; do 2 (apply in_or_app; right); apply in_or_app; now left].
  apply (replace_text_In g (reMaxwell "." "B") _ eq_refl) in H.
  destruct H as [H | H];
    [| right; apply in_or_app; right; apply in_or_app; now left].
  apply (replace_text_In g (reMaxwell "." "E") _ eq_refl) in H.
  destruct H as [H | H]; [now left | right; apply in_or_app; now left].
Qed.

Lemma maxwellRewrites_nonempty (p : jsstring) :
  p <> [] -> maxwellRewrites p <> [].
Proof.
  intros H. unfold maxwellRewrites.
  apply (replace_text_nonempty g (reMaxwell "×" "B")); [discriminate |].
  apply (replace_text_nonempty g (reMaxwell "×" "E")); [discriminate |].
  apply (replace_text_nonempty g (reMaxwell "." "B")); [discriminate |].
  apply (replace_text_nonempty g (reMaxwell "." "E")); [discriminate |].
  exact H.
Qed.

Lemma processToLatex_In (s : jsstring) (x : N) :
  In x (processToLatex s) ->
  In x (greekPass (structuralPasses s)) \/ In x maxwellTexts.
Proof.
  rewrite processToLatex_maxwell.
  destruct (maxwellGuard _); intros H.
  - exact (maxwellRewrites_In _ x H).
  - left. exact H.
Qed.

Lemma maxwellTexts_plain :
  forallb (fun x => isAscii x && negb (isGreekGlyph x)) maxwellTexts = true.
Proof. vm_compute. reflexivity. Qed.

(** No Greek material is left in the output. *)
Lemma processToLatex_no_glyph (s : jsstring) (x : N) :
  In x (processToLatex s) -> isGreekGlyph x = false.
Proof.
  intros H. apply processToLatex_In in H. destruct H as [H | H].
  - exact (greekPass_no_glyph _ x H).
  - pose proof maxwellTexts_plain as P. rewrite forallb_forall in P.
    specialize (P x H). apply andb_prop in P. destruct P as [_ P].
    now apply negb_true_iff.
Qed.

Lemma greekTexts_ascii :
  forallb (fun e => forallb isAscii (js ("\" ++ fst e))) greekLetters = true.
Proof. vm_compute. reflexivity. Qed.

Lemma greekFold_In (l : list (string * string)) :
  (forall e, In e l -> In e greekLetters) ->
  forall s x, In x (fold_left greekStep l s) -> In x s \/ isAscii x = true.
Proof.
  induction l as [| e l IH]; intros Hl s x Hx; simpl in Hx; [now left |].
  apply IH in Hx; [| intros e0 He; apply Hl; now right].
  destruct Hx as [Hx | Hx]; [| now right].
  assert (T : In e greekLetters) by (apply Hl; now left).
  assert (F : foldable e = true).
  { pose proof greekLetters_foldable as G.
    rewrite forallb_forall in G. now apply G. }
  unfold foldable in F. apply andb_prop in F. destruct F as [F _].
  apply andb_prop in F. destruct F as [F1 F2]. apply Nat.eqb_eq in F1.
  destruct e as [name symbol]. cbn [fst snd] in F1, F2.
  destruct (js symbol) as [| sigma [| ? ?]] eqn:Es;
    [discriminate F1 | | discriminate F1].
  destruct (greekStep_chars name symbol sigma Es F2 s x Hx) as [H | [H _]];
    [| now left].
  right. pose proof greekTexts_ascii as A. rewrite forallb_forall in A.
  specialize (A (name, symbol) T). cbn [fst] in A.
  rewrite forallb_forall in A. now apply A.
Qed.

(** Whatever the rewriter puts into the text is ASCII. *)
Lemma processToLatex_origin (s : jsstring) (x : N) :
  In x (processToLatex s) -> In x s \/ isAscii x = true.
Proof.
  intros H. apply processToLatex_In in H. destruct H as [H | H].
  - apply (greekFold_In greekLetters (fun e He => He)) in H.
    destruct H as [H | H]; [| now right].
    apply structuralPasses_In in H. destruct H as [H | H]; [now left |].
    right. simpl in H.
    repeat (destruct H as [H | H]; [subst x; reflexivity |]). contradiction.
  - right. pose proof maxwellTexts_plain as P. rewrite forallb_forall in P.
    specialize (P x H). apply andb_prop in P. now destruct P.
Qed.

(** ** The detector's test for Greek letters *)

Lemma test_class (rs : list (N * N)) (s : jsstring) :
  test g (CharSet false rs) s = existsb (fun x => inRanges x rs) s.
Proof.
  unfold test. generalize (@None N).
  induction s as [| c s IH]; intros p; [reflexivity |].
  simpl searchFrom. unfold matchAt. cbn [matcher]. rewrite one_cons.
  change (xorb false (inClass g rs c)) with (inRanges c rs).
  simpl existsb. destruct (inRanges c rs); [reflexivity | apply IH].
Qed.

Lemma enumRange_In (lo hi x : N) :
  (lo <= x <= hi)%N -> In x (enumRange (lo, hi)).
Proof.
  intros [L U]. unfold enumRange. cbn [fst snd].
  rewrite <- (N2Nat.id x). apply in_map. apply in_seq. lia.
Qed.

Lemma detectorGreek_glyphs :
  forallb (fun rng =>
             forallb (fun x => isGreekGlyph x || (x =? 0x3A2)%N)
               (enumRange rng)) detectorGreek = true.
Proof. vm_compute. reflexivity. Qed.

(** What the detector takes for a Greek letter is Greek material for the
    rewriter, but for the unassigned code point between [Ρ] and [Σ]. *)
Lemma detectorGreek_cases (x : N) :
  inRanges x detectorGreek = true ->
  isGreekGlyph x = true \/ x = 0x3A2%N.
Proof.
  unfold inRanges. intros H. apply existsb_exists in H.
  destruct H as [[lo hi] [Hr H]]. cbn [fst snd] in H.
  apply andb_prop in H. destruct H as [L U].
  apply N.leb_le in L. apply N.leb_le in U.
  pose proof detectorGreek_glyphs as G. rewrite forallb_forall in G.
  specialize (G (lo, hi) Hr). rewrite forallb_forall in G.
  specialize (G x (enumRange_In lo hi x (conj L U))).
  apply orb_prop in G. destruct G as [G | G]; [now left |].
  right. now apply N.eqb_eq.
Qed.


(** ** Classes in a chain pattern *)

Lemma class_link (rs : list (N * N)) (b : regex) (st : mstate) (k : cont)
    (x : mstate) :
  matcher g (Seq (CharSet false rs) b) st k = Some x ->
  exists c r st', rest st = c :: r /\ inRanges c rs = true
                  /\ rest st' = r /\ matcher g b st' k = Some x.
Proof.
  cbn [matcher]. intros H. apply one_sound in H.
  destruct H as [y [ys [E [Hy H]]]].
  change (xorb false (inClass g rs y)) with (inRanges y rs) in Hy.
  exists y, ys, (advance y ys st). auto.
Qed.

Lemma class_end (rs : list (N * N)) (st : mstate) (x : mstate) :
  matcher g (CharSet false rs) st Some = Some x ->
  exists c r, rest st = c :: r /\ inRanges c rs = true.
Proof.
  cbn [matcher]. intros H. apply one_sound in H.
  destruct H as [y [ys [E [Hy _]]]].
  change (xorb false (inClass g rs y)) with (inRanges y rs) in Hy.
  now exists y, ys.
Qed.

Lemma class_accepts (rs : list (N * N)) (c : N) (b : regex) (k : cont)
    (r : jsstring) :
  inRanges c rs = true ->
  accepts (fun st => matcher g b st k) r ->
  accepts (fun st => matcher g (Seq (CharSet false rs) b) st k) (c :: r).
Proof.
  intros Hc H st E. cbn [matcher]. unfold one. rewrite E.
  change (xorb false (inClass g rs c)) with (inRanges c rs). rewrite Hc.
  now apply H.
Qed.

Lemma class_accepts_end (rs : list (N * N)) (c : N) (r : jsstring) :
  inRanges c rs = true ->
  accepts (fun st => matcher g (CharSet false rs) st Some) (c :: r).
Proof.
  intros Hc st E. cbn [matcher]. unfold one. rewrite E.
  change (xorb false (inClass g rs c)) with (inRanges c rs). rewrite Hc.
  discriminate.
Qed.

Lemma inRanges_two (x a b : N) :
  inRanges x [(a, a); (b, b)] = true <-> x = a \/ x = b.
Proof.
  unfold inRanges. simpl. rewrite orb_false_r. split.
  - intros H. apply orb_prop in H. destruct H as [H | H];
      apply andb_prop in H; destruct H as [H1 H2];
      apply N.leb_le in H1; apply N.leb_le in H2; [left | right]; lia.
  - intros [-> | ->]; rewrite N.leb_refl; simpl; auto using orb_true_r.
Qed.


(** ** Fixed points of the structural passes *)

Lemma structural_fixed_tests (input : jsstring) :
  structuralPasses input = input <->
  test g reSubscript input = false
  /\ test g reSuperscript input = false
  /\ test g reFraction input = false.
Proof.
  unfold structuralPasses. split.
  - intros E.
    destruct (subscript_lengthens input) as [L1 E1].
    destruct (superscript_lengthens
                (replaceAll g reSubscript toSubscript input)) as [L2 E2].
    destruct (fraction_lengthens
                (replaceAll g reSuperscript toSuperscript
                   (replaceAll g reSubscript toSubscript input)))
      as [L3 E3].
    apply (f_equal (@length N)) in E.
    assert (A1 : replaceAll g reSubscript toSubscript input = input)
      by (apply E1; lia).
    rewrite A1 in *.
    assert (A2 : replaceAll g reSuperscript toSuperscript input = input)
      by (apply E2; lia).
    rewrite A2 in *.
    assert (A3 : replaceAll g reFraction toFraction input = input)
      by (apply E3; lia).
    split; [| split].
    + exact (proj1 (replaceAll_unchanged_iff g reSubscript toSubscript
                      eq_refl subscript_grows input) A1).
    + exact (proj1 (replaceAll_unchanged_iff g reSuperscript toSuperscript
                      eq_refl superscript_grows input) A2).
    + exact (proj1 (replaceAll_unchanged_iff g reFraction toFraction
                      eq_refl fraction_grows input) A3).
  - intros [T1 [T2 T3]].
    rewrite (proj2 (replaceAll_unchanged_iff g reSubscript toSubscript
                      eq_refl subscript_grows input) T1).
    rewrite (proj2 (replaceAll_unchanged_iff g reSuperscript toSuperscript
                      eq_refl superscript_grows input) T2).
    exact (proj2 (replaceAll_unchanged_iff g reFraction toFraction
                    eq_refl fraction_grows input) T3).
Qed.

(** ** Glyphs the equation chains need *)

Lemma einstein_chain_mu (s : jsstring) :
  test g reEinsteinChain s = true -> In (cu "μ") s.
Proof.
  unfold test. intros H. apply searchFrom_true in H.
  destruct H as [a [suf [Es M]]]. unfold matchAt in M.
  destruct (matcher g reEinsteinChain _ Some) as [x |] eqn:E;
    [clear M | congruence].
  unfold reEinsteinChain in E.
  apply char_link in E. destruct E as [r0 [st0 [E0 [R0 E]]]].
  apply any_link in E. destruct E as [x1 [r1 [st1 [E1 [A1 [R1 E]]]]]].
  apply lit_link in E. destruct E as [r2 [st2 [E2 [R2 E]]]].
  cbn [rest] in E0. rewrite Es, E0, <- R0, E1, <- R1, E2.
  apply in_or_app. right. right. apply in_or_app. right.
  apply in_or_app. left. left. reflexivity.
Qed.

Lemma schrodinger_chain_psi (s : jsstring) :
  test g reSchrodingerChain s = true ->
  In (cu "Ψ") s \/ In (cu "ψ") s.
Proof.
  unfold test. intros H. apply searchFrom_true in H.
  destruct H as [a [suf [Es M]]]. unfold matchAt in M.
  destruct (matcher g reSchrodingerChain _ Some) as [x |] eqn:E;
    [clear M | congruence].
  unfold reSchrodingerChain in E.
  apply class_link in E. destruct E as [p [r0 [st0 [E0 [C1 [R0 E]]]]]].
  cbn [rest] in E0. apply inRanges_two in C1.
  assert (I : In p s).
  { rewrite Es, E0. apply in_or_app. right. left. reflexivity. }
  destruct C1 as [C | C]; rewrite C in I; [left | right]; exact I.
Qed.

(** A code unit in one of the detector's two ranges makes its Greek flag. *)
Lemma greek_flag_by (s : jsstring) (x : N) :
  In x s -> inRanges x detectorGreek = true ->
  test g (CharSet false detectorGreek) s = true.
Proof.
  intros I R. rewrite test_class. apply existsb_exists. exists x. now split.
Qed.

(** ** The two MathML texts *)

Lemma einsteinMathML_not_wrapped (latex : jsstring) :
  einsteinMathML <> (js "<math><mrow>" ++ latex ++ js "</mrow></math>")%list.
Proof.
  intros Z. apply (f_equal (fun l => nth 6 l 0%N)) in Z.
  vm_compute in Z. discriminate Z.
Qed.


(** ** The Maxwell block as one pass over the text *)

Lemma maxwellAt_Some (sign field : N) (s r : jsstring) :
  maxwellAt sign field s = Some r ->
  exists w1 w2,
    s = (maxwellForm sign field w1 w2 ++ r)%list
    /\ forallb isSpace w1 = true /\ forallb isSpace w2 = true.
Proof.
  unfold maxwellAt, maxwellForm. destruct s as [| c s1]; [discriminate |].
  destruct (c =? cu "∇")%N eqn:Ec; [| discriminate].
  apply N.eqb_eq in Ec. subst c.
  pose proof (run_afterRun isSpace s1) as R1.
  destruct (afterRun isSpace s1) as [| d s2] eqn:A1; [discriminate |].
  destruct (d =? sign)%N eqn:Ed; [| discriminate].
  apply N.eqb_eq in Ed. subst d.
  pose proof (run_afterRun isSpace s2) as R2.
  destruct (afterRun isSpace s2) as [| e s3] eqn:A2; [discriminate |].
  destruct (e =? field)%N eqn:Ee; [| discriminate].
  apply N.eqb_eq in Ee. subst e. intros H. inversion H; subst r.
  exists (run isSpace s1), (run isSpace s2).
  split; [| split; apply run_all].
  rewrite R1 at 1. rewrite R2 at 1. cbn [app]. f_equal.
  rewrite <- !app_assoc. cbn [app]. f_equal. f_equal.
  rewrite <- app_assoc. reflexivity.
Qed.

Lemma stem_split (s : jsstring) :
  exists u y, s = (u ++ y)%list /\ ~ In (cu "∇") u /\ headStop y.
Proof.
  induction s as [| c s [u [y [E [U Y]]]]].
  - exists [], []. split; [reflexivity |]. split; [intros [] | exact I].
  - destruct (N.eq_dec c (cu "∇")) as [C | C].
    + exists [], (c :: s). split; [reflexivity |].
      split; [intros [] | left; exact C].
    + exists (c :: u), y. split; [now rewrite E |]. split; [| exact Y].
      intros [K | K]; [now apply C | now apply U].
Qed.

Section MaxwellStep.

Variables (sg fd : string) (text : jsstring).
Hypothesis sign_not_space : isSpace (cu sg) = false.
Hypothesis field_not_space : isSpace (cu fd) = false.
Hypothesis stop_nabla : stops (cu sg) (cu fd) [cu "∇"].
Hypothesis stop_backslash : stops (cu sg) (cu fd) [cu "\"].
Hypothesis text_head : exists rest, text = cu "\" :: rest.
Hypothesis text_plain : ~ In (cu "∇") text.

Lemma headStop_stops (y : jsstring) :
  headStop y -> stops (cu sg) (cu fd) y.
Proof.
  destruct y as [| h y]; [intros _; exact I |].
  intros [H | H]; rewrite H; [exact stop_nabla | exact stop_backslash].
Qed.

Lemma pass_nil : replaceAll g (reMaxwell sg fd) [Text text] [] = [].
Proof. reflexivity. Qed.

Lemma pass_plain (u : jsstring) :
  ~ In (cu "∇") u -> replaceAll g (reMaxwell sg fd) [Text text] u = u.
Proof.
  intros U.
  pose proof (maxwell_skip sg fd text sign_not_space field_not_space u []
                U) as H.
  rewrite app_nil_r, pass_nil, app_nil_r in H. exact H.
Qed.

Lemma pass_headStop (y : jsstring) :
  headStop y -> headStop (replaceAll g (reMaxwell sg fd) [Text text] y).
Proof.
  destruct y as [| c y]; [intros _; rewrite pass_nil; exact I |].
  intros H.
  destruct (maxwellAt (cu sg) (cu fd) (c :: y)) as [r |] eqn:E.
  - destruct (maxwellAt_Some _ _ _ _ E) as [w1 [w2 [Es _]]].
    rewrite Es in E |- *.
    rewrite (maxwell_hit sg fd text sign_not_space field_not_space _ r);
      [| unfold maxwellForm; discriminate | exact E].
    destruct text_head as [rest Et]. rewrite Et. right. reflexivity.
  - rewrite (maxwell_keep sg fd text sign_not_space field_not_space c y E).
    exact H.
Qed.

Lemma pass_stem (u y : jsstring) :
  maxwellAt (cu sg) (cu fd) (cu "∇" :: u) = None ->
  ~ In (cu "∇") u -> headStop y ->
  replaceAll g (reMaxwell sg fd) [Text text] ((cu "∇" :: u) ++ y)
  = ((cu "∇" :: u) ++ replaceAll g (reMaxwell sg fd) [Text text] y)%list.
Proof.
  intros M U Y.
  rewrite (maxwell_local sg fd text sign_not_space field_not_space
             (cu "∇" :: u) y (headStop_stops y Y)).
  rewrite (maxwell_keep sg fd text sign_not_space field_not_space _ u M).
  rewrite (pass_plain u U). reflexivity.
Qed.

(** Whether the pattern matches in front of a stopping text does not
    depend on that text. *)
Lemma miss_stem (u y : jsstring) :
  headStop y ->
  (maxwellAt (cu sg) (cu fd) ((cu "∇" :: u) ++ y) = None
   <-> maxwellAt (cu sg) (cu fd) (cu "∇" :: u) = None).
Proof.
  intros Y.
  rewrite (maxwellAt_app sg fd (cu "∇" :: u) y);
    [| discriminate | exact (headStop_stops y Y)].
  destruct (maxwellAt (cu sg) (cu fd) (cu "∇" :: u)); split; intros H;
    first [discriminate H | reflexivity].
Qed.

End MaxwellStep.

(** The four passes of the block, one after the other. *)

Lemma maxwellRewrites_nil : maxwellRewrites [] = [].
Proof. reflexivity. Qed.

Lemma maxwellRewrites_skip (u y : jsstring) :
  ~ In (cu "∇") u ->
  maxwellRewrites (u ++ y) = (u ++ maxwellRewrites y)%list.
Proof.
  intros U. unfold maxwellRewrites. cbv zeta.
  rewrite (maxwell_skip "." "E" _ eq_refl eq_refl u y U).
  rewrite (maxwell_skip "." "B" _ eq_refl eq_refl u _ U).
  rewrite (maxwell_skip "×" "E" _ eq_refl eq_refl u _ U).
  rewrite (maxwell_skip "×" "B" _ eq_refl eq_refl u _ U).
  reflexivity.
Qed.

Lemma text_no_nabla (sign field : N) :
  field = cu "E" \/ field = cu "B" ->
  ~ In (cu "∇") (maxwellText sign field).
Proof.
  intros F C. unfold maxwellText in C.
  assert (K : forall l : jsstring, forallb (fun x => negb (x =? cu "∇")%N) l = true ->
                ~ In (cu "∇") l).
  { intros l A I. rewrite forallb_forall in A. apply A in I.
    rewrite N.eqb_refl in I. discriminate I. }
  destruct F as [F | F]; rewrite F in C;
    destruct (sign =? cu ".")%N;
    (revert C; apply K; vm_compute; reflexivity).
Qed.

Lemma maxwellTexts_backslash :
  (exists rest, js "\nabla \cdot \vec{E}" = cu "\" :: rest)
  /\ (exists rest, js "\nabla \cdot \vec{B}" = cu "\" :: rest)
  /\ (exists rest, js "\nabla \times \vec{E}" = cu "\" :: rest)
  /\ (exists rest, js "\nabla \times \vec{B}" = cu "\" :: rest).
Proof. conjs; eexists; vm_compute; reflexivity. Qed.

Lemma divE_headStop (y : jsstring) :
  headStop y ->
  headStop (replaceAll g (reMaxwell "." "E")
              [Text (js "\nabla \cdot \vec{E}")] y).
Proof.
  destruct maxwellTexts_backslash as [T1 [T2 [T3 T4]]].
  exact (pass_headStop "." "E" (js "\nabla \cdot \vec{E}") eq_refl eq_refl T1 y).
Qed.

Lemma divB_headStop (y : jsstring) :
  headStop y ->
  headStop (replaceAll g (reMaxwell "." "B")
              [Text (js "\nabla \cdot \vec{B}")] y).
Proof.
  destruct maxwellTexts_backslash as [T1 [T2 [T3 T4]]].
  exact (pass_headStop "." "B" (js "\nabla \cdot \vec{B}") eq_refl eq_refl T2 y).
Qed.

Lemma curlE_headStop (y : jsstring) :
  headStop y ->
  headStop (replaceAll g (reMaxwell "×" "E")
              [Text (js "\nabla \times \vec{E}")] y).
Proof.
  destruct maxwellTexts_backslash as [T1 [T2 [T3 T4]]].
  exact (pass_headStop "×" "E" (js "\nabla \times \vec{E}") eq_refl eq_refl T3 y).
Qed.

Lemma curlB_headStop (y : jsstring) :
  headStop y ->
  headStop (replaceAll g (reMaxwell "×" "B")
              [Text (js "\nabla \times \vec{B}")] y).
Proof.
  destruct maxwellTexts_backslash as [T1 [T2 [T3 T4]]].
  exact (pass_headStop "×" "B" (js "\nabla \times \vec{B}") eq_refl eq_refl T4 y).
Qed.

Lemma maxwellRewrites_headStop (y : jsstring) :
  headStop y -> headStop (maxwellRewrites y).
Proof.
  intros Y. unfold maxwellRewrites. cbv zeta.
  exact (curlB_headStop _ (curlE_headStop _ (divB_headStop _
           (divE_headStop y Y)))).
Qed.

Lemma maxwellRewrites_stem (u y : jsstring) :
  maxwellMiss (cu "∇" :: u) -> ~ In (cu "∇") u -> headStop y ->
  maxwellRewrites ((cu "∇" :: u) ++ y)
  = ((cu "∇" :: u) ++ maxwellRewrites y)%list.
Proof.
  intros [M1 [M2 [M3 M4]]] U Y. unfold maxwellRewrites. cbv zeta.
  pose proof (divE_headStop y Y) as Y1.
  pose proof (divB_headStop _ Y1) as Y2.
  pose proof (curlE_headStop _ Y2) as Y3.
  rewrite (pass_stem "." "E" (js "\nabla \cdot \vec{E}") eq_refl eq_refl
             ltac:(stop_side) ltac:(stop_side) u y M1 U Y).
  rewrite (pass_stem "." "B" (js "\nabla \cdot \vec{B}") eq_refl eq_refl
             ltac:(stop_side) ltac:(stop_side) u _ M2 U Y1).
  rewrite (pass_stem "×" "E" (js "\nabla \times \vec{E}") eq_refl eq_refl
             ltac:(stop_side) ltac:(stop_side) u _ M3 U Y2).
  rewrite (pass_stem "×" "B" (js "\nabla \times \vec{B}") eq_refl eq_refl
             ltac:(stop_side) ltac:(stop_side) u _ M4 U Y3).
  reflexivity.
Qed.

(** Whether the block's patterns miss at a [∇] depends on the text up to
    the next [∇] or backslash only. *)
Lemma maxwellMiss_stem (u y : jsstring) :
  headStop y ->
  (maxwellMiss ((cu "∇" :: u) ++ y) <-> maxwellMiss (cu "∇" :: u)).
Proof.
  intros Y. unfold maxwellMiss.
  rewrite (miss_stem "." "E" ltac:(stop_side) ltac:(stop_side) u y Y).
  rewrite (miss_stem "." "B" ltac:(stop_side) ltac:(stop_side) u y Y).
  rewrite (miss_stem "×" "E" ltac:(stop_side) ltac:(stop_side) u y Y).
  rewrite (miss_stem "×" "B" ltac:(stop_side) ltac:(stop_side) u y Y).
  reflexivity.
Qed.

(** A [∇] at which no pattern matches is copied, and no pattern matches
    at it in the output. *)
Lemma maxwellRewrites_keep (s : jsstring) :
  maxwellMiss (cu "∇" :: s) ->
  maxwellRewrites (cu "∇" :: s) = cu "∇" :: maxwellRewrites s
  /\ maxwellMiss (cu "∇" :: maxwellRewrites s).
Proof.
  destruct (stem_split s) as [u [y [E [U Y]]]]. rewrite E. intros M.
  change (cu "∇" :: (u ++ y)%list) with ((cu "∇" :: u) ++ y)%list in M.
  apply (maxwellMiss_stem u y Y) in M.
  rewrite (maxwellRewrites_skip u y U). split.
  - change (cu "∇" :: (u ++ y)%list) with ((cu "∇" :: u) ++ y)%list.
    exact (maxwellRewrites_stem u y M U Y).
  - change (cu "∇" :: (u ++ maxwellRewrites y)%list)
      with ((cu "∇" :: u) ++ maxwellRewrites y)%list.
    apply (maxwellMiss_stem u _ (maxwellRewrites_headStop y Y)). exact M.
Qed.

(** An occurrence at the head of the text is rewritten, and the passes go
    on behind it. *)
Lemma maxwellRewrites_hit (sign field : N) (w1 w2 r : jsstring) :
  forallb isSpace w1 = true -> forallb isSpace w2 = true ->
  sign = cu "." \/ sign = cu "×" -> field = cu "E" \/ field = cu "B" ->
  maxwellRewrites (maxwellForm sign field w1 w2 ++ r)
  = (maxwellText sign field ++ maxwellRewrites r)%list.
Proof.
  intros A1 A2 S F.
  exact (maxwellRewrites_form sign field w1 w2 [] r A1 A2 S F).
Qed.

(** The block read as one pass: induction over what it does at each code
    unit. *)
Lemma maxwell_ind (Q : jsstring -> jsstring -> Prop) :
  Q [] [] ->
  (forall c s, c <> cu "∇" -> Q s (maxwellRewrites s) ->
     Q (c :: s) (c :: maxwellRewrites s)) ->
  (forall s, maxwellMiss (cu "∇" :: s) ->
     maxwellMiss (cu "∇" :: maxwellRewrites s) ->
     Q s (maxwellRewrites s) ->
     Q (cu "∇" :: s) (cu "∇" :: maxwellRewrites s)) ->
  (forall sign field w1 w2 r,
     forallb isSpace w1 = true -> forallb isSpace w2 = true ->
     sign = cu "." \/ sign = cu "×" -> field = cu "E" \/ field = cu "B" ->
     Q r (maxwellRewrites r) ->
     Q (maxwellForm sign field w1 w2 ++ r)%list
       (maxwellText sign field ++ maxwellRewrites r)%list) ->
  forall s, Q s (maxwellRewrites s).
Proof.
  intros Hnil Hkeep Hmiss Hhit s.
  assert (G : forall n s, length s <= n -> Q s (maxwellRewrites s)).
  { clear s. induction n as [| n IH]; intros s L.
    - destruct s; [| cbn [length] in L; lia].
      rewrite maxwellRewrites_nil. exact Hnil.
    - destruct s as [| c s]; [rewrite maxwellRewrites_nil; exact Hnil |].
      cbn [length] in L.
      destruct (N.eq_dec c (cu "∇")) as [C | C].
      + subst c.
        assert (Hit : forall sign field r,
                  sign = cu "." \/ sign = cu "×" ->
                  field = cu "E" \/ field = cu "B" ->
                  maxwellAt sign field (cu "∇" :: s) = Some r ->
                  Q (cu "∇" :: s) (maxwellRewrites (cu "∇" :: s))).
        { intros sign field r S F E.
          destruct (maxwellAt_Some _ _ _ _ E) as [w1 [w2 [Es [A1 A2]]]].
          rewrite Es. rewrite (maxwellRewrites_hit _ _ _ _ _ A1 A2 S F).
          apply Hhit; try assumption. apply IH.
          apply (f_equal (@length N)) in Es. rewrite length_app in Es.
          unfold maxwellForm in Es. cbn [length] in Es. lia. }
        destruct (maxwellAt (cu ".") (cu "E") (cu "∇" :: s)) as [r |] eqn:E1;
          [apply (Hit _ _ r (or_introl eq_refl) (or_introl eq_refl) E1) |].
        destruct (maxwellAt (cu ".") (cu "B") (cu "∇" :: s)) as [r |] eqn:E2;
          [apply (Hit _ _ r (or_introl eq_refl) (or_intror eq_refl) E2) |].
        destruct (maxwellAt (cu "×") (cu "E") (cu "∇" :: s)) as [r |] eqn:E3;
          [apply (Hit _ _ r (or_intror eq_refl) (or_introl eq_refl) E3) |].
        destruct (maxwellAt (cu "×") (cu "B") (cu "∇" :: s)) as [r |] eqn:E4;
          [apply (Hit _ _ r (or_intror eq_refl) (or_intror eq_refl) E4) |].
        assert (M : maxwellMiss (cu "∇" :: s))
          by (unfold maxwellMiss; rewrite E1, E2, E3, E4; tauto).
        destruct (maxwellRewrites_keep s M) as [K1 K2]. rewrite K1.
        apply Hmiss; [exact M | exact K2 |]. apply IH. lia.
      + assert (U : ~ In (cu "∇") [c]).
        { intros [K | []]. apply C. exact K. }
        pose proof (maxwellRewrites_skip [c] s U) as K.
        cbn [app] in K. rewrite K. apply Hkeep; [exact C |].
        apply IH. lia. }
  exact (G (length s) s (le_n _)).
Qed.

(** What the block has rewritten it does not rewrite again. *)
Lemma maxwellRewrites_idempotent (s : jsstring) :
  maxwellRewrites (maxwellRewrites s) = maxwellRewrites s.
Proof.
  apply (maxwell_ind (fun _ t => maxwellRewrites t = t)).
  - exact maxwellRewrites_nil.
  - intros c s0 C IH.
    assert (U : ~ In (cu "∇") [c]).
    { intros [K | []]. apply C. exact K. }
    pose proof (maxwellRewrites_skip [c] (maxwellRewrites s0) U) as K.
    cbn [app] in K. rewrite K, IH. reflexivity.
  - intros s0 _ M IH.
    destruct (maxwellRewrites_keep _ M) as [K _]. rewrite K, IH.
    reflexivity.
  - intros sign field w1 w2 r _ _ _ F IH.
    rewrite (maxwellRewrites_skip _ _ (text_no_nabla sign field F)).
    rewrite IH. reflexivity.
Qed.

Lemma maxwellText_block (sign field : N) :
  sign = cu "." \/ sign = cu "×" -> field = cu "E" \/ field = cu "B" ->
  maxwellBlock (maxwellText sign field).
Proof.
  unfold maxwellBlock. intros [S | S] [F | F]; rewrite S, F.
  - left. reflexivity.
  - right. left. reflexivity.
  - right. right. left. reflexivity.
  - right. right. right. left. reflexivity.
Qed.

Lemma maxwellRewrites_Replaced (s : jsstring) :
  Replaced maxwellBlock s (maxwellRewrites s).
Proof.
  apply (maxwell_ind (Replaced maxwellBlock)).
  - constructor.
  - intros c s0 _ IH. now constructor.
  - intros s0 _ _ IH. now constructor.
  - intros sign field w1 w2 r _ _ S F IH.
    apply Replaced_block; [exact (maxwellText_block sign field S F) |].
    exact IH.
Qed.


(** ** Text with stretches replaced by blocks *)

Section ReplacedFacts.

Variable blk : jsstring -> Prop.

Lemma Replaced_In (s t : jsstring) (x : N) :
  Replaced blk s t -> In x t -> In x s \/ exists h, blk h /\ In x h.
Proof.
  intros R. induction R as [| c s t R IH | w h s t Hh R IH]; intros H.
  - left. exact H.
  - destruct H as [H | H]; [left; left; exact H |].
    destruct (IH H) as [K | K]; [left; right; exact K | right; exact K].
  - apply in_app_or in H. destruct H as [H | H].
    + right. exists h. split; assumption.
    + destruct (IH H) as [K | K]; [| right; exact K].
      left. apply in_or_app. right. exact K.
Qed.

(** Replacing stretches of text by inert blocks creates no triple. *)
Lemma Replaced_tripleFree (p1 : N -> bool) (m : N) (p3 : N -> bool)
    (s t : jsstring) :
  (forall h, blk h -> inert p1 m p3 h = true) ->
  Replaced blk s t ->
  forall q, tripleFree p1 m p3 q s = true -> tripleFree p1 m p3 q t = true.
Proof.
  intros Hblk R. induction R as [| c s t R IH | w h s t Hh R IH];
    intros q H.
  - reflexivity.
  - cbn [tripleFree] in *. apply andb_prop in H. destruct H as [H1 H2].
    rewrite H1. cbn [andb]. exact (IH _ H2).
  - rewrite (tripleFree_inert p1 m p3 h q t (Hblk h Hh)).
    apply IH. apply tripleFree_app in H. destruct H as [_ H].
    exact (tripleFree_idle p1 m p3 _ _ H).
Qed.

End ReplacedFacts.

Section ReplacedOccurrences.

Variables (eq : N -> N -> bool) (n : jsstring) (blk : jsstring -> Prop).
Hypothesis blk_sealed : forall h, blk h -> sealed eq n h = true.

Lemma includesBy_skip (w s : jsstring) :
  includesBy eq s n = true -> includesBy eq (w ++ s) n = true.
Proof.
  intros H. induction w as [| c w IH]; [exact H |].
  cbn [app]. apply includesBy_cons. exact IH.
Qed.

Lemma Replaced_prefix (s t : jsstring) :
  Replaced blk s t ->
  forall w, incl w n -> isPrefixBy eq w t = true -> isPrefixBy eq w s = true.
Proof.
  intros R. induction R as [| c s t R IH | w0 h s t Hh R IH]; intros w Hw H.
  - exact H.
  - destruct w as [| l w]; [reflexivity |]. cbn [isPrefixBy] in *.
    apply andb_prop in H. destruct H as [H1 H2]. rewrite H1. cbn [andb].
    apply IH; [| exact H2]. intros x Hx. apply Hw. right. exact Hx.
  - destruct w as [| l w]; [reflexivity |]. exfalso.
    pose proof (blk_sealed h Hh) as S.
    destruct h as [| c h']; [discriminate S |]. cbn [app isPrefixBy] in H.
    apply andb_prop in H. destruct H as [H1 _].
    rewrite (sealed_first eq n _ c h' l S eq_refl) in H1;
      [discriminate H1 |].
    apply Hw. left. reflexivity.
Qed.

(** Replacing stretches of text by sealed blocks creates no occurrence of
    the word. *)
Lemma Replaced_includes (s t : jsstring) :
  n <> [] -> Replaced blk s t ->
  includesBy eq t n = true -> includesBy eq s n = true.
Proof.
  intros Hn R. induction R as [| c s t R IH | w h s t Hh R IH]; intros H.
  - exact H.
  - cbn [includesBy] in H. apply orb_prop in H. destruct H as [H | H].
    + apply includesBy_prefix.
      apply (Replaced_prefix (c :: s) (c :: t));
        [constructor; exact R | | exact H].
      intros x Hx. exact Hx.
    + apply includesBy_cons. exact (IH H).
  - apply includesBy_skip. apply IH.
    exact (includesBy_sealed eq n h t Hn (blk_sealed h Hh) H).
Qed.

End ReplacedOccurrences.

(** ** What the Maxwell block writes *)

Lemma maxwellBlocks_inert :
  forallb (inert isLetter (cu "_") isAlnum) maxwellBlocks = true
  /\ forallb (inert isAlnum (cu "^") isAlnum) maxwellBlocks = true
  /\ forallb (inert isAlnum (cu "/") isAlnum) maxwellBlocks = true.
Proof. conjs; run. Qed.

Lemma maxwellBlocks_sealed :
  forallb (fun e => forallb (sealed (charEq gi) (js (fst e))) maxwellBlocks)
    greekLetters = true.
Proof. run. Qed.

Lemma maxwellBlocks_plain :
  forallb (fun h => negb (hasGreekGlyph h)) maxwellBlocks = true.
Proof. run. Qed.

Lemma maxwellRewrites_free (p1 : N -> bool) (m : N) (s : jsstring) :
  forallb (inert p1 m isAlnum) maxwellBlocks = true ->
  forall q, tripleFree p1 m isAlnum q s = true ->
            tripleFree p1 m isAlnum q (maxwellRewrites s) = true.
Proof.
  intros B.
  apply (Replaced_tripleFree maxwellBlock p1 m isAlnum s (maxwellRewrites s));
    [| exact (maxwellRewrites_Replaced s)].
  intros h Hh. rewrite forallb_forall in B. exact (B h Hh).
Qed.

Lemma maxwellRewrites_no_name (s : jsstring) :
  hasGreekName s = false -> hasGreekName (maxwellRewrites s) = false.
Proof.
  intros H. unfold hasGreekName in *.
  destruct (existsb _ greekLetters) eqn:E in |- *; [| reflexivity].
  apply existsb_exists in E. destruct E as [e [He E]].
  destruct (brace_sealed e (js "{") He) as [Hn _]; [left; reflexivity |].
  assert (S : forall h, maxwellBlock h ->
                sealed (charEq gi) (js (fst e)) h = true).
  { intros h Hh. pose proof maxwellBlocks_sealed as B.
    rewrite forallb_forall in B. specialize (B e He).
    rewrite forallb_forall in B. exact (B h Hh). }
  pose proof (Replaced_includes (charEq gi) (js (fst e)) maxwellBlock S s
                (maxwellRewrites s) Hn (maxwellRewrites_Replaced s) E) as I.
  assert (C : existsb (fun e => includesBy (charEq gi) s (js (fst e)))
                greekLetters = true).
  { apply existsb_exists. exists e. split; assumption. }
  rewrite H in C. discriminate C.
Qed.

Lemma maxwellRewrites_no_glyph (s : jsstring) :
  hasGreekGlyph s = false -> hasGreekGlyph (maxwellRewrites s) = false.
Proof.
  intros H. unfold hasGreekGlyph in *.
  destruct (existsb isGreekGlyph (maxwellRewrites s)) eqn:E;
    [| reflexivity].
  apply existsb_exists in E. destruct E as [x [Hx E]].
  destruct (Replaced_In maxwellBlock s _ x (maxwellRewrites_Replaced s) Hx)
    as [I | [h [Hh I]]].
  - assert (C : existsb isGreekGlyph s = true).
    { apply existsb_exists. exists x. split; assumption. }
    rewrite H in C. discriminate C.
  - pose proof maxwellBlocks_plain as B. rewrite forallb_forall in B.
    specialize (B h Hh). apply negb_true_iff in B. unfold hasGreekGlyph in B.
    assert (C : existsb isGreekGlyph h = true).
    { apply existsb_exists. exists x. split; assumption. }
    rewrite B in C. discriminate C.
Qed.

(** ** The structural passes after the Maxwell block *)

Lemma structuralPasses_free (s : jsstring) :
  tripleFree isLetter (cu "_") isAlnum Idle (structuralPasses s) = true
  /\ tripleFree isAlnum (cu "^") isAlnum Idle (structuralPasses s) = true
  /\ tripleFree isAlnum (cu "/") isAlnum Idle (structuralPasses s) = true.
Proof.
  unfold structuralPasses.
  set (t1 := replaceAll g reSubscript toSubscript s).
  set (t2 := replaceAll g reSuperscript toSuperscript t1).
  assert (I1 : forall h, brace h ->
                 inert isLetter (cu "_") isAlnum h = true).
  { intros h. apply brace_inert. vm_compute. reflexivity. }
  assert (I2 : forall h, brace h ->
                 inert isAlnum (cu "^") isAlnum h = true).
  { intros h. apply brace_inert. vm_compute. reflexivity. }
  split; [| split].
  - apply (Dressed_tripleFree _ _ _ brace t2 _ I1);
      [apply fraction_pass_Dressed |].
    apply (Dressed_tripleFree _ _ _ brace t1 t2 I1);
      [apply superscript_Dressed |].
    apply subscript_free.
  - apply (Dressed_tripleFree _ _ _ brace t2 _ I2);
      [apply fraction_pass_Dressed |].
    apply superscript_free.
  - apply fraction_pass_free.
Qed.

Lemma structuralPasses_fixed (t : jsstring) :
  tripleFree isLetter (cu "_") isAlnum Idle t = true ->
  tripleFree isAlnum (cu "^") isAlnum Idle t = true ->
  tripleFree isAlnum (cu "/") isAlnum Idle t = true ->
  structuralPasses t = t.
Proof.
  intros F1 F2 F3. unfold structuralPasses.
  rewrite (subscript_fixed t Idle F1).
  rewrite (superscript_fixed t Idle F2).
  exact (fraction_pass_fixed t Idle F3).
Qed.

(** The structural passes find nothing to rewrite in what the Maxwell
    block makes of their output. *)
Lemma structuralPasses_after_maxwell (s : jsstring) :
  structuralPasses (maxwellRewrites (structuralPasses s))
  = maxwellRewrites (structuralPasses s).
Proof.
  destruct (structuralPasses_free s) as [F1 [F2 F3]].
  destruct maxwellBlocks_inert as [B1 [B2 B3]].
  apply structuralPasses_fixed.
  - exact (maxwellRewrites_free _ _ _ B1 Idle F1).
  - exact (maxwellRewrites_free _ _ _ B2 Idle F2).
  - exact (maxwellRewrites_free _ _ _ B3 Idle F3).
Qed.

(** On text without Greek material the Greek-letter pass does nothing,
    and the rewriter is the structural passes and the Maxwell block. *)
Lemma processToLatex_plain (s : jsstring) :
  hasGreekName s = false -> hasGreekGlyph s = false ->
  processToLatex s
  = if maxwellGuard (structuralPasses s)
    then maxwellRewrites (structuralPasses s)
    else structuralPasses s.
Proof.
  intros Hn Hg. rewrite processToLatex_maxwell.
  rewrite (greekPass_id (structuralPasses s)
             (structuralPasses_no_name s Hn)
             (structuralPasses_no_glyph s Hg)).
  reflexivity.
Qed.


(** ** The detector's structural flags and the structural passes *)

(** X1: the first three statements of the rewriter leave the input as it
    is exactly when the detector reports no subscript, no superscript and
    no fraction in it. *)
Theorem structural_flags_iff_unchanged (input : jsstring) :
  structuralPasses input = input <->
  hasSubscripts (detectPatterns input) = false
  /\ hasSuperscripts (detectPatterns input) = false
  /\ hasFractions (detectPatterns input) = false.
Proof.
  cbn [detectPatterns hasSubscripts hasSuperscripts hasFractions].
  exact (structural_fixed_tests input).
Qed.

(** X2: the first three statements of the rewriter change nothing in a
    text they have produced, and the detector reports no subscript, no
    superscript and no fraction in such a text. *)
Theorem structural_passes_settle (input : jsstring) :
  structuralPasses (structuralPasses input) = structuralPasses input
  /\ hasSubscripts (detectPatterns (structuralPasses input)) = false
  /\ hasSuperscripts (detectPatterns (structuralPasses input)) = false
  /\ hasFractions (detectPatterns (structuralPasses input)) = false.
Proof.
  cbn [detectPatterns hasSubscripts hasSuperscripts hasFractions].
  split; [exact (structuralPasses_idempotent input) |].
  exact (proj1 (structural_fixed_tests (structuralPasses input))
           (structuralPasses_idempotent input)).
Qed.

(** ** Lengths *)

(** X3: the component's rewriter never shortens its input, and the
    output has the length of the input only when it is the input. *)
Theorem processInput_never_shortens (input : jsstring) :
  length input <= length (processInput input)
  /\ (length (processInput input) = length input <->
      processInput input = input).
Proof.
  destruct (processInput_lengthens input) as [L E].
  split; [exact L |]. split; [exact E |]. intros H. now rewrite H.
Qed.

(** ** The detector's other two equation flags *)

(** X4: [isMaxwellEquation] holds exactly when the text has, on one
    line, a [∇], later an [E] or [B], later a second [∇] and later again
    an [E] or [B]. *)
Theorem isMaxwellEquation_iff_chain_on_one_line (s : jsstring) :
  isMaxwellEquation (detectPatterns s) = true <->
  exists a x1 f1 x2 x3 f2 b,
    s = (a ++ js "∇" ++ x1 ++ [f1] ++ x2 ++ js "∇" ++ x3 ++ [f2] ++ b)%list
    /\ (f1 = cu "E" \/ f1 = cu "B") /\ (f2 = cu "E" \/ f2 = cu "B")
    /\ forallb notLineTerminator (x1 ++ x2 ++ x3) = true.
Proof.
  cbn [detectPatterns isMaxwellEquation]. unfold test. split.
  - intros H. apply searchFrom_true in H.
    destruct H as [a [suf [Es M]]]. unfold matchAt in M.
    destruct (matcher g reMaxwellChain _ Some) as [x |] eqn:E;
      [clear M | congruence].
    unfold reMaxwellChain in E.
    apply char_link in E. destruct E as [r0 [st0 [E0 [R0 E]]]].
    apply any_link in E. destruct E as [x1 [r1 [st1 [E1 [A1 [R1 E]]]]]].
    apply class_link in E. destruct E as [f1 [r2 [st2 [E2 [C1 [R2 E]]]]]].
    apply any_link in E. destruct E as [x2 [r3 [st3 [E3 [A2 [R3 E]]]]]].
    apply char_link in E. destruct E as [r4 [st4 [E4 [R4 E]]]].
    apply any_link in E. destruct E as [x3 [r5 [st5 [E5 [A3 [R5 E]]]]]].
    apply class_end in E. destruct E as [f2 [b [E6 C2]]].
    exists a, x1, f1, x2, x3, f2, b. split; [| split; [| split]].
    + rewrite Es. cbn [rest] in E0. rewrite E0.
      rewrite <- R0, E1, <- R1, E2, <- R2, E3, <- R3, E4, <- R4, E5, <- R5,
        E6.
      reflexivity.
    + now apply inRanges_two.
    + now apply inRanges_two.
    + rewrite !forallb_app. now rewrite A1, A2, A3.
  - intros [a [x1 [f1 [x2 [x3 [f2 [b [Es [F1 [F2 A]]]]]]]]]].
    rewrite !forallb_app in A.
    apply andb_prop in A. destruct A as [A1 A].
    apply andb_prop in A. destruct A as [A2 A3].
    apply inRanges_two in F1. apply inRanges_two in F2.
    rewrite Es. apply searchFrom_found. unfold matchAt.
    assert (ACC : accepts (fun st => matcher g reMaxwellChain st Some)
                    (js "∇" ++ x1 ++ [f1] ++ x2 ++ js "∇" ++ x3 ++ [f2]
                       ++ b)%list).
    { unfold reMaxwellChain.
      apply (char_accepts (cu "∇")). apply any_accepts; [exact A1 |].
      apply (class_accepts _ f1); [exact F1 |].
      apply any_accepts; [exact A2 |].
      apply (char_accepts (cu "∇")). apply any_accepts; [exact A3 |].
      apply (class_accepts_end _ f2). exact F2. }
    now apply ACC.
Qed.

(** X5: [isSchrodingerEquation] holds exactly when the text has, on one
    line, a [Ψ] or [ψ], later an [ħ] or a plain [h], and later [∇^2]. *)
Theorem isSchrodingerEquation_iff_chain_on_one_line (s : jsstring) :
  isSchrodingerEquation (detectPatterns s) = true <->
  exists a p x1 h x2 b,
    s = (a ++ [p] ++ x1 ++ [h] ++ x2 ++ js "∇^2" ++ b)%list
    /\ (p = cu "Ψ" \/ p = cu "ψ") /\ (h = cu "ħ" \/ h = cu "h")
    /\ forallb notLineTerminator (x1 ++ x2) = true.
Proof.
  cbn [detectPatterns isSchrodingerEquation]. unfold test. split.
  - intros H. apply searchFrom_true in H.
    destruct H as [a [suf [Es M]]]. unfold matchAt in M.
    destruct (matcher g reSchrodingerChain _ Some) as [x |] eqn:E;
      [clear M | congruence].
    unfold reSchrodingerChain in E.
    apply class_link in E. destruct E as [p [r0 [st0 [E0 [C1 [R0 E]]]]]].
    apply any_link in E. destruct E as [x1 [r1 [st1 [E1 [A1 [R1 E]]]]]].
    apply class_link in E. destruct E as [h [r2 [st2 [E2 [C2 [R2 E]]]]]].
    apply any_link in E. destruct E as [x2 [r3 [st3 [E3 [A2 [R3 E]]]]]].
    apply lit_end in E. destruct E as [b E4].
    exists a, p, x1, h, x2, b. split; [| split; [| split]].
    + rewrite Es. cbn [rest] in E0. rewrite E0.
      rewrite <- R0, E1, <- R1, E2, <- R2, E3, <- R3, E4. reflexivity.
    + now apply inRanges_two.
    + now apply inRanges_two.
    + rewrite !forallb_app. now rewrite A1, A2.
  - intros [a [p [x1 [h [x2 [b [Es [P [Hh A]]]]]]]]].
    rewrite !forallb_app in A. apply andb_prop in A. destruct A as [A1 A2].
    apply inRanges_two in P. apply inRanges_two in Hh.
    rewrite Es. apply searchFrom_found. unfold matchAt.
    assert (ACC : accepts (fun st => matcher g reSchrodingerChain st Some)
                    ([p] ++ x1 ++ [h] ++ x2 ++ js "∇^2" ++ b)%list).
    { unfold reSchrodingerChain.
      apply (class_accepts _ p); [exact P |].
      apply any_accepts; [exact A1 |].
      apply (class_accepts _ h); [exact Hh |].
      apply any_accepts; [exact A2 |].
      apply lit_accepts_end. }
    now apply ACC.
Qed.

(** ** Empty texts *)

(** X6: the rewriter returns the empty text for the empty text only. *)
Theorem processToLatex_empty_iff (input : jsstring) :
  processToLatex input = [] <-> input = [].
Proof.
  split.
  - intros E. destruct input as [| c s]; [reflexivity | exfalso].
    rewrite processToLatex_maxwell, <- processInput_passes in E.
    assert (P : processInput (c :: s) <> []).
    { intros Z. destruct (processInput_lengthens (c :: s)) as [L _].
      rewrite Z in L. cbn [length] in L. lia. }
    destruct (maxwellGuard (processInput (c :: s))).
    + exact (maxwellRewrites_nonempty _ P E).
    + exact (P E).
  - intros E. rewrite E. run.
Qed.

(** X7: the LaTeX output of the component is what its rewriter returns
    for the input, the empty input included; each of the two outputs is
    empty exactly when the input is. *)
Theorem updateOutputs_empty_iff (inputText : jsstring) :
  fst (updateOutputs inputText) = processInput inputText
  /\ (fst (updateOutputs inputText) = [] <-> inputText = [])
  /\ (snd (updateOutputs inputText) = [] <-> inputText = []).
Proof.
  destruct inputText as [| c s].
  - cbn [updateOutputs fst snd]. split; [run |]. split; tauto.
  - cbn [updateOutputs fst snd]. split; [reflexivity |]. split.
    + split; [| intros H; discriminate H].
      intros Z. destruct (processInput_lengthens (c :: s)) as [L _].
      rewrite Z in L. cbn [length] in L. lia.
    + split; [| intros H; discriminate H].
      unfold generateMathML.
      destruct (includes _ _); intros Z.
      * apply (f_equal (@length N)) in Z. vm_compute in Z. discriminate Z.
      * apply (f_equal (@length N)) in Z. rewrite length_app in Z.
        change (length (js "<math><mrow>")) with 12 in Z.
        cbn [length] in Z. lia.
Qed.

(** ** What the output is made of *)

(** X8: the rewriter's output holds no code unit that a glyph of the
    Greek table matches: every such code unit of the input is replaced
    and none is written. *)
Theorem processToLatex_output_has_no_greek_glyph (input : jsstring) :
  hasGreekGlyph (processToLatex input) = false.
Proof.
  unfold hasGreekGlyph.
  destruct (existsb isGreekGlyph (processToLatex input)) eqn:E;
    [| reflexivity].
  apply existsb_exists in E. destruct E as [x [I G]].
  rewrite (processToLatex_no_glyph input x I) in G. discriminate G.
Qed.

(** X9: whatever the rewriter writes is ASCII: a code unit of the output
    outside ASCII is a code unit of the input; in particular an ASCII
    input has an ASCII output. *)
Theorem processToLatex_writes_ascii (input : jsstring) :
  (forall x, In x (processToLatex input) ->
             isAscii x = false -> In x input)
  /\ (forallb isAscii input = true ->
      forallb isAscii (processToLatex input) = true).
Proof.
  split.
  - intros x I A. destruct (processToLatex_origin input x I) as [H | H];
      [exact H |].
    rewrite H in A. discriminate A.
  - intros A. apply forallb_forall. intros x I.
    destruct (processToLatex_origin input x I) as [H | H]; [| exact H].
    rewrite forallb_forall in A. exact (A x H).
Qed.

(** X9, at [∇_a] for the first part and at [x_1] for the second. *)
Lemma processToLatex_writes_ascii_witness :
  (In (cu "∇") (processToLatex (js "∇_a")) /\ isAscii (cu "∇") = false
   /\ In (cu "∇") (js "∇_a"))
  /\ (forallb isAscii (js "x_1") = true
      /\ forallb isAscii (processToLatex (js "x_1")) = true).
Proof.
  assert (I : In (cu "∇") (processToLatex (js "∇_a")))
    by (vm_compute; left; reflexivity).
  assert (A : isAscii (cu "∇") = false) by (vm_compute; reflexivity).
  assert (F : forallb isAscii (js "x_1") = true)
    by (vm_compute; reflexivity).
  split.
  - split; [exact I |]. split; [exact A |].
    exact (proj1 (processToLatex_writes_ascii (js "∇_a")) _ I A).
  - split; [exact F |].
    exact (proj2 (processToLatex_writes_ascii (js "x_1")) F).
Defined.

(** X10: unless the input holds the unassigned code point U+03A2, which
    lies inside the detector's range [Α-Ω], the detector finds no Greek
    letter in the rewriter's output. *)
Theorem no_greek_letters_in_output (input : jsstring) :
  ~ In 0x3A2%N input ->
  hasGreekLetters (detectPatterns (processToLatex input)) = false.
Proof.
  intros NI. cbn [detectPatterns hasGreekLetters].
  change [(cu "α", cu "ω"); (cu "Α", cu "Ω")] with detectorGreek.
  rewrite test_class.
  destruct (existsb _ (processToLatex input)) eqn:E; [| reflexivity].
  apply existsb_exists in E. destruct E as [x [I G]].
  destruct (detectorGreek_cases x G) as [H | H].
  - rewrite (processToLatex_no_glyph input x I) in H. discriminate H.
  - exfalso. apply NI. rewrite H in I.
    destruct (processToLatex_origin input _ I) as [K | K]; [exact K |].
    vm_compute in K. discriminate K.
Qed.

(** X10, at the input [α + Ω]. *)
Lemma no_greek_letters_in_output_witness :
  ~ In 0x3A2%N (js "α + Ω")
  /\ hasGreekLetters (detectPatterns (processToLatex (js "α + Ω"))) = false.
Proof.
  assert (H : ~ In 0x3A2%N (js "α + Ω")).
  { vm_compute. intros K.
    repeat (destruct K as [K | K]; [discriminate K |]). exact K. }
  split; [exact H | exact (no_greek_letters_in_output _ H)].
Defined.

(** ** The detector on the rewriter's output *)

(** X11: the detector never takes the rewriter's output for the Einstein
    field equations or for the Schrodinger equation: both patterns need a
    Greek glyph, and the output has none. *)
Theorem equation_flags_off_on_output (input : jsstring) :
  isEinsteinEquation (detectPatterns (processToLatex input)) = false
  /\ isSchrodingerEquation (detectPatterns (processToLatex input)) = false.
Proof.
  cbn [detectPatterns isEinsteinEquation isSchrodingerEquation]. split.
  - destruct (test g reEinsteinChain (processToLatex input)) eqn:E;
      [| reflexivity].
    apply einstein_chain_mu in E. apply processToLatex_no_glyph in E.
    vm_compute in E. discriminate E.
  - destruct (test g reSchrodingerChain (processToLatex input)) eqn:E;
      [| reflexivity].
    apply schrodinger_chain_psi in E.
    destruct E as [E | E]; apply processToLatex_no_glyph in E;
      vm_compute in E; discriminate E.
Qed.

(** X12: a text the detector takes for the Einstein field equations or
    for the Schrodinger equation is also reported to hold Greek letters. *)
Theorem equation_flags_imply_greek (input : jsstring) :
  isEinsteinEquation (detectPatterns input) = true
  \/ isSchrodingerEquation (detectPatterns input) = true ->
  hasGreekLetters (detectPatterns input) = true.
Proof.
  cbn [detectPatterns isEinsteinEquation isSchrodingerEquation
         hasGreekLetters].
  change [(cu "α", cu "ω"); (cu "Α", cu "Ω")] with detectorGreek.
  intros [H | H].
  - apply einstein_chain_mu in H.
    apply (greek_flag_by input _ H). vm_compute. reflexivity.
  - apply schrodinger_chain_psi in H. destruct H as [H | H];
      apply (greek_flag_by input _ H); vm_compute; reflexivity.
Qed.

(** X12, at the text [iħ ∂Ψ/∂t = -ħ^2/2m ∇^2 Ψ]. *)
Lemma equation_flags_imply_greek_witness :
  (isEinsteinEquation (detectPatterns (js "iħ ∂Ψ/∂t = -ħ^2/2m ∇^2 Ψ")) = true
   \/ isSchrodingerEquation
        (detectPatterns (js "iħ ∂Ψ/∂t = -ħ^2/2m ∇^2 Ψ")) = true)
  /\ hasGreekLetters (detectPatterns (js "iħ ∂Ψ/∂t = -ħ^2/2m ∇^2 Ψ")) = true.
Proof.
  assert (H : isEinsteinEquation
                (detectPatterns (js "iħ ∂Ψ/∂t = -ħ^2/2m ∇^2 Ψ")) = true
              \/ isSchrodingerEquation
                   (detectPatterns (js "iħ ∂Ψ/∂t = -ħ^2/2m ∇^2 Ψ")) = true)
    by (right; vm_compute; reflexivity).
  split; [exact H | exact (equation_flags_imply_greek _ H)].
Defined.

(** ** The MathML text *)

(** X13: two LaTeX texts get the same MathML exactly when they are the
    same text or both hold [G_{\mu\nu}]: the fixed text shown for the
    field equations is never the wrapping of a LaTeX text, and the
    wrapping loses nothing. *)
Theorem generateMathML_same_iff (l1 l2 : jsstring) :
  generateMathML l1 = generateMathML l2 <->
  l1 = l2
  \/ (includes l1 (js "G_{\mu\nu}") = true
      /\ includes l2 (js "G_{\mu\nu}") = true).
Proof.
  unfold generateMathML. split.
  - destruct (includes l1 _) eqn:I1; destruct (includes l2 _) eqn:I2;
      intros Z.
    + right. split; reflexivity.
    + elim (einsteinMathML_not_wrapped l2 Z).
    + symmetry in Z. elim (einsteinMathML_not_wrapped l1 Z).
    + left. apply app_inv_head in Z. apply app_inv_tail in Z. exact Z.
  - intros [E | [I1 I2]].
    + rewrite E. reflexivity.
    + rewrite I1, I2. reflexivity.
Qed.

(** ** Applying the rewriter twice *)

(** X14: on an input with no Greek letter name and no Greek glyph,
    applying the rewriter twice gives what applying it once gives, also
    when the guard of the Maxwell block holds: neither the structural
    passes nor the block find anything to rewrite in the block's output. *)
Theorem processToLatex_twice_without_greek (s : jsstring) :
  hasGreekName s = false -> hasGreekGlyph s = false ->
  processToLatex (processToLatex s) = processToLatex s.
Proof.
  intros Hn Hg.
  pose proof (structuralPasses_no_name s Hn) as Pn.
  pose proof (structuralPasses_no_glyph s Hg) as Pg.
  rewrite (processToLatex_plain s Hn Hg).
  set (p := structuralPasses s) in *.
  destruct (maxwellGuard p) eqn:G.
  - rewrite (processToLatex_plain (maxwellRewrites p)
               (maxwellRewrites_no_name p Pn)
               (maxwellRewrites_no_glyph p Pg)).
    unfold p. rewrite (structuralPasses_after_maxwell s).
    rewrite (maxwellRewrites_idempotent (structuralPasses s)).
    destruct (maxwellGuard (maxwellRewrites (structuralPasses s)));
      reflexivity.
  - rewrite (processToLatex_plain p Pn Pg).
    unfold p in *. rewrite (structuralPasses_idempotent s), G.
    reflexivity.
Qed.

(** X14, at the input [∇ . E + x_1]. *)
Lemma processToLatex_twice_without_greek_witness :
  hasGreekName (js "∇ . E + x_1") = false
  /\ hasGreekGlyph (js "∇ . E + x_1") = false
  /\ processToLatex (processToLatex (js "∇ . E + x_1"))
     = processToLatex (js "∇ . E + x_1").
Proof.
  assert (Hn : hasGreekName (js "∇ . E + x_1") = false)
    by (vm_compute; reflexivity).
  assert (Hg : hasGreekGlyph (js "∇ . E + x_1") = false)
    by (vm_compute; reflexivity).
  split; [exact Hn |]. split; [exact Hg |].
  exact (processToLatex_twice_without_greek _ Hn Hg).
Defined.

(** X15: on an input with no Greek letter name and no Greek glyph, the
    component's rewriter applied twice gives what it gives applied once. *)
Theorem processInput_twice_without_greek (s : jsstring) :
  hasGreekName s = false -> hasGreekGlyph s = false ->
  processInput (processInput s) = processInput s.
Proof.
  intros Hn Hg.
  pose proof (structuralPasses_no_name s Hn) as Pn.
  pose proof (structuralPasses_no_glyph s Hg) as Pg.
  rewrite (processInput_passes s).
  rewrite (greekPass_id (structuralPasses s) Pn Pg).
  rewrite (processInput_passes (structuralPasses s)).
  rewrite (structuralPasses_idempotent s).
  exact (greekPass_id (structuralPasses s) Pn Pg).
Qed.

(** X15, at the input [x_1 + a/b]. *)
Lemma processInput_twice_without_greek_witness :
  hasGreekName (js "x_1 + a/b") = false
  /\ hasGreekGlyph (js "x_1 + a/b") = false
  /\ processInput (processInput (js "x_1 + a/b"))
     = processInput (js "x_1 + a/b").
Proof.
  assert (Hn : hasGreekName (js "x_1 + a/b") = false)
    by (vm_compute; reflexivity).
  assert (Hg : hasGreekGlyph (js "x_1 + a/b") = false)
    by (vm_compute; reflexivity).
  split; [exact Hn |]. split; [exact Hg |].
  exact (processInput_twice_without_greek _ Hn Hg).
Defined.
